(** * sdc-napi: the allocation and validation engine

    A shallow embedding of the parts of NAPI that order and commit store
    batches ([lib/models/nic/common.js]), build store filters and wrap store
    calls ([lib/apis/moray.js]), model one IP address of a network
    ([lib/models/ip/common.js], [lib/models/ip/index.js]) and validate the
    member networks of a pool ([lib/models/network-pool.js]).

    JavaScript values are a small inductive type; objects are ordered lists
    of own enumerable properties, because [Object.keys] and [for .. in] visit
    them in insertion order.  Asynchronous functions become functions from
    the state of the store to a result and the next state of the store. *)

From Stdlib Require Import ZArith Ascii String.
From stdpp Require Import gmap strings list sorting pretty.

#[local] Open Scope Z_scope.
#[local] Set Warnings "-register-all".

(** ** The JavaScript values the engine handles *)

Module JS.

(** An address object of [util/ip] (a parsed IPv4 or IPv6 address), seen
    through the two renderings the engine uses: [toLong()] and
    [toString()]. *)
Record ipaddr := IPAddr { toLong : Z; toString : string }.

Inductive jsval : Type :=
| VUndefined
| VNull
| VBool (b : bool)
| VNum (n : Z)
| VStr (s : string)
| VAddr (a : ipaddr)
| VArr (l : list jsval)
| VObj (props : list (string * jsval)).

(** The own enumerable properties of an object, in insertion order. *)
Abbreviation props := (list (string * jsval)).

(** [typeof v] *)
Definition typeof (v : jsval) : string :=
  match v with
  | VUndefined => "undefined"
  | VBool _ => "boolean"
  | VNum _ => "number"
  | VStr _ => "string"
  | VNull | VAddr _ | VArr _ | VObj _ => "object"
  end.

(** [ToBoolean]: what [if (v)], [!v], [v ? a : b] and [v || w] test. *)
Definition truthy (v : jsval) : bool :=
  match v with
  | VUndefined | VNull => false
  | VBool b => b
  | VNum n => negb (n =? 0)
  | VStr s => negb (String.eqb s EmptyString)
  | VAddr _ | VArr _ | VObj _ => true
  end.

(** [a === b].  Two primitives are equal when they are the same value;
    objects are compared by identity, which the engine only ever does
    against a primitive on one side, so an object is equal to nothing. *)
Definition strict_eq (a b : jsval) : bool :=
  match a, b with
  | VUndefined, VUndefined => true
  | VNull, VNull => true
  | VBool x, VBool y => Bool.eqb x y
  | VNum x, VNum y => x =? y
  | VStr x, VStr y => String.eqb x y
  | _, _ => false
  end.

(** [a || b] *)
Definition or_else (a b : jsval) : jsval := if truthy a then a else b.

(** [a && b] *)
Definition and_then (a b : jsval) : jsval := if truthy a then b else a.

(** [o.hasOwnProperty(k)] and the value of an own property. *)
Fixpoint own (o : props) (k : string) : option jsval :=
  match o with
  | [] => None
  | (k', v) :: o' => if String.eqb k' k then Some v else own o' k
  end.

Definition hasOwnProperty (o : props) (k : string) : bool :=
  match own o k with Some _ => true | None => false end.

(** [o.k] on an object: the own property, or [undefined]. *)
Definition get (o : props) (k : string) : jsval :=
  match own o k with Some v => v | None => VUndefined end.

(** [o[k] = v]: an existing property keeps its place, a new one goes
    last.  This is the assignment to any name but [__proto__], which on
    a plain object sets the prototype and adds no property. *)
Fixpoint set (o : props) (k : string) (v : jsval) : props :=
  match o with
  | [] => [(k, v)]
  | (k', v') :: o' =>
      if String.eqb k' k then (k', v) :: o' else (k', v') :: set o' k v
  end.

(** [delete o[k]] *)
Fixpoint del (o : props) (k : string) : props :=
  match o with
  | [] => []
  | (k', v') :: o' =>
      if String.eqb k' k then del o' k else (k', v') :: del o' k
  end.

(** [Object.keys(o)] *)
Definition keys (o : props) : list string := o.*1.

(** [v.k] where [v] is any value: reading a property of a primitive gives
    [undefined] (none of the names the engine reads is a built-in of a
    primitive). *)
Definition member (v : jsval) (k : string) : jsval :=
  match v with
  | VObj o => get o k
  | _ => VUndefined
  end.

(** [a == b], for the values the engine compares this way: [null] and
    [undefined] are equal to each other, two values of one primitive type
    are equal when they are strictly equal.  (The conversions between a
    number and a string are not modelled.) *)
Definition loose_eq (a b : jsval) : bool :=
  match a, b with
  | (VUndefined | VNull), (VUndefined | VNull) => true
  | _, _ => strict_eq a b
  end.

(** The properties [for (var k in v)] and [Object.keys(v)] visit: those of
    an object, the indices of an array, none for a primitive.  (An address
    object is never iterated over; its fields are not modelled.) *)
Definition enumerable (v : jsval) : props :=
  match v with
  | VObj o => o
  | VArr l => imap (λ i x, (pretty i, x)) l
  | _ => []
  end.

(** [a < b] on strings compares code units, left to right. *)
Definition str_lt (a b : string) : bool := String.ltb a b.

(** [s.indexOf(sub)]: the first position of [sub] in [s], or -1. *)
Definition indexOf (s sub : string) : Z :=
  match String.index 0 sub s with
  | Some n => Z.of_nat n
  | None => -1
  end.

(** [s.replace(/c/g, d)] for a one-character pattern. *)
Fixpoint replace_all (c d : Ascii.ascii) (s : string) : string :=
  match s with
  | EmptyString => EmptyString
  | String x s' =>
      String (if Ascii.eqb x c then d else x) (replace_all c d s')
  end.

(** [Array.prototype.sort(cmp)]: a merge sort that leaves [a] before [b]
    whenever [cmp(a, b) <= 0]. *)
Definition sorts_before {A} (cmp : A → A → Z) : relation A :=
  λ a b, cmp a b ≤ 0.

#[export] Instance sorts_before_dec {A} (cmp : A → A → Z) :
  RelDecision (sorts_before cmp) := λ a b, decide (cmp a b ≤ 0).

Definition Array_sort {A} (cmp : A → A → Z) (l : list A) : list A :=
  merge_sort (sorts_before cmp) l.

(** The string made of one double quote. *)
Definition dquote : string := String (ascii_of_nat 34) EmptyString.

(** [String(v)], what [util.format] puts in place of [%s]. *)
Fixpoint to_str (v : jsval) : string :=
  match v with
  | VUndefined => "undefined"
  | VNull => "null"
  | VBool true => "true"
  | VBool false => "false"
  | VNum n => pretty n
  | VStr s => s
  | VAddr a => toString a
  | VArr l => String.concat "," (map to_str l)
  | VObj _ => "[object Object]"
  end.

End JS.

Import JS.

(** ** Errors and results *)

Module Errors.

(** The errors that travel through callbacks. *)
Inductive error : Type :=
| MorayError (name : string)
    (** raised by the store client, told apart by [err.name] *)
| RestError (name : string) (status : Z) (message : string)
    (** a [restify] error, with its [statusCode] *)
| InvalidParam (field message : string) (invalid : option (list jsval))
    (** [errors.invalidParam(field, message)], with the list later put in
        [err.invalid], if any *)
| Caught (what : string)
    (** an exception caught by [try .. catch] and given to the callback *).

Definition err_name (e : error) : string :=
  match e with
  | MorayError n => n
  | RestError n _ _ => n
  | InvalidParam _ _ _ => "InvalidParameter"
  | Caught _ => "Error"
  end.

(** [err.statusCode] *)
Definition statusCode (e : error) : option Z :=
  match e with
  | RestError _ s _ => Some s
  | _ => None
  end.

Definition ObjectNotFoundError := MorayError "ObjectNotFoundError".
Definition EtagConflictError := MorayError "EtagConflictError".

(** [new restify.ResourceNotFoundError(message)] *)
Definition ResourceNotFoundError (message : string) : error :=
  RestError "ResourceNotFoundError" 404 message.

(** [new restify.InvalidArgumentError(message)] *)
Definition InvalidArgumentError (message : string) : error :=
  RestError "InvalidArgumentError" 409 message.

(** [errors.invalidParam(field, message)] *)
Definition invalidParam (field message : string) : error :=
  InvalidParam field message None.

(** What a callback-taking function does: it calls back with a value, calls
    back with an error, or throws (a failed assertion, a [TypeError]). *)
Inductive result (A : Type) : Type :=
| Ok (a : A)
| Err (e : error)
| Throw (what : string).

Arguments Ok {A} a.
Arguments Err {A} e.
Arguments Throw {A} what.

#[export] Instance result_ret : MRet result := λ A a, Ok a.

#[export] Instance result_bind : MBind result := λ A B k r,
  match r with
  | Ok a => k a
  | Err e => Err e
  | Throw w => Throw w
  end.

(** [v.k] where [v] may be anything: reading a property of [undefined]
    or [null] throws. *)
Definition member_of (v : jsval) (k : string) : result jsval :=
  match v with
  | VUndefined | VNull =>
      Throw ("TypeError: cannot read property " +:+ k)
  | _ => Ok (member v k)
  end.

End Errors.

Import Errors.

(** ** The store

    The store (Moray) and its client are outside the engine and outside
    this development.  The model below follows the interface the
    specification gives for it: rows are kept by bucket name and key, a
    row carries a value and a version token (etag), a put may name the
    token it expects, and a batch applies its requests in the order given,
    all or nothing. *)

Module Moray.

Record row := Row { row_value : props; _etag : jsval }.

(** The rows, by bucket name and key, and the number of writes so far,
    from which the next token is made. *)
Record moray := Store {
  objects : gmap (string * string) row;
  writes : N
}.

(** One request of a batch: [{ bucket, key, operation, value, options }].
    [options] is [None] when the request has no [options] property and
    [Some e] for [options: { etag: e }]. *)
Record request := Request {
  bucket : string;
  key : string;
  operation : string;
  value : props;
  options : option jsval
}.

(** One entry of [res.etags] of a batch. *)
Record etag_entry := EtagEntry {
  e_bucket : string;
  e_key : string;
  e_etag : jsval
}.

Definition next_etag (m : moray) : jsval := VStr (pretty (writes m)).

(** Modelled from the spec: the version check of a write.  No option, or
    [undefined], expects nothing; [null] expects that there is no row
    (an optimistic create); any other token expects a row with that
    token. *)
Definition etag_ok (expected : option jsval) (found : option row) : bool :=
  match expected with
  | None | Some VUndefined => true
  | Some VNull => match found with None => true | Some _ => false end
  | Some e =>
      match found with
      | Some r => strict_eq e (_etag r)
      | None => false
      end
  end.

(** Modelled from the spec: [get(bucket, key)] gives the row or
    not-found. *)
Definition getObject (m : moray) (b k : string) : result row :=
  match objects m !! (b, k) with
  | Some r => Ok r
  | None => Err ObjectNotFoundError
  end.

(** Modelled from the spec: [put(bucket, key, value, {etag})] writes the
    row and gives its new token, or fails with a version conflict. *)
Definition putObject (m : moray) (b k : string) (v : props)
    (expected : option jsval) : result jsval * moray :=
  if etag_ok expected (objects m !! (b, k)) then
    (Ok (next_etag m),
     Store (<[(b, k) := Row v (next_etag m)]> (objects m)) (writes m + 1))
  else (Err EtagConflictError, m).

(** Modelled from the spec: [delete(bucket, key)] removes the row, or
    fails with not-found. *)
Definition delObject (m : moray) (b k : string) : result unit * moray :=
  match objects m !! (b, k) with
  | Some _ => (Ok (), Store (delete (b, k) (objects m)) (writes m))
  | None => (Err ObjectNotFoundError, m)
  end.

(** One request of a batch, on the state the requests before it left. *)
Definition apply_request (r : request) (m : moray)
    : result (list etag_entry) * moray :=
  if String.eqb (operation r) "put" then
    match putObject m (bucket r) (key r) (value r) (options r) with
    | (Ok e, m') => (Ok [EtagEntry (bucket r) (key r) e], m')
    | (Err e, m') => (Err e, m')
    | (Throw w, m') => (Throw w, m')
    end
  else if String.eqb (operation r) "delete" then
    match delObject m (bucket r) (key r) with
    | (Ok _, m') => (Ok [], m')
    | (Err e, m') => (Err e, m')
    | (Throw w, m') => (Throw w, m')
    end
  else (Err (MorayError "NotImplementedError"), m).

Fixpoint apply_requests (rs : list request) (m : moray)
    : result (list etag_entry) * moray :=
  match rs with
  | [] => (Ok [], m)
  | r :: rs' =>
      match apply_request r m with
      | (Ok es, m') =>
          match apply_requests rs' m' with
          | (Ok es', m'') => (Ok (es ++ es'), m'')
          | failed => failed
          end
      | failed => failed
      end
  end.

(** Modelled from the spec: [batch(requests)] applies the requests in the
    order given; every request is applied, or none is. *)
Definition batch (m : moray) (rs : list request)
    : result (list etag_entry) * moray :=
  match apply_requests rs m with
  | (Ok es, m') => (Ok es, m')
  | (failed, _) => (failed, m)
  end.

End Moray.

Import Moray.

(** ** What the engine takes from modules outside this development

    [constants], [util/ip], [util/common], the NIC bucket description and
    the network model are used by the code below but are not part of it. *)

Class Externals := {
  (** [constants.UFDS_ADMIN_UUID], set from the configuration *)
  UFDS_ADMIN_UUID : string;
  (** [constants.POOL_TAGS_MATCH_MSG] *)
  POOL_TAGS_MATCH_MSG : string;
  (** [require('./bucket').BUCKET.name] of the NIC model *)
  NIC_BUCKET_name : string;
  (** [util_ip.toIPAddr(v)]: the address [v] stands for, or [null] *)
  toIPAddr : jsval → option ipaddr;
  (** an address object is returned as it is *)
  toIPAddr_addr : ∀ a, toIPAddr (VAddr a) = Some a;
  (** [util_common.arrayify(list)] *)
  arrayify : jsval → list jsval;
  (** [util_common.hashEmpty(v)]: does [v] have no property to iterate
      over? *)
  hashEmpty : jsval → bool;
  hashEmpty_empty : hashEmpty (VObj []) = true;
  hashEmpty_property : ∀ k v o, hashEmpty (VObj ((k, v) :: o)) = false;
  (** [util_common.getEtag(etags, bucket, key)] *)
  getEtag : list etag_entry → string → string → jsval;
  (** [mod_net.get(app, log, { uuid: uuid }, cb)]: the network object with
      that UUID, read from the store, or an error *)
  net_get : moray → jsval → result jsval
}.

(** ** [lib/apis/moray.js]: convenience wrappers around the store *)

Module MorayApi.

(** A bucket schema object: [{ desc, name, schema: { index: {...} } }],
    with the names of its indexed fields. *)
Record bucket_obj := Bucket {
  desc : string;
  name : string;
  index : list string
}.

(** [bucket && !bucket.schema.index.hasOwnProperty(i)] *)
Definition not_indexed (bucket : option bucket_obj) (i : string) : bool :=
  match bucket with
  | Some b => negb (bool_decide (i ∈ index b))
  | None => false
  end.

(** [s.split(',')] *)
Fixpoint split_on (c : Ascii.ascii) (s : string) : list string :=
  match s with
  | EmptyString => [EmptyString]
  | String x s' =>
      if Ascii.eqb x c then EmptyString :: split_on c s'
      else match split_on c s' with
           | h :: t => String x h :: t
           | [] => [String x EmptyString]
           end
  end.

(** The white space at the start, or at the end, of a string.  White
    space is that of ASCII: the characters outside ASCII that [\s] also
    matches (U+00A0, U+FEFF and others) are not taken off, and what is
    proved of the pieces is proved of ASCII text. *)
Fixpoint lstrip (s : string) : string :=
  match s with
  | String x s' => if Ascii.is_space x then lstrip s' else s
  | EmptyString => EmptyString
  end.

Definition rstrip (s : string) : string := String.rev (lstrip (String.rev s)).

(** [s.split(/\s*,\s*/)]: the pieces between commas, without the white
    space that touches a comma. *)
Definition split_commas (s : string) : list string :=
  let pieces := split_on ","%char s in
  imap (λ i p,
          let p := if decide (i = 0%nat) then p else lstrip p in
          if decide (S i = length pieces) then p else rstrip p)
       pieces.

(** One element [inObj[i][j]] of a list of alternatives:
    [(!(i=rest))] when it starts with [!], [(i=elem)] otherwise.  Only a
    string has [substr]. *)
Definition alternative (i : string) (e : jsval) : result string :=
  match e with
  | VStr (String "!"%char rest) => Ok ("(!(" +:+ i +:+ "=" +:+ rest +:+ "))")
  | VStr s => Ok ("(" +:+ i +:+ "=" +:+ s +:+ ")")
  | _ => Throw "TypeError: substr is not a function"
  end.

(** The body of the [reduce] over [Object.keys(inObj)]. *)
Definition filterBy_step (inObj : props) (bucket : option bucket_obj)
    (arr : list string) (i : string) : result (list string) :=
  if not_indexed bucket i then Ok arr
  else
    let v :=
      match get inObj i with
      | VStr s =>
          if negb (indexOf s "," =? -1) then VArr (VStr <$> split_commas s)
          else VStr s
      | v => v
      end in
    if String.eqb (typeof v) "object" then
      alts ← mapM (alternative i) (enumerable v).*2;
      Ok (arr ++ ["(|"] ++ alts ++ [")"])
    else Ok (arr ++ ["(" +:+ i +:+ "=" +:+ to_str v +:+ ")"]).

(** [ldapFilter(inObj, bucket)].  The test on [inObj.filter] is written
    as in the source: [typeof] is applied to the comparison
    [inObj.filter === 'string']. *)
Definition ldapFilter `{Externals} (inObj : jsval)
    (bucket : option bucket_obj) : result jsval :=
  if negb (truthy inObj) then Ok (VStr EmptyString)
  else if String.eqb (typeof inObj) "string" then Ok inObj
  else if hashEmpty inObj then Ok (VStr EmptyString)
  else if hasOwnProperty (enumerable inObj) "filter"
          && truthy (VStr (typeof (VBool
               (strict_eq (get (enumerable inObj) "filter")
                          (VStr "string")))))
  then Ok (get (enumerable inObj) "filter")
  else
    filterBy ← foldl (λ acc i, arr ← acc;
                                 filterBy_step (enumerable inObj) bucket arr i)
                     (Ok []) (keys (enumerable inObj));
    let filterBy :=
      if decide (1 < length filterBy)%nat
      then ["(&"] ++ filterBy ++ [")"] else filterBy in
    Ok (VStr (String.concat EmptyString filterBy)).

(** [delObj(moray, bucket, key, callback)] *)
Definition delObj (m : moray) (bucket : bucket_obj) (key : string)
    : result unit * moray :=
  match delObject m (name bucket) key with
  | (Err err, m') =>
      if String.eqb (err_name err) "ObjectNotFoundError"
      then (Err (ResourceNotFoundError (desc bucket +:+ " not found")), m')
      else (Err err, m')
  | other => other
  end.

(** [getObj(moray, bucket, key, callback)] *)
Definition getObj (m : moray) (bucket : bucket_obj) (key : string)
    : result row :=
  match getObject m (name bucket) key with
  | Err err =>
      if String.eqb (err_name err) "ObjectNotFoundError"
      then Err (ResourceNotFoundError (desc bucket +:+ " not found"))
      else Err err
  | other => other
  end.

(** The options of [updateObj]: bucket, key, [remove], [replace], [val]. *)
Record update_opts := UpdateOpts {
  u_bucket : bucket_obj;
  u_key : string;
  u_remove : jsval;
  u_replace : jsval;
  u_val : props
}.

(** [for (var k in opts.val)]: remove the keys of [val] from the stored
    value, or copy them into it. *)
Definition merge_val (remove : jsval) (val stored : props) : props :=
  foldl (λ acc k, if truthy remove then del acc k
                  else JS.set acc k (get val k))
        stored (keys val).

(** [updateObj(opts, callback)].  The record handed to the callback has
    the form of a [getObject] result; with [replace] it has no etag. *)
Definition updateObj (opts : update_opts) (m : moray)
    : result row * moray :=
  if truthy (u_replace opts) then
    match putObject m (name (u_bucket opts)) (u_key opts) (u_val opts) None
    with
    | (Ok _, m') => (Ok (Row (u_val opts) VUndefined), m')
    | (Err e, m') => (Err e, m')
    | (Throw w, m') => (Throw w, m')
    end
  else
    match getObj m (u_bucket opts) (u_key opts) with
    | Ok res =>
        let value' := merge_val (u_remove opts) (u_val opts) (row_value res) in
        match putObject m (name (u_bucket opts)) (u_key opts) value' None
        with
        | (Ok _, m') => (Ok (Row value' (_etag res)), m')
        | (Err e, m') => (Err e, m')
        | (Throw w, m') => (Throw w, m')
        end
    | Err e => (Err e, m)
    | Throw w => (Throw w, m)
    end.

End MorayApi.

Import MorayApi.

(** ** [lib/models/nic/common.js]: ordering and committing a batch *)

Module NicCommon.

(** [compareRequests(a, b)]: buckets in descending order, then keys in
    ascending order. *)
Definition compareRequests (a b : request) : Z :=
  if str_lt (bucket a) (bucket b) then 1
  else if str_lt (bucket b) (bucket a) then -1
  else if str_lt (key a) (key b) then -1
  else if str_lt (key b) (key a) then 1
  else 0.

(** The [forEach] of [commitBatch]: requests on buckets without
    ['portolan'] in their name go to [nbatch], the others to [pbatch]. *)
Definition split_batch (batch : list request)
    : list request * list request :=
  foldl (λ '(nbatch, pbatch) r,
           if indexOf (bucket r) "portolan" =? -1
           then (nbatch ++ [r], pbatch)
           else (nbatch, pbatch ++ [r]))
        ([], []) batch.

(** The batch as it is sent to the store:
    [nbatch.sort(compareRequests); batch = nbatch.concat(pbatch)]. *)
Definition ordered_batch (batch : list request) : list request :=
  let '(nbatch, pbatch) := split_batch batch in
  Array_sort compareRequests nbatch ++ pbatch.

(** The NIC whose etag [commitBatch] refreshes: [opts.nic], with
    [mac.toLong()] and [etag]. *)
Record nic := Nic { mac : Z; nic_etag : jsval }.

(** [commitBatch(opts, callback)], with [opts.batch] and [opts.nic]. *)
Definition commitBatch `{Externals} (batch : list request)
    (opts_nic : option nic) (m : moray) : result (option nic) * moray :=
  match Moray.batch m (ordered_batch batch) with
  | (Ok etags, m') =>
      (Ok ((λ n, Nic (mac n)
                     (getEtag etags NIC_BUCKET_name (pretty (mac n))))
           <$> opts_nic),
       m')
  | (Err err, m') => (Err err, m')
  | (Throw w, m') => (Throw w, m')
  end.

End NicCommon.

Import NicCommon.

(** ** [lib/models/ip/common.js]: one IP address of a network *)

Module IPCommon.

(** The bucket description shared by all IP buckets; the name is per
    network. *)
Definition BUCKET_desc : string := "IP".
Definition BUCKET_index : list string :=
  ["belongs_to_type"; "belongs_to_uuid"; "owner_uuid"; "ip"; "ipaddr";
   "reserved"; "v"].
Definition BUCKET_version : Z := 2.

Definition OPTIONAL_PARAMS : list string :=
  ["belongs_to_type"; "belongs_to_uuid"; "owner_uuid"].

(** An [IP] object: [this.params], [this.etag], [this.use_strings]. *)
Record IP := MkIP {
  params : props;
  etag : jsval;
  use_strings : jsval
}.

(** [assert.object(v)]: an object that is not [null]. *)
Definition is_object (v : jsval) : bool :=
  String.eqb (typeof v) "object" && negb (strict_eq v VNull).

(** What [util_ip.toIPAddr] returns, as a value. *)
Definition addr_val (a : option ipaddr) : jsval :=
  match a with Some a => VAddr a | None => VNull end.

(** [new IP(params)] *)
Definition new_IP `{Externals} (params : props) : result IP :=
  if negb (is_object (get params "network")) then
    Throw "AssertionError: params.network (object) is required"
  else if negb (String.eqb (typeof (get params "network_uuid")) "string") then
    Throw "AssertionError: params.network_uuid (string) is required"
  else
    let ip :=
      if truthy (get params "ipaddr")
      then addr_val (toIPAddr (get params "ipaddr"))
      else addr_val (toIPAddr (get params "ip")) in
    let params1 := JS.set params "ip" ip in
    if negb (truthy ip) then Throw "AssertionError: params.ip"
    else
      let params2 :=
        if hasOwnProperty params1 "reserved"
           && negb (String.eqb (typeof (get params1 "reserved")) "boolean")
        then JS.set params1 "reserved"
               (VBool (strict_eq (get params1 "reserved") (VStr "true")))
        else params1 in
      Ok {| params := params2;
            etag := if hasOwnProperty params2 "etag"
                    then get params2 "etag" else VNull;
            use_strings :=
              or_else (get params2 "use_strings")
                      (and_then (get params2 "network")
                         (member (get params2 "network") "ip_use_strings"))
         |}.

(** The setter [ip.reserved = r] *)
Definition set_reserved (self : IP) (r : jsval) : IP :=
  MkIP (JS.set (params self) "reserved" r) (etag self) (use_strings self).

(** [getIPKey(use_strings, ipaddr)] *)
Definition getIPKey (use_strings : jsval) (ipaddr : jsval) : result string :=
  match ipaddr with
  | VAddr a =>
      if negb (truthy use_strings) then Ok (pretty (toLong a))
      else Ok (toString a)
  | _ => Throw "TypeError: not an address"
  end.

(** [bucketName(networkUUID)]: ['napi_ips_' + networkUUID] with every
    dash replaced by an underscore. *)
Definition bucketName (networkUUID : jsval) : result string :=
  match networkUUID with
  | VStr u => Ok ("napi_ips_" +:+ replace_all "-" "_" u)
  | _ => Throw "TypeError: replace is not a function"
  end.

(** [getBucketObj(networkUUID)] *)
Definition getBucketObj (networkUUID : jsval) : result bucket_obj :=
  n ← bucketName networkUUID;
  Ok (Bucket BUCKET_desc n BUCKET_index).

(** [ip.key()] *)
Definition key (self : IP) : result string :=
  getIPKey (use_strings self) (get (params self) "ip").

(** The [forEach] over [OPTIONAL_PARAMS] of [raw]: copy the ones the
    parameters have. *)
Definition copy_optional (ps : props) (into : props) : props :=
  foldl (λ acc param,
           if hasOwnProperty ps param then JS.set acc param (get ps param)
           else acc)
        into OPTIONAL_PARAMS.

(** [ip.raw()]: the form stored in the bucket. *)
Definition raw (self : IP) : result props :=
  match get (params self) "ip" with
  | VAddr a =>
      let raw0 := [("reserved", VBool (truthy (get (params self) "reserved")));
                   ("use_strings", use_strings self)] in
      let raw1 :=
        if truthy (use_strings self)
        then JS.set (JS.set raw0 "ipaddr" (VStr (toString a)))
                    "v" (VNum BUCKET_version)
        else JS.set raw0 "ip" (VNum (toLong a)) in
      Ok (copy_optional (params self) raw1)
  | _ => Throw "TypeError: not an address"
  end.

(** [ip.batch()]: the put of this address, for a batch. *)
Definition batch (self : IP) : result request :=
  b ← bucketName (get (params self) "network_uuid");
  k ← key self;
  v ← raw self;
  Ok (Request b k "put" v (Some (etag self))).

(** [ip.unassignBatch()]: the put that takes this address from its NIC. *)
Definition unassignBatch (self : IP) : result request :=
  batchObj ← batch self;
  let value0 := value batchObj in
  let value1 :=
    if negb (truthy (get (params self) "reserved"))
    then del value0 "owner_uuid" else value0 in
  let value2 := del value1 "belongs_to_type" in
  let value3 := del value2 "belongs_to_uuid" in
  Ok (Request (bucket batchObj) (Moray.key batchObj) (operation batchObj)
              value3 (options batchObj)).

(** [ip.provisionable()] *)
Definition provisionable `{Externals} (self : IP) : bool :=
  if negb (truthy (get (params self) "belongs_to_uuid"))
     || negb (truthy (get (params self) "belongs_to_type"))
  then true
  else if strict_eq (get (params self) "belongs_to_type") (VStr "other")
          && strict_eq (get (params self) "belongs_to_uuid")
                       (VStr UFDS_ADMIN_UUID)
  then true
  else false.

(** The [forEach] over [OPTIONAL_PARAMS] of [serialize]: copy the ones
    the parameters have, and mark the address as not free. *)
Definition serialize_optional (ps : props) (ser : props) : props :=
  foldl (λ acc param,
           if hasOwnProperty ps param
           then JS.set (JS.set acc param (get ps param)) "free" (VBool false)
           else acc)
        ser OPTIONAL_PARAMS.

(** [ip.serialize()]: the form given to API clients. *)
Definition serialize (self : IP) : result props :=
  match get (params self) "ip" with
  | VAddr a =>
      network_uuid ← member_of (get (params self) "network") "uuid";
      let reserved := truthy (get (params self) "reserved") in
      Ok (serialize_optional (params self)
            [("ip", VStr (toString a));
             ("network_uuid", network_uuid);
             ("reserved", VBool (if reserved then true else false));
             ("free", VBool (if reserved then false else true))])
  | _ => Throw "TypeError: not an address"
  end.

End IPCommon.

Import IPCommon.

(** ** [lib/models/ip/index.js]: reading and writing IP addresses

    [validate.params] is not part of this development: [createIP] and
    [updateIP] take what it calls back with (an error, or the validated
    parameters) as an argument. *)

Module IPModel.

(** [getIP(opts, callback)], with [opts.params] and [opts.returnObject]. *)
Definition getIP `{Externals} (params : props) (returnObject : jsval)
    (m : moray) : result IP :=
  match toIPAddr (get params "ip") with
  | None =>
      Err (InvalidArgumentError ("Invalid IP " +:+ to_str (get params "ip")))
  | Some ip =>
      ipBucket ← getBucketObj (get params "network_uuid");
      use_strings ← member_of (get params "network") "ip_use_strings";
      key ← getIPKey use_strings (VAddr ip);
      match getObj m ipBucket key with
      | Err err =>
          if bool_decide (statusCode err = Some 404) then
            if truthy returnObject then
              new_IP [("etag", VNull);
                      ("free", VBool true);
                      ("ip", VAddr ip);
                      ("network", get params "network");
                      ("network_uuid", get params "network_uuid");
                      ("reserved", VBool false)]
            else Err (ResourceNotFoundError "IP not found")
          else Err err
      | Ok rec =>
          let value1 := JS.set (row_value rec) "network" (get params "network") in
          let value2 := JS.set value1 "network_uuid" (get params "network_uuid") in
          let value3 := JS.set value2 "etag" (_etag rec) in
          new_IP value3
      | Throw w => Throw w
      end
  end.

(** What [updateIP] hands to [updateObj]: the validated parameters, or,
    when unassigning, the two belongs-to keys to remove; never the
    network object. *)
Definition update_val (validatedParams : props) : props * jsval :=
  let '(val, remove) :=
    if truthy (get validatedParams "unassign")
    then ([("belongs_to_type", VBool true); ("belongs_to_uuid", VBool true)],
          VBool true)
    else (validatedParams, VUndefined) in
  (del val "network", remove).

(** [updateIP(opts, callback)], with [opts.params], [opts.existingIP] and
    the outcome of [validate.params]. *)
Definition updateIP `{Externals} (params : props) (existingIP : IP)
    (validation : result props) (m : moray) : result IP * moray :=
  match toIPAddr (get params "ip") with
  | None =>
      (Err (InvalidArgumentError
              ("Invalid IP " +:+ dquote +:+ to_str (get params "ip") +:+ dquote)), m)
  | Some ip =>
      match
        validatedParams ← validation;
        use_strings ← member_of (get validatedParams "network") "ip_use_strings";
        key ← getIPKey use_strings (VAddr ip);
        bucket ← getBucketObj (get params "network_uuid");
        _ ← raw existingIP;
        let '(val, remove) := update_val validatedParams in
        Ok (UpdateOpts bucket key remove VUndefined val)
      with
      | Ok updateOpts =>
          match updateObj updateOpts m with
          | (Ok rec, m') =>
              let value1 := JS.set (row_value rec) "network" (get params "network") in
              let value2 := JS.set value1 "network_uuid" (get params "network_uuid") in
              (new_IP value2, m')
          | (Err err, m') => (Err err, m')
          | (Throw w, m') => (Throw w, m')
          end
      | Err err => (Err err, m)
      | Throw w => (Throw w, m)
      end
  end.

(** [createIP(opts, callback)], from the outcome of [validate.params]. *)
Definition createIP `{Externals} (validation : result props) (m : moray)
    : result IP * moray :=
  match validation with
  | Ok validated =>
      match new_IP validated with
      | Ok ip =>
          match
            key ← key ip;
            network_uuid ← member_of (get validated "network") "uuid";
            ipBucket ← getBucketObj network_uuid;
            value ← raw ip;
            Ok (ipBucket, key, value)
          with
          | Ok (ipBucket, key, value) =>
              match putObject m (name ipBucket) key value (Some VNull) with
              | (Ok res_etag, m') =>
                  (Ok (MkIP (params ip) res_etag (use_strings ip)), m')
              | (Err err, m') => (Err err, m')
              | (Throw w, m') => (Throw w, m')
              end
          | Err err => (Err err, m)
          | Throw w => (Throw w, m)
          end
      | Throw w => (Err (Caught w), m)
      | Err err => (Err err, m)
      end
  | Err validationErr => (Err validationErr, m)
  | Throw w => (Throw w, m)
  end.

(** The [map] of [batchCreateIPs]: one IP object and one put per element
    of [params.batch]. *)
Definition batchData `{Externals} (bucket : bucket_obj)
    (batch : list props) : result (list (IP * request)) :=
  mapM (λ ipParams,
          ip ← new_IP ipParams;
          key ← key ip;
          value ← raw ip;
          Ok (ip, Request (name bucket) key "put" value None))
       batch.

(** [batchCreateIPs(app, log, params, callback)], with
    [params.network_uuid] and [params.batch]. *)
Definition batchCreateIPs `{Externals} (network_uuid : jsval)
    (batch : list props) (m : moray) : result (list IP) * moray :=
  match bucket ← getBucketObj network_uuid; batchData bucket batch with
  | Ok data =>
      match Moray.batch m data.*2 with
      | (Ok _, m') => (Ok data.*1, m')
      | (Err err, m') => (Err err, m')
      | (Throw w, m') => (Throw w, m')
      end
  | Err err => (Err err, m)
  | Throw w => (Throw w, m)
  end.

(** The record [deleteIP] writes over the row: [reserved: false] and the
    address, under the name the network's bucket uses. *)
Definition deleted_val (use_strings : jsval) (ip : ipaddr) : props :=
  let val := [("reserved", VBool false)] in
  if truthy use_strings then JS.set val "ipaddr" (VStr (toString ip))
  else JS.set val "ip" (VNum (toLong ip)).

(** [deleteIP(opts, callback)], with [opts.params] and
    [opts.existingIP]. *)
Definition deleteIP `{Externals} (params : props) (existingIP : IP)
    (m : moray) : result IP * moray :=
  match toIPAddr (get params "ip") with
  | None =>
      (Err (InvalidArgumentError
              ("Invalid IP " +:+ dquote +:+ to_str (get params "ip") +:+ dquote)), m)
  | Some ip =>
      match
        use_strings ← member_of (get params "network") "ip_use_strings";
        network_uuid ← member_of (get params "network") "uuid";
        bucket ← bucketName network_uuid;
        key ← getIPKey use_strings (VAddr ip);
        Ok (use_strings, network_uuid, bucket, key)
      with
      | Ok (use_strings, network_uuid, bucket, key) =>
          let val := deleted_val use_strings ip in
          match putObject m bucket key val (Some (etag existingIP)) with
          | (Ok res_etag, m') =>
              let val1 := JS.set val "etag" res_etag in
              let val2 := JS.set val1 "network" (get params "network") in
              let val3 := JS.set val2 "network_uuid" network_uuid in
              (new_IP val3, m')
          | (Err err, m') => (Err err, m')
          | (Throw w, m') => (Throw w, m')
          end
      | Err err => (Err err, m)
      | Throw w => (Throw w, m)
      end
  end.

End IPModel.

Import IPModel.

(** ** [lib/models/network-pool.js]: the member networks of a pool *)

Module NetworkPool.

Definition MAX_NETS : Z := 64.

(** The variables the lookups of [validateNetworks] share. *)
Record progress := Progress {
  nets : list jsval;
  notFound : list jsval;
  tag : jsval;
  tagsNotMatching : list jsval;
  validated : list jsval
}.

Definition start : progress := Progress [] [] VUndefined [] [].

(** The callback of [mod_net.get] for one UUID, given what the lookup
    answered. *)
Definition _validateNetworkUUID (uuid : jsval) (answer : result jsval)
    (st : progress) : result progress :=
  match answer with
  | Ok res =>
      if negb (truthy res) then
        Ok (Progress (nets st) (notFound st ++ [uuid]) (tag st)
                     (tagsNotMatching st) (validated st))
      else
        nic_tag ← member_of (member res "params") "nic_tag";
        let tag1 :=
          if strict_eq (tag st) VUndefined then nic_tag else tag st in
        if negb (loose_eq nic_tag tag1) then
          Ok (Progress (nets st) (notFound st) tag1
                       (tagsNotMatching st ++ [uuid]) (validated st))
        else
          Ok (Progress (nets st ++ [res]) (notFound st) tag1
                       (tagsNotMatching st) (validated st ++ [uuid]))
  | Err _ =>
      Ok (Progress (nets st) (notFound st ++ [uuid]) (tag st)
                   (tagsNotMatching st) (validated st))
  | Throw w => Throw w
  end.

(** The final callback of [vasync.forEachParallel]. *)
Definition finish `{Externals} (name : string) (st : progress)
    : result props :=
  if negb (bool_decide (length (notFound st) = 0%nat)) then
    Err (InvalidParam name
           ("unknown network"
            +:+ (if bool_decide (length (notFound st) = 1%nat)
                 then EmptyString else "s"))
           (Some (notFound st)))
  else if negb (bool_decide (length (tagsNotMatching st) = 0%nat)) then
    Err (invalidParam name POOL_TAGS_MATCH_MSG)
  else
    Ok (JS.set [("_networks", VArr (nets st))] name (VArr (validated st))).

(** [validateNetworks(app, log, name, list, callback)].

    [vasync.forEachParallel] starts one lookup per UUID, in the order of
    the list, and the lookups may answer in any order: [answered] is the
    order in which they do.  The second component is the list of UUIDs
    for which a lookup was started. *)
Definition validateNetworks `{Externals} (m : moray) (name : string)
    (list : jsval) (answered : Datatypes.list jsval)
    : result props * Datatypes.list jsval :=
  let uuids := arrayify list in
  if MAX_NETS <? Z.of_nat (length uuids) then
    (Err (invalidParam name
            ("maximum " +:+ pretty MAX_NETS
             +:+ " networks per network pool")), [])
  else
    (st ← foldl (λ acc uuid,
                   st ← acc; _validateNetworkUUID uuid (net_get m uuid) st)
                (Ok start) answered;
     finish name st,
     uuids).

End NetworkPool.

Import NetworkPool.

(** ** The vocabulary of the properties *)

(** [s] contains [sub]: some text, then [sub], then some text. *)
Definition contains (s sub : string) : Prop :=
  ∃ pre post, s = pre +:+ sub +:+ post.

(** A request on an event-sink bucket, as [commitBatch] tests it. *)
Definition on_portolan (r : request) : Prop :=
  indexOf (bucket r) "portolan" ≠ -1.

#[global] Instance on_portolan_dec (r : request) : Decision (on_portolan r) :=
  decide (indexOf (bucket r) "portolan" ≠ -1).

(** The order of the topology requests: buckets descending, and keys
    ascending inside one bucket. *)
Definition commit_before (a b : request) : Prop :=
  str_lt (bucket b) (bucket a) = true
  ∨ (bucket a = bucket b ∧ String.le (Moray.key a) (Moray.key b)).

(** What the constructor establishes and every method relies on:
    [params.ip] is an address object, [params.network] is an object and
    [params.network_uuid] is a string. *)
Definition IP_wf (self : IP) : Prop :=
  (∃ a, get (params self) "ip" = VAddr a)
  ∧ is_object (get (params self) "network") = true
  ∧ (∃ u, get (params self) "network_uuid" = VStr u).

(** A field the record does not have: it is absent, or what it holds
    counts as false ([undefined], [null], the empty string, ...). *)
Definition lacks (self : IP) (k : string) : Prop :=
  truthy (get (params self) k) = false.

(** A put that expects no etag. *)
Definition plain_put (r : request) : Prop :=
  operation r = "put" ∧ options r = None.

(** ** A small deployment, to run the engine on *)

Module Fixture.

(** The dotted form of an IPv4 address given as a number. *)
Definition dotted (n : Z) : string :=
  pretty (n / 16777216) +:+ "." +:+ pretty (n / 65536 mod 256) +:+ "."
  +:+ pretty (n / 256 mod 256) +:+ "." +:+ pretty (n mod 256).

Definition ipv4 (n : Z) : ipaddr := IPAddr n (dotted n).

(** Addresses are given as address objects or as numbers. *)
Definition parse (v : jsval) : option ipaddr :=
  match v with
  | VAddr a => Some a
  | VNum n => if bool_decide (0 ≤ n < 4294967296) then Some (ipv4 n) else None
  | _ => None
  end.

Definition find_etag (etags : list etag_entry) (b k : string) : jsval :=
  match filter (λ e, e_bucket e = b ∧ e_key e = k) etags with
  | e :: _ => e_etag e
  | [] => VUndefined
  end.

(** Networks are the rows of the bucket [napi_networks]. *)
Definition lookup_network (m : moray) (uuid : jsval) : result jsval :=
  match uuid with
  | VStr u =>
      match objects m !! ("napi_networks", u) with
      | Some r => Ok (VObj [("uuid", VStr u); ("params", VObj (row_value r))])
      | None => Err (ResourceNotFoundError "network not found")
      end
  | _ => Err (ResourceNotFoundError "network not found")
  end.

Definition externals : Externals := {|
  UFDS_ADMIN_UUID := "930896af-bf8c-48d4-885c-6573a94b1853";
  POOL_TAGS_MATCH_MSG := "nic tags of the networks of a pool must match";
  NIC_BUCKET_name := "napi_nics";
  toIPAddr := parse;
  toIPAddr_addr := λ a, eq_refl;
  arrayify := λ v, match v with VArr l => l | _ => [] end;
  hashEmpty := λ v, match enumerable v with [] => true | _ => false end;
  hashEmpty_empty := eq_refl;
  hashEmpty_property := λ k v o, eq_refl;
  getEtag := find_etag;
  net_get := lookup_network
|}.

(** A network, the address 10.0.0.57 on it, and the workload and owner
    that hold the address. *)
Definition net1_uuid : string := "1e7bb0e1-25a9-43b6-bb19-f79ae9540b39".
Definition zone_uuid : string := "564d69b1-a178-07fe-b36f-dfe5fa3602e2".
Definition owner : string := "b2a1b0f5-5d6c-4c2c-9a1b-0a2c3d4e5f60".

Definition net1 : jsval :=
  VObj [("uuid", VStr net1_uuid);
        ("ip_use_strings", VBool false);
        ("params", VObj [("nic_tag", VStr "external")])].

Definition addr57 : ipaddr := ipv4 167772217.

Definition net1_bucket : string :=
  "napi_ips_1e7bb0e1_25a9_43b6_bb19_f79ae9540b39".

(** The stored row of 10.0.0.57, assigned to a zone and not reserved. *)
Definition assigned_value : props :=
  [("reserved", VBool false);
   ("use_strings", VBool false);
   ("ip", VNum 167772217);
   ("belongs_to_type", VStr "zone");
   ("belongs_to_uuid", VStr zone_uuid);
   ("owner_uuid", VStr owner)].

Definition store_assigned : moray :=
  Store {[ (net1_bucket, "167772217") := Row assigned_value (VStr "0") ]} 1.

Definition empty_store : moray := Store ∅ 0.

(** The parameters of a request on 10.0.0.57. *)
Definition request57 : props :=
  [("ip", VAddr addr57); ("network", net1); ("network_uuid", VStr net1_uuid)].

(** The same request, asking to unassign the address, and what
    [validate.params] makes of it. *)
Definition unassign57 : props := request57 ++ [("unassign", VBool true)].

Definition validated_unassign57 : props :=
  [("unassign", VBool true); ("network", net1)].

(** The address as [getIP] builds it from the stored row. *)
Definition assigned_ip : IP :=
  MkIP [("reserved", VBool false);
        ("use_strings", VBool false);
        ("ip", VAddr addr57);
        ("belongs_to_type", VStr "zone");
        ("belongs_to_uuid", VStr zone_uuid);
        ("owner_uuid", VStr owner);
        ("network", net1);
        ("network_uuid", VStr net1_uuid);
        ("etag", VStr "0")]
       (VStr "0") (VBool false).

(** The address as [new IP] builds it from the request, and its stored
    form. *)
Definition requested_ip : IP := MkIP request57 VNull (VBool false).

Definition requested_raw : props :=
  [("reserved", VBool false); ("use_strings", VBool false);
   ("ip", VNum 167772217)].

(** Two networks with different NIC tags. *)
Definition netA_uuid : string := "0a6d3c5e-9c0f-4e3b-8a51-3f6b1f2f7a01".
Definition netB_uuid : string := "7c2f9b1d-4d3e-4f6a-9e77-5b8c2d1e6f02".

Definition store_two_nets : moray :=
  Store {[ ("napi_networks", netA_uuid)
             := Row [("nic_tag", VStr "external")] (VStr "0");
           ("napi_networks", netB_uuid)
             := Row [("nic_tag", VStr "admin")] (VStr "1") ]} 2.

End Fixture.

(** * More of the engine *)

(** ** Constants and methods from modules outside this development

    The messages of [constants], and [network.isOwner] of the network
    model, are used by the functions below but are not part of them. *)

Class Constants := {
  (** [constants.OWNER_MATCH_MSG] *)
  OWNER_MATCH_MSG : string;
  (** [constants.POOL_OWNER_MATCH_MSG] *)
  POOL_OWNER_MATCH_MSG : string;
  (** [util.format(constants.fmt.NIC_TAGS_DIFFER, a, b)] *)
  NIC_TAGS_DIFFER : jsval → jsval → string;
  (** [util.format(constants.fmt.VLAN_IDS_DIFFER, a, b)] *)
  VLAN_IDS_DIFFER : jsval → jsval → string;
  (** [network.isOwner(uuid)] *)
  isOwner : jsval → jsval → bool
}.

(** ** [lib/models/nic/common.js]: checks of a NIC against its network *)

Module NicValidate.

(** [badOwnerUUID(parsedParams, network)] *)
Definition badOwnerUUID `{Constants} (parsedParams : props)
    (network : jsval) : bool :=
  let check_owner :=
    if negb (hasOwnProperty parsedParams "check_owner") then VBool true
    else get parsedParams "check_owner" in
  if hasOwnProperty parsedParams "owner_uuid"
     && truthy check_owner
     && negb (isOwner network (get parsedParams "owner_uuid"))
  then true
  else false.

(** [checkNetwork(parsedParams, name, network)]: the error it returns, or
    [null], and [parsedParams] as it leaves them. *)
Definition checkNetwork `{Constants} (parsedParams : props) (name : string)
    (network : jsval) : result (option error * props) :=
  if negb (is_object network) then
    Throw "AssertionError: network (object) is required"
  else if badOwnerUUID parsedParams network then
    Ok (Some (invalidParam "owner_uuid" OWNER_MATCH_MSG), parsedParams)
  else
    nic_tag_step ←
      (if strict_eq (get parsedParams "nic_tag") VUndefined then
         if negb (String.eqb (typeof (member network "nic_tag")) "string")
         then Throw "AssertionError: networks should have a nic_tag"
         else Ok (None,
                  JS.set parsedParams "nic_tag" (member network "nic_tag"))
       else if negb (strict_eq (get parsedParams "nic_tag")
                       (member network "nic_tag"))
       then Ok (Some (invalidParam name
                        (NIC_TAGS_DIFFER (get parsedParams "nic_tag")
                           (member network "nic_tag"))),
                parsedParams)
       else Ok (None, parsedParams));
    match nic_tag_step with
    | (Some err, parsedParams1) => Ok (Some err, parsedParams1)
    | (None, parsedParams1) =>
        vlan_id ← member_of (member network "params") "vlan_id";
        if strict_eq (get parsedParams1 "vlan_id") VUndefined then
          if negb (String.eqb (typeof vlan_id) "number")
          then Throw "AssertionError: networks should have a vlan_id"
          else Ok (None, JS.set parsedParams1 "vlan_id" vlan_id)
        else if negb (strict_eq (get parsedParams1 "vlan_id") vlan_id)
        then Ok (Some (invalidParam name
                         (VLAN_IDS_DIFFER (get parsedParams1 "vlan_id")
                            vlan_id)),
                 parsedParams1)
        else Ok (None, parsedParams1)
    end.

(** [acc[name] = true] on the plain object [acc]: the name [__proto__]
    stands for the prototype, and assigning [true] to it does nothing;
    any other name becomes a property. *)
Definition mark (acc : props) (name : string) : props :=
  if String.eqb name "__proto__" then acc else JS.set acc name (VBool true).

(** The [reduce] of [listVnetCns]: [acc[cn.cn_uuid] = true] for every
    element of [cns]. *)
Definition mark_cns (cns : list jsval) : result props :=
  foldl (λ acc cn,
           acc ← acc;
           cn_uuid ← member_of cn "cn_uuid";
           Ok (mark acc (to_str cn_uuid)))
        (Ok []) cns.

(** [listVnetCns(opts, callback)], from what
    [mod_portolan_moray.vl2LookupCns] calls back with. *)
Definition listVnetCns (lookup : result (list jsval)) : result (list string) :=
  match lookup with
  | Ok cns => acc ← mark_cns cns; Ok (keys acc)
  | Err listErr => Err listErr
  | Throw w => Throw w
  end.

End NicValidate.

(** ** [lib/models/ip/index.js]: parameters of an IP *)

Module IPParams.

Definition CREATE_PARAMS : list string :=
  ["belongs_to_type"; "belongs_to_uuid"; "check_owner"; "ip"; "network";
   "network_uuid"; "owner_uuid"; "reserved"].

Definition NIC_SHARED_PARAMS : list string :=
  ["belongs_to_type"; "belongs_to_uuid"; "check_owner"; "owner_uuid";
   "reserved"].

Definition OWNING_FIELDS : list string :=
  ["belongs_to_uuid"; "belongs_to_type"; "owner_uuid"].

(** [errors.missingParam(field)] *)
Inductive missing_param : Type := missingParam (field : string).

(** [_requireOwningInfo], the first [after] check of [CREATE_SCHEMA]: the
    errors it calls back with (none when it calls back without
    argument). *)
Definition _requireOwningInfo (validated : props) : list missing_param :=
  if hasOwnProperty validated "belongs_to_uuid"
     || hasOwnProperty validated "belongs_to_type"
  then
    foldl (λ errs field,
             if negb (hasOwnProperty validated field)
             then errs ++ [missingParam field] else errs)
          [] OWNING_FIELDS
  else [].

(** [validateNetworkObj(_, name, net, callback)] *)
Definition validateNetworkObj (name : string) (net : jsval) : result jsval :=
  if negb (truthy net) || negb (String.eqb (typeof net) "object")
  then Err (invalidParam name "could not find network")
  else Ok net.

(** [validateNetworkOwner(_opts, _, validated, callback)] *)
Definition validateNetworkOwner `{Constants} (validated : props)
    : option error :=
  if negb (truthy (get validated "network")) then None
  else if truthy (get validated "owner_uuid")
          && (negb (hasOwnProperty validated "check_owner")
              || truthy (get validated "check_owner"))
          && negb (isOwner (get validated "network")
                     (get validated "owner_uuid"))
  then Some (invalidParam "owner_uuid" OWNER_MATCH_MSG)
  else None.

(** [extractParams(params, override)]; [override] is [None] when it is
    not given. *)
Definition extractParams (params : props) (override : option props)
    : props :=
  let override := match override with Some o => o | None => [] end in
  foldl (λ newParams s,
           let newParams1 :=
             if hasOwnProperty params s
             then JS.set newParams s (get params s) else newParams in
           if hasOwnProperty override s
           then JS.set newParams1 s (get override s) else newParams1)
        [] CREATE_PARAMS.

(** [createUpdatedObject(oldIP, params)] *)
Definition createUpdatedObject `{Externals} (oldIP : IP) (params : props)
    : result IP :=
  updatedIpParams ← serialize oldIP;
  let updatedIpParams1 :=
    foldl (λ acc p,
             if hasOwnProperty params p then JS.set acc p (get params p)
             else acc)
          updatedIpParams NIC_SHARED_PARAMS in
  let updatedIpParams2 := JS.set updatedIpParams1 "etag" (etag oldIP) in
  let updatedIpParams3 :=
    JS.set updatedIpParams2 "network" (get (IPCommon.params oldIP) "network") in
  new_IP updatedIpParams3.

End IPParams.

(** ** [lib/models/network-pool.js]: the pool object and its store calls

    [validate.params] is not part of this development: the functions take
    what it calls back with as an argument.  [UUID.v4()] is random: the
    UUID it would return is an argument too. *)

Module PoolModel.

Definition BUCKET : bucket_obj :=
  Bucket "network pool" "napi_network_pools" ["uuid"].

(** The own properties of a value on which [hasOwnProperty] is called:
    [undefined] and [null] have no methods. *)
Definition own_props (v : jsval) : result props :=
  match v with
  | VUndefined | VNull =>
      Throw "TypeError: cannot read property hasOwnProperty"
  | _ => Ok (enumerable v)
  end.

(** The body of the [forEach] of [validateNetworkOwners]. *)
Definition owner_step `{Externals} (parsed : props)
    (notMatching : list jsval) (net : jsval) : result (list jsval) :=
  net_params ← member_of net "params";
  net_props ← own_props net_params;
  if hasOwnProperty net_props "owner_uuid"
     && negb (strict_eq (get net_props "owner_uuid") (get parsed "owner_uuid"))
     && negb (strict_eq (get net_props "owner_uuid") (VStr UFDS_ADMIN_UUID))
  then Ok (notMatching ++ [member net "uuid"])
  else Ok notMatching.

(** [validateNetworkOwners(original, parsed, callback)] *)
Definition validateNetworkOwners `{Externals} `{Constants} (parsed : props)
    : result unit :=
  if negb (truthy (get parsed "owner_uuid"))
     || negb (truthy (get parsed "_networks"))
  then Ok ()
  else
    match get parsed "_networks" with
    | VArr [] => Ok ()
    | VArr nets =>
        notMatching ← foldl (λ acc net, acc ← acc; owner_step parsed acc net)
                            (Ok []) nets;
        if negb (bool_decide (length notMatching = 0%nat)) then
          Err (InvalidParam "networks" POOL_OWNER_MATCH_MSG (Some notMatching))
        else Ok ()
    | _ => Throw "TypeError: forEach is not a function"
    end.

(** A [NetworkPool] object: [this.params]. *)
Record pool := MkPool { params : props }.

(** [new NetworkPool(params)]; [fresh] is what [UUID.v4()] would return. *)
Definition new_NetworkPool `{Externals} (fresh : string) (params : props)
    : result pool :=
  let params1 := del params "nic_tag" in
  params2 ←
    match get params1 "_networks" with
    | VArr (first :: _) =>
        first_params ← member_of first "params";
        nic_tag ← member_of first_params "nic_tag";
        Ok (del (JS.set params1 "nic_tag" nic_tag) "_networks")
    | _ => Ok params1
    end;
  let params3 :=
    if negb (truthy (get params2 "uuid"))
    then JS.set params2 "uuid" (VStr fresh) else params2 in
  let params4 :=
    if hasOwnProperty params3 "networks"
    then JS.set params3 "networks" (VArr (arrayify (get params3 "networks")))
    else params3 in
  Ok (MkPool params4).

(** The comparison [Array.prototype.sort()] makes without a comparator:
    [undefined] goes last, the other values are ordered by the code units
    of [String(v)]. *)
Definition default_compare (a b : jsval) : Z :=
  match a, b with
  | VUndefined, VUndefined => 0
  | VUndefined, _ => 1
  | _, VUndefined => -1
  | _, _ =>
      if str_lt (to_str a) (to_str b) then -1
      else if str_lt (to_str b) (to_str a) then 1
      else 0
  end.

(** [pool.raw()]: the form stored in the bucket.  [sort()] sorts
    [this.params.networks] in place: the pool is returned as [raw] leaves
    it. *)
Definition raw (self : pool) : result (props * pool) :=
  match get (params self) "networks" with
  | VArr networks =>
      let sorted := Array_sort default_compare networks in
      let ser := [("uuid", get (params self) "uuid");
                  ("name", get (params self) "name");
                  ("networks", VArr sorted)] in
      let ser1 :=
        if hasOwnProperty (params self) "owner_uuid"
        then JS.set ser "owner_uuid" (get (params self) "owner_uuid")
        else ser in
      Ok (ser1, MkPool (JS.set (params self) "networks" (VArr sorted)))
  | _ => Throw "TypeError: sort is not a function"
  end.

(** [pool.serialize()]: the form given to API clients. *)
Definition serialize (self : pool) : result (props * pool) :=
  '(ser, self1) ← raw self;
  if hasOwnProperty (params self1) "nic_tag"
  then Ok (JS.set ser "nic_tag" (get (params self1) "nic_tag"), self1)
  else Ok (ser, self1).

(** A key handed to the store client must be a string. *)
Definition store_key (v : jsval) : result string :=
  match v with
  | VStr k => Ok k
  | _ => Throw "AssertionError: key (string) is required"
  end.

(** [createNetworkPool(app, log, params, callback)], from the outcome of
    [validate.params]. *)
Definition createNetworkPool `{Externals} (fresh : string)
    (validation : result props) (m : moray) : result pool * moray :=
  match validation with
  | Ok validatedParams =>
      match
        pool ← new_NetworkPool fresh validatedParams;
        key ← store_key (get (params pool) "uuid");
        '(value, pool1) ← raw pool;
        Ok (key, value, pool1)
      with
      | Ok (key, value, pool1) =>
          match putObject m (name BUCKET) key value None with
          | (Ok _, m') => (Ok pool1, m')
          | (Err err2, m') => (Err err2, m')
          | (Throw w, m') => (Throw w, m')
          end
      | Err err => (Err err, m)
      | Throw w => (Throw w, m)
      end
  | Err err => (Err err, m)
  | Throw w => (Throw w, m)
  end.

(** [getNetworkPool(app, log, params, callback)]; [validation] is the
    error [validate.params] calls back with, if any. *)
Definition getNetworkPool `{Externals} (fresh : string) (params : props)
    (validation : option error) (m : moray) : result pool :=
  match validation with
  | Some err => Err err
  | None =>
      key ← store_key (get params "uuid");
      match getObj m BUCKET key with
      | Ok rec =>
          let netUUIDs := get (row_value rec) "networks" in
          if negb (truthy netUUIDs) then new_NetworkPool fresh (row_value rec)
          else
            match arrayify netUUIDs with
            | [] => new_NetworkPool fresh (row_value rec)
            | first :: _ =>
                match net_get m first with
                | Ok res =>
                    new_NetworkPool fresh
                      (JS.set (row_value rec) "_networks" (VArr [res]))
                | Err err3 => Err err3
                | Throw w => Throw w
                end
            end
      | Err err2 => Err err2
      | Throw w => Throw w
      end
  end.

(** [deleteNetworkPool(app, log, params, callback)] *)
Definition deleteNetworkPool (params : props) (validation : option error)
    (m : moray) : result unit * moray :=
  match validation with
  | Some err => (Err err, m)
  | None =>
      match store_key (get params "uuid") with
      | Ok key => delObject m (name BUCKET) key
      | Err err => (Err err, m)
      | Throw w => (Throw w, m)
      end
  end.

End PoolModel.

(** ** Vocabulary for the pool properties *)

(** A network with an owner that is neither [owner] nor the
    administrator. *)
Definition other_owner `{Externals} (owner net : jsval) : bool :=
  match own (enumerable (member net "params")) "owner_uuid" with
  | Some o =>
      negb (strict_eq o owner) && negb (strict_eq o (VStr UFDS_ADMIN_UUID))
  | None => false
  end.

(** A UUID for which the lookup of the network answers with an error or
    with nothing. *)
Definition unknown_network `{Externals} (m : moray) (uuid : jsval) : bool :=
  match net_get m uuid with
  | Ok res => negb (truthy res)
  | Err _ => true
  | Throw _ => false
  end.

(** ** Vocabulary for the filter properties *)

(** The white space of ASCII: space, tab, line feed, vertical tab, form
    feed and carriage return.  On a text of ASCII characters this is all
    that [\s] matches. *)
Definition white_space : list Ascii.ascii :=
  [" "; "009"; "010"; "011"; "012"; "013"]%char.

Definition is_white (c : Ascii.ascii) : bool :=
  existsb (Ascii.eqb c) white_space.

(** Every character of [s] passes the test [P]. *)
Fixpoint every (P : Ascii.ascii → bool) (s : string) : bool :=
  match s with
  | EmptyString => true
  | String c s' => P c && every P s'
  end.

(** A text of ASCII characters. *)
Definition ascii_text (s : string) : bool :=
  every (λ c, (Ascii.nat_of_ascii c <? 128)%nat) s.

(** A string of white space only, and a string without a comma. *)
Definition white (s : string) : bool := every is_white s.

Definition no_comma (s : string) : bool :=
  every (λ c, negb (Ascii.eqb c ",")) s.

(** A string that does not start, or does not end, with white space. *)
Definition starts_bare (s : string) : bool :=
  match s with
  | String c _ => negb (is_white c)
  | EmptyString => true
  end.

Definition ends_bare (s : string) : bool := starts_bare (String.rev s).

(** Pieces written one after the other with a comma between them: each
    of [rest] gives the white space before the comma, the white space
    after it, and the piece that follows. *)
Fixpoint comma_join (first : string) (rest : list (string * string * string))
    : string :=
  match rest with
  | [] => first
  | (before, after, piece) :: rest' =>
      first +:+ before +:+ "," +:+ after +:+ comma_join piece rest'
  end.

(** The pieces have no comma, what is around a comma is white space, and
    no piece has white space of its own next to a comma. *)
Fixpoint comma_separated (first : string)
    (rest : list (string * string * string)) : bool :=
  no_comma first
  && match rest with
     | [] => true
     | (before, after, piece) :: rest' =>
         ends_bare first && white before && white after
         && starts_bare piece && comma_separated piece rest'
     end.

(** ** More of the small deployment *)

Module Samples.

(** The messages, and a network model in which a network without
    [owner_uuid] is open to everyone. *)
Definition constants : Constants := {|
  OWNER_MATCH_MSG := "owner cannot provision on network";
  POOL_OWNER_MATCH_MSG := "networks must be owned by the pool owner";
  NIC_TAGS_DIFFER := λ a b,
    "nic tags differ: " +:+ to_str a +:+ ", " +:+ to_str b;
  VLAN_IDS_DIFFER := λ a b,
    "vlan ids differ: " +:+ to_str a +:+ ", " +:+ to_str b;
  isOwner := λ network uuid,
    match member (member network "params") "owner_uuid" with
    | VUndefined => true
    | o => strict_eq o uuid
    end
|}.

(** Addresses are also given in dotted form; the deployment knows the
    dotted form of 10.0.0.57. *)
Definition parse (v : jsval) : option ipaddr :=
  match v with
  | VStr s =>
      if String.eqb s (toString Fixture.addr57) then Some Fixture.addr57
      else None
  | _ => Fixture.parse v
  end.

Definition externals : Externals := {|
  UFDS_ADMIN_UUID := "930896af-bf8c-48d4-885c-6573a94b1853";
  POOL_TAGS_MATCH_MSG := "nic tags of the networks of a pool must match";
  NIC_BUCKET_name := "napi_nics";
  toIPAddr := parse;
  toIPAddr_addr := λ a, eq_refl;
  arrayify := λ v, match v with VArr l => l | _ => [] end;
  hashEmpty := λ v, match enumerable v with [] => true | _ => false end;
  hashEmpty_empty := eq_refl;
  hashEmpty_property := λ k v o, eq_refl;
  getEtag := Fixture.find_etag;
  net_get := Fixture.lookup_network
|}.

(** The assigned address, with the owner check switched off. *)
Definition unchecked_ip : IP :=
  MkIP (IPCommon.params Fixture.assigned_ip ++ [("check_owner", VBool false)])
       (VStr "0") (VBool false).

(** A put of a NIC and a put of an address, for one batch. *)
Definition put_nic : request :=
  Request "napi_nics" "90b8d0575370" "put" [("mac", VNum 159123438854000)]
          None.

Definition put_ip : request :=
  Request Fixture.net1_bucket "167772217" "put" Fixture.requested_raw
          (Some VNull).

(** The serialized form of the free address 10.0.0.57. *)
Definition free_ser : props :=
  [("ip", VStr (toString Fixture.addr57));
   ("network_uuid", VStr Fixture.net1_uuid);
   ("reserved", VBool false);
   ("free", VBool true)].

(** A network as the NIC checks see it, and a NIC on it without tag and
    VLAN ID, before and after the check. *)
Definition tagged_net : jsval :=
  VObj [("uuid", VStr Fixture.net1_uuid);
        ("nic_tag", VStr "external");
        ("params", VObj [("nic_tag", VStr "external");
                         ("vlan_id", VNum 46)])].

Definition nic_params : props := [("owner_uuid", VStr Fixture.owner)].

Definition nic_checked : props :=
  [("owner_uuid", VStr Fixture.owner);
   ("nic_tag", VStr "external");
   ("vlan_id", VNum 46)].

(** Records of the servers on a virtual network: one server has two
    NICs on it. *)
Definition cn1_uuid : string := "44454c4c-4800-1034-804a-b2c04f354d31".
Definition cn2_uuid : string := "44454c4c-5700-1056-8033-b3c04f4e3432".

Definition vnet_cns : list jsval :=
  [VObj [("cn_uuid", VStr cn1_uuid)];
   VObj [("cn_uuid", VStr cn2_uuid)];
   VObj [("cn_uuid", VStr cn1_uuid)]].

(** The networks of [Fixture.store_two_nets], as the lookup gives
    them. *)
Definition netA : jsval :=
  VObj [("uuid", VStr Fixture.netA_uuid);
        ("params", VObj [("nic_tag", VStr "external")])].

(** A network of another owner. *)
Definition other : string := "c3b2a190-6e7d-4f5a-8b9c-1d2e3f4a5b6c".

Definition netC : jsval :=
  VObj [("uuid", VStr Fixture.netB_uuid);
        ("params", VObj [("nic_tag", VStr "external");
                         ("owner_uuid", VStr other)])].

(** The validated parameters of a pool, with and without the network
    objects, and the pool made of them. *)
Definition pool_uuid : string := "3f1c6a2e-8b7d-4c5e-9a0f-6d5e4c3b2a19".

Definition pool_params : props :=
  [("name", VStr "pool1");
   ("networks", VArr [VStr Fixture.netB_uuid; VStr Fixture.netA_uuid]);
   ("uuid", VStr pool_uuid);
   ("nic_tag", VStr "internal")].

Definition pool_params_nets : props :=
  pool_params ++ [("_networks", VArr [netA])].

Definition pool1 : PoolModel.pool :=
  PoolModel.MkPool
    [("name", VStr "pool1");
     ("networks", VArr [VStr Fixture.netB_uuid; VStr Fixture.netA_uuid]);
     ("uuid", VStr pool_uuid)].

(** The same pool with its networks given in the other order. *)
Definition pool1_swapped : PoolModel.pool :=
  PoolModel.MkPool
    [("name", VStr "pool1");
     ("networks", VArr [VStr Fixture.netA_uuid; VStr Fixture.netB_uuid]);
     ("uuid", VStr pool_uuid)].

(** The parameters of a pool with an owner, after the lookups. *)
Definition owned_pool_params : props :=
  [("name", VStr "pool2");
   ("owner_uuid", VStr Fixture.owner);
   ("networks", VArr [VStr Fixture.netA_uuid; VStr Fixture.netB_uuid]);
   ("_networks", VArr [netA; netC])].

End Samples.

(** * Properties *)

(** ** Strings: the order on code units and substrings *)

Lemma compare_refl (s : string) : String.compare s s = Eq.
Proof.
  pose proof (String.compare_antisym s s) as H.
  destruct (String.compare s s); simpl in H; congruence.
Qed.

Lemma str_lt_le (a b : string) : str_lt a b = true ↔ String.le a b ∧ a ≠ b.
Proof.
  unfold str_lt, String.ltb, String.le, String.leb.
  destruct (String.compare a b) eqn:E; simpl.
  - apply String.compare_eq_iff in E. subst. split; [done | intros [_ ?]; done].
  - split; [intros _ | done]. split; [done |].
    intros ->. rewrite compare_refl in E. done.
  - split; [done | intros [? _]; done].
Qed.

Lemma str_lt_irrefl (a : string) : str_lt a a = false.
Proof.
  destruct (str_lt a a) eqn:E; [| done].
  apply str_lt_le in E as [_ ?]. done.
Qed.

Lemma str_lt_trans (a b c : string) :
  str_lt a b = true → str_lt b c = true → str_lt a c = true.
Proof.
  rewrite !str_lt_le. intros [Hab Nab] [Hbc Nbc]. split.
  - by transitivity b.
  - intros ->. apply Nab. by apply (anti_symm String.le).
Qed.

Lemma str_lt_trichotomy (a b : string) :
  (str_lt a b = true ∧ str_lt b a = false)
  ∨ (a = b ∧ str_lt a b = false ∧ str_lt b a = false)
  ∨ (str_lt b a = true ∧ str_lt a b = false).
Proof.
  destruct (decide (a = b)) as [-> | Hne].
  { right; left. by rewrite str_lt_irrefl. }
  destruct (total String.le a b) as [Hle | Hle].
  - left. split; [by apply str_lt_le |].
    destruct (str_lt b a) eqn:E; [| done].
    apply str_lt_le in E as [Hba _]. destruct Hne. by apply (anti_symm String.le).
  - right; right. split; [apply str_lt_le; split; [done | congruence] |].
    destruct (str_lt a b) eqn:E; [| done].
    apply str_lt_le in E as [Hab _]. destruct Hne. by apply (anti_symm String.le).
Qed.

Lemma str_le_lt (a b : string) : String.le a b ↔ a = b ∨ str_lt a b = true.
Proof.
  rewrite str_lt_le. split.
  - intros H. destruct (decide (a = b)); [by left | by right].
  - intros [-> | [? _]]; [reflexivity | done].
Qed.

Lemma substring_prefix (m : nat) (s : string) :
  ∃ post, s = String.substring 0 m s +:+ post.
Proof.
  revert s. induction m as [| m IH]; intros s.
  - exists s. by destruct s.
  - destruct s as [| c s]; simpl.
    + by exists EmptyString.
    + destruct (IH s) as [post Hpost]. exists post.
      unfold String.app in *. simpl. by rewrite <- Hpost.
Qed.

Lemma substring_contains (n m : nat) (s : string) :
  contains s (String.substring n m s).
Proof.
  revert s. induction n as [| n IH]; intros s.
  - destruct (substring_prefix m s) as [post Hpost].
    by exists EmptyString, post.
  - destruct s as [| c s].
    + exists EmptyString, EmptyString. by destruct m.
    + destruct (IH s) as (pre & post & Hs).
      exists (String c pre), post. simpl.
      unfold String.app in *. simpl. by rewrite <- Hs.
Qed.

Lemma substring_app_prefix (sub post : string) :
  String.substring 0 (String.length sub) (sub +:+ post) = sub.
Proof.
  induction sub as [| c sub IH]; simpl.
  - by destruct (EmptyString +:+ post).
  - unfold String.app in *. simpl. by rewrite IH.
Qed.

Lemma substring_app_middle (pre sub post : string) :
  String.substring (String.length pre) (String.length sub)
    (pre +:+ sub +:+ post) = sub.
Proof.
  induction pre as [| c pre IH].
  - exact (substring_app_prefix sub post).
  - exact IH.
Qed.

Lemma indexOf_contains (s sub : string) :
  sub ≠ EmptyString → indexOf s sub ≠ -1 ↔ contains s sub.
Proof.
  intros Hsub. unfold indexOf.
  destruct (String.index 0 sub s) as [m |] eqn:E.
  - split; [intros _ | lia].
    apply String.index_correct1 in E. rewrite <- E.
    apply substring_contains.
  - split; [done |]. intros (pre & post & ->).
    exfalso.
    apply (String.index_correct3 0 (String.length pre) _ _ E Hsub); [lia |].
    apply substring_app_middle.
Qed.

(** ** [commitBatch]: the order of the committed batch *)

Lemma compareRequests_before (a b : request) :
  sorts_before compareRequests a b ↔ commit_before a b.
Proof.
  unfold sorts_before, compareRequests, commit_before.
  destruct (str_lt_trichotomy (bucket a) (bucket b))
    as [[Ha Hb] | [(Heq & Ha & Hb) | [Hb Ha]]]; rewrite Ha, Hb.
  - split; [lia |]. intros [? | [Heq _]]; [done |].
    rewrite Heq, str_lt_irrefl in Ha. done.
  - rewrite str_le_lt.
    destruct (str_lt_trichotomy (Moray.key a) (Moray.key b))
      as [[Ka Kb] | [(Keq & Ka & Kb) | [Kb Ka]]]; rewrite Ka, ?Kb.
    + split; [intros _; right; auto | lia].
    + split; [intros _; right; auto | lia].
    + split; [lia |]. intros [? | [_ [Keq | ?]]]; [done | | done].
      rewrite Keq, str_lt_irrefl in Kb. done.
  - split; [auto | lia].
Qed.

#[global] Instance commit_before_trans : Transitive commit_before.
Proof.
  intros a b c [Hab | [Hab Kab]] [Hbc | [Hbc Kbc]]; unfold commit_before.
  - left. by apply (str_lt_trans _ (bucket b)).
  - left. by rewrite <- Hbc.
  - left. by rewrite Hab.
  - right. split; [congruence | by transitivity (Moray.key b)].
Qed.

#[global] Instance commit_before_total : Total commit_before.
Proof.
  intros a b. unfold commit_before.
  destruct (str_lt_trichotomy (bucket a) (bucket b))
    as [[H _] | [(Hb & _ & _) | [H _]]]; [by right; left | | by left; left].
  destruct (total String.le (Moray.key a) (Moray.key b)); [left | right]; right; done.
Qed.

#[global] Instance sorts_before_compareRequests_trans :
  Transitive (sorts_before compareRequests).
Proof.
  intros a b c. rewrite !compareRequests_before. apply transitivity.
Qed.

#[global] Instance sorts_before_compareRequests_total :
  Total (sorts_before compareRequests).
Proof.
  intros a b. rewrite !compareRequests_before. apply total, _.
Qed.

Lemma StronglySorted_weaken {A} (R S : relation A) (l : list A) :
  (∀ a b, R a b → S a b) → StronglySorted R l → StronglySorted S l.
Proof.
  intros HRS. induction 1 as [| a l Hl IH Ha]; constructor; [done |].
  eapply Forall_impl; [exact Ha | auto].
Qed.

Lemma split_batch_from (batch nbatch pbatch : list request) :
  foldl (λ '(nbatch, pbatch) r,
           if indexOf (bucket r) "portolan" =? -1
           then (nbatch ++ [r], pbatch)
           else (nbatch, pbatch ++ [r]))
        (nbatch, pbatch) batch
  = (nbatch ++ filter (λ r, ¬ on_portolan r) batch,
     pbatch ++ filter on_portolan batch).
Proof.
  revert nbatch pbatch.
  induction batch as [| r batch IH]; intros nbatch pbatch; simpl.
  - by rewrite !app_nil_r.
  - destruct (Z.eqb_spec (indexOf (bucket r) "portolan") (-1)) as [E | E];
      rewrite IH.
    + rewrite filter_cons_True by (intros ?; done).
      rewrite filter_cons_False by (intros ?; done).
      by rewrite <- app_assoc.
    + rewrite filter_cons_False by (intros H; by apply H).
      rewrite filter_cons_True by done.
      by rewrite <- app_assoc.
Qed.

Lemma split_batch_filter (batch : list request) :
  split_batch batch
  = (filter (λ r, ¬ on_portolan r) batch, filter on_portolan batch).
Proof. apply (split_batch_from batch [] []). Qed.

Example ordered_batch_nic_delete :
  (λ r, (bucket r, Moray.key r))
  <$> ordered_batch
        [Request "portolan_underlay_mappings" "b" "delete" [] None;
         Request "napi_ips_6e1d" "10" "put" [] None;
         Request "napi_nics" "90b8d0c0ffee" "delete" [] None;
         Request "portolan_overlay_mappings" "a" "delete" [] None;
         Request "napi_ips_6e1d" "9" "put" [] None;
         Request "napi_networks" "6e1d" "put" [] None]
  = [("napi_nics", "90b8d0c0ffee");
     ("napi_networks", "6e1d");
     ("napi_ips_6e1d", "10");
     ("napi_ips_6e1d", "9");
     ("portolan_underlay_mappings", "b");
     ("portolan_overlay_mappings", "a")].
Proof. reflexivity. Qed.

(** C1: the batch [commitBatch] hands to the store is the topology
    requests (those whose bucket name does not contain ['portolan']),
    sorted by bucket name descending and, inside a bucket, by key
    ascending, followed by the event-sink requests in the order in which
    they were submitted. *)
Theorem commitBatch_order `{Externals} (batch : list request) :
  ∃ topology,
    (∀ opts_nic m,
       (commitBatch batch opts_nic m).2
       = (Moray.batch m (topology ++ filter on_portolan batch)).2)
    ∧ ordered_batch batch = topology ++ filter on_portolan batch
    ∧ topology ≡ₚ filter (λ r, ¬ on_portolan r) batch
    ∧ StronglySorted commit_before topology
    ∧ (∀ r, on_portolan r ↔ contains (bucket r) "portolan").
Proof.
  exists (Array_sort compareRequests (filter (λ r, ¬ on_portolan r) batch)).
  assert (ordered_batch batch
          = Array_sort compareRequests (filter (λ r, ¬ on_portolan r) batch)
            ++ filter on_portolan batch) as Hordered.
  { unfold ordered_batch. by rewrite split_batch_filter. }
  split_and!.
  - intros opts_nic m. unfold commitBatch. rewrite Hordered.
    by destruct (Moray.batch m _) as [[etags | err | w] m'].
  - done.
  - apply merge_sort_Permutation.
  - apply (StronglySorted_weaken (sorts_before compareRequests)).
    + intros a b. apply compareRequests_before.
    + apply (StronglySorted_merge_sort _).
  - intros r. by apply indexOf_contains.
Qed.

(** ** Objects: reading after writing *)

Lemma own_set_eq (o : props) (k : string) (v : jsval) :
  own (JS.set o k v) k = Some v.
Proof.
  induction o as [| [k' v'] o IH]; simpl.
  - by rewrite String.eqb_refl.
  - destruct (String.eqb_spec k' k) as [-> | Hne]; simpl.
    + by rewrite String.eqb_refl.
    + by destruct (String.eqb_spec k' k).
Qed.

Lemma own_set_ne (o : props) (k k' : string) (v : jsval) :
  k ≠ k' → own (JS.set o k v) k' = own o k'.
Proof.
  intros Hne. induction o as [| [k0 v0] o IH]; simpl.
  - by destruct (String.eqb_spec k k').
  - destruct (String.eqb_spec k0 k) as [-> | Hk0]; simpl.
    + by destruct (String.eqb_spec k k').
    + by rewrite IH.
Qed.

Lemma own_del_eq (o : props) (k : string) : own (del o k) k = None.
Proof.
  induction o as [| [k' v'] o IH]; simpl; [done |].
  destruct (String.eqb_spec k' k) as [-> | Hne]; simpl; [done |].
  by destruct (String.eqb_spec k' k).
Qed.

Lemma own_del_ne (o : props) (k k' : string) :
  k ≠ k' → own (del o k) k' = own o k'.
Proof.
  intros Hne. induction o as [| [k0 v0] o IH]; simpl; [done |].
  destruct (String.eqb_spec k0 k) as [-> | Hk0]; simpl.
  - rewrite IH. by destruct (String.eqb_spec k k').
  - by rewrite IH.
Qed.

Lemma get_set_eq (o : props) (k : string) (v : jsval) :
  get (JS.set o k v) k = v.
Proof. unfold get. by rewrite own_set_eq. Qed.

Lemma get_set_ne (o : props) (k k' : string) (v : jsval) :
  k ≠ k' → get (JS.set o k v) k' = get o k'.
Proof. intros. unfold get. by rewrite own_set_ne. Qed.

Lemma hasOwnProperty_own (o : props) (k : string) :
  hasOwnProperty o k = false ↔ own o k = None.
Proof. unfold hasOwnProperty. by destruct (own o k). Qed.

Lemma strict_eq_str (v : jsval) (s : string) :
  strict_eq v (VStr s) = true ↔ v = VStr s.
Proof.
  destruct v; simpl; try (split; congruence).
  destruct (String.eqb_spec s0 s); split; congruence.
Qed.

(** ** The IP object *)

Lemma typeof_string (v : jsval) :
  String.eqb (typeof v) "string" = true → ∃ s, v = VStr s.
Proof. destruct v; simpl; try done. by eexists. Qed.

Lemma new_IP_wf `{Externals} (ps : props) (self : IP) :
  new_IP ps = Ok self → IP_wf self.
Proof.
  unfold new_IP.
  destruct (is_object (get ps "network")) eqn:Hnet; simpl; [| done].
  destruct (String.eqb (typeof (get ps "network_uuid")) "string") eqn:Hu;
    simpl; [| done].
  apply typeof_string in Hu as [u Hu].
  set (ip := if truthy (get ps "ipaddr") then _ else _).
  destruct (truthy ip) eqn:Hip; simpl; [| done].
  assert (∃ a, ip = VAddr a) as [a Ha].
  { subst ip. destruct (truthy (get ps "ipaddr"));
      match goal with |- context [toIPAddr ?v] =>
        destruct (toIPAddr v); simpl in *; [by eexists | done] end. }
  intros [= <-]. simpl.
  assert (∀ k, k ≠ "reserved" →
            get (if hasOwnProperty (JS.set ps "ip" ip) "reserved"
                    && negb (String.eqb
                               (typeof (get (JS.set ps "ip" ip) "reserved"))
                               "boolean")
                 then JS.set (JS.set ps "ip" ip) "reserved"
                        (VBool (strict_eq (get (JS.set ps "ip" ip) "reserved")
                                          (VStr "true")))
                 else JS.set ps "ip" ip) k
            = get (JS.set ps "ip" ip) k) as Hget.
  { intros k Hk. destruct (_ && _); [| done]. by rewrite get_set_ne. }
  unfold IP_wf; simpl. rewrite !Hget by done.
  rewrite get_set_eq, !get_set_ne by done. eauto.
Qed.

Lemma set_reserved_wf (self : IP) (r : jsval) :
  IP_wf self → IP_wf (set_reserved self r).
Proof.
  unfold IP_wf, set_reserved; simpl. by rewrite !get_set_ne.
Qed.

Lemma is_object_member_of (v : jsval) (k : string) :
  is_object v = true → member_of v k = Ok (member v k).
Proof. by destruct v. Qed.

(** C2: the serialized form of an IP has [free = true] exactly when none
    of [belongs_to_type], [belongs_to_uuid], [owner_uuid] is present and
    [reserved] is not set; it always has [ip], [network_uuid], [reserved]
    and [free]. *)
Theorem serialize_free (self : IP) :
  IP_wf self →
  ∃ ser a free,
    serialize self = Ok ser
    ∧ get (params self) "ip" = VAddr a
    ∧ own ser "free" = Some (VBool free)
    ∧ (free = true ↔
         hasOwnProperty (params self) "belongs_to_type" = false
         ∧ hasOwnProperty (params self) "belongs_to_uuid" = false
         ∧ hasOwnProperty (params self) "owner_uuid" = false
         ∧ truthy (get (params self) "reserved") = false)
    ∧ own ser "ip" = Some (VStr (toString a))
    ∧ own ser "network_uuid"
      = Some (member (get (params self) "network") "uuid")
    ∧ own ser "reserved"
      = Some (VBool (truthy (get (params self) "reserved"))).
Proof.
  intros ([a Ha] & Hnet & _). unfold serialize.
  rewrite Ha, (is_object_member_of _ _ Hnet). simpl.
  unfold serialize_optional, OPTIONAL_PARAMS. simpl.
  destruct (hasOwnProperty (params self) "belongs_to_type"),
           (hasOwnProperty (params self) "belongs_to_uuid"),
           (hasOwnProperty (params self) "owner_uuid"),
           (truthy (get (params self) "reserved"));
    simpl; eexists _, a, _.
  all: split_and!; try reflexivity; intuition congruence.
Qed.

Lemma serialize_free_witness :
  IP_wf Fixture.assigned_ip
  ∧ ∃ ser a free,
      serialize Fixture.assigned_ip = Ok ser
      ∧ get (IPCommon.params Fixture.assigned_ip) "ip" = VAddr a
      ∧ own ser "free" = Some (VBool free)
      ∧ (free = true ↔
           hasOwnProperty (IPCommon.params Fixture.assigned_ip)
             "belongs_to_type" = false
           ∧ hasOwnProperty (IPCommon.params Fixture.assigned_ip)
               "belongs_to_uuid" = false
           ∧ hasOwnProperty (IPCommon.params Fixture.assigned_ip)
               "owner_uuid" = false
           ∧ truthy (get (IPCommon.params Fixture.assigned_ip) "reserved")
             = false)
      ∧ own ser "ip" = Some (VStr (toString a))
      ∧ own ser "network_uuid"
        = Some (member (get (IPCommon.params Fixture.assigned_ip) "network")
                  "uuid")
      ∧ own ser "reserved"
        = Some (VBool (truthy (get (IPCommon.params Fixture.assigned_ip)
                                 "reserved"))).
Proof.
  assert (IP_wf Fixture.assigned_ip) as Hwf.
  { split_and!; [by eexists | done | by eexists]. }
  split; [exact Hwf | exact (serialize_free Fixture.assigned_ip Hwf)].
Defined.

(** C3: [provisionable()] is true exactly when the record lacks
    [belongs_to_uuid] or lacks [belongs_to_type], or [belongs_to_type] is
    ['other'] and [belongs_to_uuid] is the UFDS admin UUID. *)
Theorem provisionable_iff `{Externals} (self : IP) :
  provisionable self = true ↔
    lacks self "belongs_to_uuid"
    ∨ lacks self "belongs_to_type"
    ∨ (get (params self) "belongs_to_type" = VStr "other"
       ∧ get (params self) "belongs_to_uuid" = VStr UFDS_ADMIN_UUID).
Proof.
  unfold provisionable, lacks.
  destruct (truthy (get (params self) "belongs_to_uuid")); simpl; [| tauto].
  destruct (truthy (get (params self) "belongs_to_type")); simpl; [| tauto].
  rewrite <- !strict_eq_str.
  destruct (strict_eq (get (params self) "belongs_to_type") (VStr "other"));
    destruct (strict_eq (get (params self) "belongs_to_uuid")
                (VStr UFDS_ADMIN_UUID));
    simpl; intuition congruence.
Qed.

(** On a record whose belongs-to fields, when present, hold non-empty
    strings (what [validate.string] and [validate.UUID] let through), a
    field is lacking exactly when it is absent. *)
Lemma lacks_absent (self : IP) (k : string) :
  (∀ v, own (params self) k = Some v → ∃ s, v = VStr s ∧ s ≠ EmptyString) →
  lacks self k ↔ own (params self) k = None.
Proof.
  intros Hstr. unfold lacks, get.
  destruct (own (params self) k) as [v |] eqn:E; [| done].
  destruct (Hstr v eq_refl) as (s & -> & Hs). simpl.
  destruct (String.eqb_spec s EmptyString); split; done.
Qed.

(** ** Unassigning an address *)

(** Reading and writing the properties of an object whose property names
    are known. *)
Ltac js_props :=
  cbv [get own hasOwnProperty JS.set del String.eqb Ascii.eqb Bool.eqb].

Lemma bind_Ok {A B} (a : A) (k : A → result B) : Ok a ≫= k = k a.
Proof. reflexivity. Qed.

Lemma raw_wf (self : IP) : IP_wf self → ∃ v, raw self = Ok v.
Proof. intros ([a Ha] & _). unfold raw. rewrite Ha. eauto. Qed.

Lemma batch_wf (self : IP) :
  IP_wf self →
  ∃ b k v, bucketName (get (params self) "network_uuid") = Ok b
           ∧ IPCommon.key self = Ok k
           ∧ raw self = Ok v
           ∧ IPCommon.batch self = Ok (Request b k "put" v (Some (etag self))).
Proof.
  intros Hwf. destruct (raw_wf self Hwf) as [v Hv].
  destruct Hwf as ([a Ha] & _ & [u Hu]).
  unfold IPCommon.batch, IPCommon.key, getIPKey. rewrite Ha, Hu, Hv. simpl.
  destruct (truthy (use_strings self)); simpl; eauto 10.
Qed.

(** What [unassignBatch] does to the stored form of an address. *)
Lemma unassignBatch_value (self : IP) :
  IP_wf self →
  ∃ req,
    unassignBatch self = Ok req
    ∧ operation req = "put"
    ∧ options req = Some (etag self)
    ∧ own (value req) "belongs_to_type" = None
    ∧ own (value req) "belongs_to_uuid" = None
    ∧ (truthy (get (params self) "reserved") = false →
         own (value req) "owner_uuid" = None
         ∧ own (value req) "reserved" = Some (VBool false))
    ∧ (truthy (get (params self) "reserved") = true →
         own (value req) "owner_uuid" = own (params self) "owner_uuid"
         ∧ own (value req) "reserved" = Some (VBool true)).
Proof.
  intros Hwf. destruct (batch_wf self Hwf) as (b & k & v & Hb & Hk & Hv & Hbatch).
  unfold unassignBatch. rewrite Hbatch. simpl. eexists. split; [reflexivity |].
  simpl. split_and!; try done.
  - rewrite own_del_ne by done. apply own_del_eq.
  - apply own_del_eq.
  - intros Hres. rewrite Hres. simpl.
    rewrite !own_del_ne by done. rewrite own_del_eq. split; [done |].
    rewrite own_del_ne by done.
    destruct Hwf as ([a Ha] & _). unfold raw in Hv. rewrite Ha in Hv.
    injection Hv as <-. rewrite Hres.
    unfold copy_optional, OPTIONAL_PARAMS. simpl.
    repeat (destruct (hasOwnProperty _ _); simpl);
      destruct (truthy (use_strings self)); reflexivity.
  - intros Hres. rewrite Hres. simpl.
    rewrite !own_del_ne by done.
    destruct Hwf as ([a Ha] & _). unfold raw in Hv. rewrite Ha in Hv.
    injection Hv as <-. rewrite Hres.
    unfold copy_optional, OPTIONAL_PARAMS, hasOwnProperty, get. simpl.
    destruct (own (params self) "belongs_to_type"),
             (own (params self) "belongs_to_uuid"),
             (own (params self) "owner_uuid");
      destruct (truthy (use_strings self)); split; reflexivity.
Qed.

(** What [updateIP] with [unassign] does to the stored row: the two
    belongs-to fields go, every other field stays as it was. *)
Lemma updateIP_unassign_row `{Externals} (params validated : props)
    (existingIP : IP) (m : moray) (ip : ipaddr) (b k : string) (r : row) :
  toIPAddr (get params "ip") = Some ip →
  truthy (get validated "unassign") = true →
  is_object (get validated "network") = true →
  getIPKey (member (get validated "network") "ip_use_strings") (VAddr ip)
    = Ok k →
  bucketName (get params "network_uuid") = Ok b →
  IP_wf existingIP →
  objects m !! (b, k) = Some r →
  ∃ res m' r',
    updateIP params existingIP (Ok validated) m = (res, m')
    ∧ objects m' !! (b, k) = Some r'
    ∧ row_value r'
      = del (del (row_value r) "belongs_to_type") "belongs_to_uuid"
    ∧ own (row_value r') "belongs_to_type" = None
    ∧ own (row_value r') "belongs_to_uuid" = None
    ∧ own (row_value r') "owner_uuid" = own (row_value r) "owner_uuid"
    ∧ own (row_value r') "reserved" = own (row_value r) "reserved".
Proof.
  intros Hip Hun Hnet Hk Hb Hwf Hrow.
  destruct (raw_wf existingIP Hwf) as [v Hv].
  unfold updateIP. rewrite Hip. cbv beta iota.
  rewrite bind_Ok, (is_object_member_of _ _ Hnet), bind_Ok, Hk, bind_Ok.
  unfold getBucketObj. rewrite Hb, !bind_Ok, Hv, bind_Ok.
  unfold update_val. rewrite Hun. simpl.
  unfold updateObj, getObj, getObject. simpl. rewrite Hrow. simpl.
  unfold putObject, etag_ok. simpl.
  eexists _, _, _. split; [reflexivity |]. simpl.
  split; [apply lookup_insert_eq |]. simpl.
  unfold merge_val. simpl. split_and!.
  - done.
  - rewrite own_del_ne by done. apply own_del_eq.
  - apply own_del_eq.
  - by rewrite !own_del_ne.
  - by rewrite !own_del_ne.
Qed.

(** The amended C4.  [unassignBatch] clears [belongs_to_type] and
    [belongs_to_uuid]; it also clears [owner_uuid] when [reserved] is
    false, and keeps [owner_uuid], with [reserved] true, when [reserved] is
    true.  [updateIP] with [unassign] removes [belongs_to_type] and
    [belongs_to_uuid] from the stored row and leaves [owner_uuid] and
    [reserved] as they were, whatever [reserved] is. *)
Theorem unassign_by_path `{Externals} (self : IP) (params validated : props)
    (m : moray) (ip : ipaddr) (b k : string) (r : row) :
  IP_wf self →
  toIPAddr (get params "ip") = Some ip →
  truthy (get validated "unassign") = true →
  is_object (get validated "network") = true →
  getIPKey (member (get validated "network") "ip_use_strings") (VAddr ip)
    = Ok k →
  bucketName (get params "network_uuid") = Ok b →
  objects m !! (b, k) = Some r →
  (∃ req,
     unassignBatch self = Ok req
     ∧ operation req = "put"
     ∧ own (value req) "belongs_to_type" = None
     ∧ own (value req) "belongs_to_uuid" = None
     ∧ (truthy (get (IPCommon.params self) "reserved") = false →
          own (value req) "owner_uuid" = None
          ∧ own (value req) "reserved" = Some (VBool false))
     ∧ (truthy (get (IPCommon.params self) "reserved") = true →
          own (value req) "owner_uuid" = own (IPCommon.params self) "owner_uuid"
          ∧ own (value req) "reserved" = Some (VBool true)))
  ∧ (∃ res m' r',
       updateIP params self (Ok validated) m = (res, m')
       ∧ objects m' !! (b, k) = Some r'
       ∧ own (row_value r') "belongs_to_type" = None
       ∧ own (row_value r') "belongs_to_uuid" = None
       ∧ own (row_value r') "owner_uuid" = own (row_value r) "owner_uuid"
       ∧ own (row_value r') "reserved" = own (row_value r) "reserved").
Proof.
  intros Hwf Hip Hun Hnet Hk Hb Hrow. split.
  - destruct (unassignBatch_value self Hwf)
      as (req & Hreq & Hop & _ & Hbt & Hbu & Hfree & Hres).
    exists req. split_and!; done.
  - destruct (updateIP_unassign_row params validated self m ip b k r)
      as (res & m' & r' & Hup & Hrow' & _ & Hbt & Hbu & How & Hre); try done.
    exists res, m', r'. split_and!; done.
Qed.

Lemma unassign_by_path_witness :
  IP_wf Fixture.assigned_ip
  ∧ toIPAddr (Externals := Fixture.externals) (get Fixture.unassign57 "ip")
    = Some Fixture.addr57
  ∧ truthy (get Fixture.validated_unassign57 "unassign") = true
  ∧ is_object (get Fixture.validated_unassign57 "network") = true
  ∧ getIPKey
      (member (get Fixture.validated_unassign57 "network") "ip_use_strings")
      (VAddr Fixture.addr57) = Ok "167772217"
  ∧ bucketName (get Fixture.unassign57 "network_uuid")
    = Ok Fixture.net1_bucket
  ∧ objects Fixture.store_assigned !! (Fixture.net1_bucket, "167772217")
    = Some (Row Fixture.assigned_value (VStr "0"))
  ∧ (∃ req,
       unassignBatch Fixture.assigned_ip = Ok req
       ∧ own (value req) "owner_uuid" = None)
  ∧ (∃ res m' r',
       updateIP (H := Fixture.externals) Fixture.unassign57
         Fixture.assigned_ip (Ok Fixture.validated_unassign57)
         Fixture.store_assigned
       = (res, m')
       ∧ objects m' !! (Fixture.net1_bucket, "167772217") = Some r'
       ∧ own (row_value r') "owner_uuid" = Some (VStr Fixture.owner)).
Proof.
  assert (IP_wf Fixture.assigned_ip) as Hwf.
  { split_and!; [by eexists | done | by eexists]. }
  destruct (unassign_by_path (H := Fixture.externals) Fixture.assigned_ip
              Fixture.unassign57 Fixture.validated_unassign57
              Fixture.store_assigned Fixture.addr57 Fixture.net1_bucket
              "167772217" (Row Fixture.assigned_value (VStr "0")))
    as [(req & Hreq & _ & _ & _ & Hfree & _)
        (res & m' & r' & Hup & Hrow' & _ & _ & How & _)];
    [exact Hwf | reflexivity | reflexivity | reflexivity | reflexivity
    | reflexivity | reflexivity |].
  split_and!; try reflexivity; try exact Hwf.
  - exists req. split; [exact Hreq |]. by apply Hfree.
  - exists res, m', r'. split_and!; [exact Hup | exact Hrow' | exact How].
Defined.

(** C4 as stated fails on [updateIP]: on the row of 10.0.0.57, assigned
    to a zone and not reserved, unassigning through [updateIP] succeeds,
    removes the belongs-to fields, and leaves [owner_uuid] in the row and
    in the record handed back, although [reserved] is false. *)
Lemma unassign_update_keeps_owner :
  ∃ ip' m' r',
    getIP (H := Fixture.externals) Fixture.request57 VUndefined
      Fixture.store_assigned = Ok Fixture.assigned_ip
    ∧ truthy (get (IPCommon.params Fixture.assigned_ip) "reserved") = false
    ∧ updateIP (H := Fixture.externals) Fixture.unassign57 Fixture.assigned_ip
        (Ok Fixture.validated_unassign57) Fixture.store_assigned
      = (Ok ip', m')
    ∧ objects m' !! (Fixture.net1_bucket, "167772217") = Some r'
    ∧ own (row_value r') "belongs_to_type" = None
    ∧ own (row_value r') "belongs_to_uuid" = None
    ∧ own (row_value r') "reserved" = Some (VBool false)
    ∧ own (row_value r') "owner_uuid" = Some (VStr Fixture.owner)
    ∧ own (row_value r') "owner_uuid" ≠ None
    ∧ own (IPCommon.params ip') "owner_uuid" = Some (VStr Fixture.owner).
Proof.
  eexists _, _, _. split_and!; [reflexivity | reflexivity | vm_compute; reflexivity | ..].
  all: try (vm_compute; reflexivity).
  vm_compute. discriminate.
Qed.

(** ** [ldapFilter]: a query with a [filter] property *)

(** C9: for a query object that has a [filter] property, [ldapFilter]
    returns the value of that property, whatever that value is and
    whatever the other properties and the bucket are. *)
Theorem ldapFilter_filter `{Externals} (inObj : props)
    (bucket : option bucket_obj) :
  hasOwnProperty inObj "filter" = true →
  ldapFilter (VObj inObj) bucket = Ok (get inObj "filter").
Proof.
  intros Hfilter. unfold ldapFilter. simpl.
  destruct inObj as [| [k v] inObj]; [done |].
  rewrite hashEmpty_property. by rewrite Hfilter.
Qed.

Lemma ldapFilter_filter_witness :
  hasOwnProperty [("owner_uuid", VStr Fixture.owner); ("filter", VNum 3)]
    "filter" = true
  ∧ ldapFilter (H := Fixture.externals)
      (VObj [("owner_uuid", VStr Fixture.owner); ("filter", VNum 3)])
      (Some (Bucket BUCKET_desc Fixture.net1_bucket BUCKET_index))
    = Ok (VNum 3).
Proof.
  split; [reflexivity |].
  exact (ldapFilter_filter (H := Fixture.externals)
           [("owner_uuid", VStr Fixture.owner); ("filter", VNum 3)]
           (Some (Bucket BUCKET_desc Fixture.net1_bucket BUCKET_index))
           eq_refl).
Defined.

(** ** [validateNetworks] *)

(** C7: given more than [MAX_NETS] (64) candidate UUIDs,
    [validateNetworks] calls back at once with one invalid-parameter error
    whose message is ['maximum 64 networks per network pool']: no lookup is
    started, and the error carries no list of UUIDs. *)
Theorem validateNetworks_too_many `{Externals} (m : moray) (name : string)
    (list : jsval) (answered : Datatypes.list jsval) :
  MAX_NETS < Z.of_nat (length (arrayify list)) →
  validateNetworks m name list answered
  = (Err (InvalidParam name "maximum 64 networks per network pool" None), []).
Proof.
  intros Hlen. unfold validateNetworks.
  destruct (Z.ltb_spec MAX_NETS (Z.of_nat (length (arrayify list))));
    [reflexivity | lia].
Qed.

Lemma validateNetworks_too_many_witness :
  MAX_NETS
  < Z.of_nat (length (arrayify (Externals := Fixture.externals)
                        (VArr (replicate 65 (VStr Fixture.net1_uuid)))))
  ∧ validateNetworks (H := Fixture.externals) Fixture.empty_store "networks"
      (VArr (replicate 65 (VStr Fixture.net1_uuid)))
      (replicate 65 (VStr Fixture.net1_uuid))
    = (Err (InvalidParam "networks" "maximum 64 networks per network pool"
              None), []).
Proof.
  split; [reflexivity |].
  apply (validateNetworks_too_many (H := Fixture.externals)). reflexivity.
Defined.

#[local] Arguments _validateNetworkUUID : simpl never.

(** What one answer does when the network is there and has a tag. *)
Lemma _validateNetworkUUID_tag (uuid net : jsval) (t : string)
    (st : progress) :
  truthy net = true →
  member (member net "params") "nic_tag" = VStr t →
  _validateNetworkUUID uuid (Ok net) st
  = Ok (let tag1 := if strict_eq (tag st) VUndefined
                    then VStr t else tag st in
        if negb (loose_eq (VStr t) tag1) then
          Progress (nets st) (notFound st) tag1
                   (tagsNotMatching st ++ [uuid]) (validated st)
        else
          Progress (nets st ++ [net]) (notFound st) tag1
                   (tagsNotMatching st) (validated st ++ [uuid])).
Proof.
  intros Hnet Htag. unfold _validateNetworkUUID. rewrite Hnet. simpl.
  assert (member_of (member net "params") "nic_tag" = Ok (VStr t)) as ->.
  { unfold member_of. rewrite Htag.
    destruct (member net "params"); simpl in *; congruence. }
  rewrite bind_Ok. cbv zeta. by destruct (negb _).
Qed.

(** Two answers, from networks with different tags: the first sets the
    tag and is validated, the second is recorded as not matching. *)
Lemma answers_tags_differ `{Externals} (m : moray)
    (first second netF netS : jsval) (tF tS : string) :
  net_get m first = Ok netF →
  net_get m second = Ok netS →
  truthy netF = true →
  truthy netS = true →
  member (member netF "params") "nic_tag" = VStr tF →
  member (member netS "params") "nic_tag" = VStr tS →
  tF ≠ tS →
  foldl (λ acc uuid,
           st ← acc; _validateNetworkUUID uuid (net_get m uuid) st)
        (Ok start) [first; second]
  = Ok (Progress [netF] [] (VStr tF) [second] [first]).
Proof.
  intros HF HS HtF HtS HtagF HtagS Hne.
  assert (String.eqb tS tF = false) as Hneq.
  { apply String.eqb_neq. congruence. }
  simpl. rewrite HF, HS.
  rewrite (_validateNetworkUUID_tag first netF tF) by done. simpl.
  rewrite String.eqb_refl. simpl.
  rewrite (_validateNetworkUUID_tag second netS tS) by done. simpl.
  by rewrite Hneq.
Qed.

(** The amended C8.  For candidate UUIDs [A, B] whose networks have
    different NIC tags, [validateNetworks] starts both lookups and,
    whichever answers first, calls back with one invalid-parameter error
    for the validated field, whose message is [POOL_TAGS_MATCH_MSG].  The
    error does not list both networks: the network that answers first is
    validated, only the one that answers second is recorded as not
    matching. *)
Theorem validateNetworks_tags_differ `{Externals} (m : moray) (name : string)
    (list A B netA netB : jsval) (X Y : string)
    (answered : Datatypes.list jsval) :
  arrayify list = [A; B] →
  net_get m A = Ok netA →
  net_get m B = Ok netB →
  truthy netA = true →
  truthy netB = true →
  member (member netA "params") "nic_tag" = VStr X →
  member (member netB "params") "nic_tag" = VStr Y →
  X ≠ Y →
  answered ≡ₚ [A; B] →
  ∃ first second st,
    answered = [first; second]
    ∧ foldl (λ acc uuid,
               st ← acc; _validateNetworkUUID uuid (net_get m uuid) st)
            (Ok start) answered
      = Ok st
    ∧ validated st = [first]
    ∧ tagsNotMatching st = [second]
    ∧ notFound st = []
    ∧ validateNetworks m name list answered
      = (Err (InvalidParam name POOL_TAGS_MATCH_MSG None), [A; B]).
Proof.
  intros Hlist HA HB HtA HtB HX HY Hne Hperm.
  assert (validateNetworks m name list answered
          = (st ← foldl (λ acc uuid,
                           st ← acc;
                           _validateNetworkUUID uuid (net_get m uuid) st)
                        (Ok start) answered;
             finish name st,
             [A; B])) as Hrun.
  { unfold validateNetworks. rewrite Hlist. simpl length.
    by destruct (Z.ltb_spec MAX_NETS (Z.of_nat 2));
      [unfold MAX_NETS in *; lia |]. }
  symmetry in Hperm. apply Permutation_length_2_inv in Hperm.
  destruct Hperm as [-> | ->].
  - pose proof (answers_tags_differ m A B netA netB X Y
                  HA HB HtA HtB HX HY Hne) as Hfold.
    eexists A, B, _. rewrite Hrun, Hfold. by split_and!.
  - pose proof (answers_tags_differ m B A netB netA Y X
                  HB HA HtB HtA HY HX (not_eq_sym Hne)) as Hfold.
    eexists B, A, _. rewrite Hrun, Hfold. by split_and!.
Qed.

Lemma validateNetworks_tags_differ_witness :
  arrayify (Externals := Fixture.externals)
    (VArr [VStr Fixture.netA_uuid; VStr Fixture.netB_uuid])
  = [VStr Fixture.netA_uuid; VStr Fixture.netB_uuid]
  ∧ net_get (Externals := Fixture.externals) Fixture.store_two_nets
      (VStr Fixture.netA_uuid)
    = Ok (VObj [("uuid", VStr Fixture.netA_uuid);
                ("params", VObj [("nic_tag", VStr "external")])])
  ∧ net_get (Externals := Fixture.externals) Fixture.store_two_nets
      (VStr Fixture.netB_uuid)
    = Ok (VObj [("uuid", VStr Fixture.netB_uuid);
                ("params", VObj [("nic_tag", VStr "admin")])])
  ∧ "external" ≠ "admin"
  ∧ [VStr Fixture.netB_uuid; VStr Fixture.netA_uuid]
    ≡ₚ [VStr Fixture.netA_uuid; VStr Fixture.netB_uuid]
  ∧ validateNetworks (H := Fixture.externals) Fixture.store_two_nets
      "networks" (VArr [VStr Fixture.netA_uuid; VStr Fixture.netB_uuid])
      [VStr Fixture.netB_uuid; VStr Fixture.netA_uuid]
    = (Err (InvalidParam "networks"
              (POOL_TAGS_MATCH_MSG (Externals := Fixture.externals)) None),
       [VStr Fixture.netA_uuid; VStr Fixture.netB_uuid]).
Proof.
  assert ("external" ≠ "admin") as Hne by discriminate.
  assert ([VStr Fixture.netB_uuid; VStr Fixture.netA_uuid]
          ≡ₚ [VStr Fixture.netA_uuid; VStr Fixture.netB_uuid]) as Hperm
    by apply perm_swap.
  split_and!; [reflexivity | reflexivity | reflexivity | exact Hne
              | exact Hperm |].
  destruct (validateNetworks_tags_differ (H := Fixture.externals)
              Fixture.store_two_nets "networks"
              (VArr [VStr Fixture.netA_uuid; VStr Fixture.netB_uuid])
              (VStr Fixture.netA_uuid) (VStr Fixture.netB_uuid)
              (VObj [("uuid", VStr Fixture.netA_uuid);
                     ("params", VObj [("nic_tag", VStr "external")])])
              (VObj [("uuid", VStr Fixture.netB_uuid);
                     ("params", VObj [("nic_tag", VStr "admin")])])
              "external" "admin"
              [VStr Fixture.netB_uuid; VStr Fixture.netA_uuid]
              eq_refl eq_refl eq_refl eq_refl eq_refl eq_refl eq_refl
              Hne Hperm)
    as (first & second & st & _ & _ & _ & _ & _ & Hrun).
  exact Hrun.
Defined.

(** C8 as stated fails: for two networks with the tags [external] and
    [admin], in either order of the answers, the error of
    [validateNetworks] has no list of networks, so it does not list both
    offending networks. *)
Lemma validateNetworks_tags_differ_no_list :
  (validateNetworks (H := Fixture.externals) Fixture.store_two_nets
     "networks" (VArr [VStr Fixture.netA_uuid; VStr Fixture.netB_uuid])
     [VStr Fixture.netA_uuid; VStr Fixture.netB_uuid]).1
  = Err (InvalidParam "networks"
           "nic tags of the networks of a pool must match" None)
  ∧ (validateNetworks (H := Fixture.externals) Fixture.store_two_nets
       "networks" (VArr [VStr Fixture.netA_uuid; VStr Fixture.netB_uuid])
       [VStr Fixture.netB_uuid; VStr Fixture.netA_uuid]).1
    = Err (InvalidParam "networks"
             "nic tags of the networks of a pool must match" None)
  ∧ ¬ (∃ answered message invalid,
         answered ≡ₚ [VStr Fixture.netA_uuid; VStr Fixture.netB_uuid]
         ∧ (validateNetworks (H := Fixture.externals) Fixture.store_two_nets
              "networks"
              (VArr [VStr Fixture.netA_uuid; VStr Fixture.netB_uuid])
              answered).1
           = Err (InvalidParam "networks" message (Some invalid))
         ∧ VStr Fixture.netA_uuid ∈ invalid
         ∧ VStr Fixture.netB_uuid ∈ invalid).
Proof.
  split_and!; [reflexivity | reflexivity |].
  intros (answered & message & invalid & Hperm & Herr & _).
  symmetry in Hperm. apply Permutation_length_2_inv in Hperm.
  destruct Hperm as [-> | ->]; vm_compute in Herr; discriminate.
Qed.

(** ** Addresses without a row: [getIP] and [createIP] *)

#[local] Arguments is_object : simpl never.

(** [getIP] on an address that has no row. *)
Lemma getIP_absent `{Externals} (params : props) (returnObject : jsval)
    (m : moray) (ip : ipaddr) (u b k : string) :
  toIPAddr (get params "ip") = Some ip →
  is_object (get params "network") = true →
  get params "network_uuid" = VStr u →
  bucketName (VStr u) = Ok b →
  getIPKey (member (get params "network") "ip_use_strings") (VAddr ip)
    = Ok k →
  objects m !! (b, k) = None →
  getIP params returnObject m
  = if truthy returnObject then
      Ok (MkIP [("etag", VNull);
                ("free", VBool true);
                ("ip", VAddr ip);
                ("network", get params "network");
                ("network_uuid", VStr u);
                ("reserved", VBool false)]
               VNull
               (and_then (get params "network")
                  (member (get params "network") "ip_use_strings")))
    else Err (ResourceNotFoundError "IP not found").
Proof.
  intros Hip Hnet Hu Hb Hk Hrow.
  unfold getIP. rewrite Hip, Hu. cbv beta iota.
  unfold getBucketObj. rewrite Hb, !bind_Ok.
  rewrite (is_object_member_of _ _ Hnet), bind_Ok, Hk, bind_Ok.
  unfold getObj, getObject. simpl name. rewrite Hrow. simpl.
  destruct (truthy returnObject); [| reflexivity].
  remember (get params "network") as network eqn:Hnetwork.
  unfold new_IP. js_props. rewrite Hnet. simpl.
  rewrite toIPAddr_addr. reflexivity.
Qed.

(** [createIP] writes with the expected etag [null]. *)
Lemma createIP_put `{Externals} (validated : props) (m : moray) (self : IP)
    (nu b k : string) (v : props) :
  new_IP validated = Ok self →
  member (get validated "network") "uuid" = VStr nu →
  bucketName (VStr nu) = Ok b →
  IPCommon.key self = Ok k →
  raw self = Ok v →
  createIP (Ok validated) m
  = match putObject m b k v (Some VNull) with
    | (Ok res_etag, m') =>
        (Ok (MkIP (IPCommon.params self) res_etag (use_strings self)), m')
    | (Err err, m') => (Err err, m')
    | (Throw w, m') => (Throw w, m')
    end.
Proof.
  intros Hnew Hnu Hb Hk Hv. unfold createIP. rewrite Hnew, Hk, bind_Ok.
  assert (member_of (get validated "network") "uuid" = Ok (VStr nu)) as ->.
  { unfold member_of. rewrite Hnu.
    destruct (get validated "network"); simpl in *; congruence. }
  rewrite bind_Ok. unfold getBucketObj. rewrite Hb, !bind_Ok, Hv, bind_Ok.
  reflexivity.
Qed.

Lemma putObject_null_taken (m : moray) (b k : string) (v : props) :
  is_Some (objects m !! (b, k)) →
  putObject m b k v (Some VNull) = (Err EtagConflictError, m).
Proof. intros [r Hr]. unfold putObject, etag_ok. by rewrite Hr. Qed.

Lemma putObject_null_free (m : moray) (b k : string) (v : props) :
  objects m !! (b, k) = None →
  ∃ m', putObject m b k v (Some VNull) = (Ok (next_etag m), m')
        ∧ objects m' !! (b, k) = Some (Row v (next_etag m)).
Proof.
  intros Hr. unfold putObject, etag_ok. rewrite Hr.
  eexists. split; [reflexivity |]. apply lookup_insert_eq.
Qed.

(** C5: [getIP] on an address whose row is absent gives, with
    [returnObject], a free IP object with [etag = null] and
    [reserved = false], and without it a not-found error; [createIP] writes
    with the expected etag [null], so that it fails with an etag conflict
    when the row is already there, and creates the row when it is not. *)
Theorem absent_ip_get_create `{Externals} (params validated : props)
    (returnObject : jsval) (m m2 : moray) (ip : ipaddr) (u b k : string)
    (self : IP) (nu b2 k2 : string) (v : props) :
  toIPAddr (get params "ip") = Some ip →
  is_object (get params "network") = true →
  get params "network_uuid" = VStr u →
  bucketName (VStr u) = Ok b →
  getIPKey (member (get params "network") "ip_use_strings") (VAddr ip)
    = Ok k →
  objects m !! (b, k) = None →
  new_IP validated = Ok self →
  member (get validated "network") "uuid" = VStr nu →
  bucketName (VStr nu) = Ok b2 →
  IPCommon.key self = Ok k2 →
  raw self = Ok v →
  (truthy returnObject = true →
     ∃ absent ser,
       getIP params returnObject m = Ok absent
       ∧ etag absent = VNull
       ∧ get (IPCommon.params absent) "reserved" = VBool false
       ∧ get (IPCommon.params absent) "ip" = VAddr ip
       ∧ own (IPCommon.params absent) "belongs_to_type" = None
       ∧ own (IPCommon.params absent) "belongs_to_uuid" = None
       ∧ own (IPCommon.params absent) "owner_uuid" = None
       ∧ serialize absent = Ok ser
       ∧ own ser "free" = Some (VBool true)
       ∧ own ser "reserved" = Some (VBool false))
  ∧ (truthy returnObject = false →
       getIP params returnObject m = Err (ResourceNotFoundError "IP not found")
       ∧ statusCode (ResourceNotFoundError "IP not found") = Some 404)
  ∧ createIP (Ok validated) m2
    = match putObject m2 b2 k2 v (Some VNull) with
      | (Ok res_etag, m') =>
          (Ok (MkIP (IPCommon.params self) res_etag (use_strings self)), m')
      | (Err err, m') => (Err err, m')
      | (Throw w, m') => (Throw w, m')
      end
  ∧ (is_Some (objects m2 !! (b2, k2)) →
       createIP (Ok validated) m2 = (Err EtagConflictError, m2))
  ∧ (objects m2 !! (b2, k2) = None →
       ∃ res_etag m',
         createIP (Ok validated) m2
         = (Ok (MkIP (IPCommon.params self) res_etag (use_strings self)), m')
         ∧ objects m' !! (b2, k2) = Some (Row v res_etag)).
Proof.
  intros Hip Hnet Hu Hb Hk Hrow Hnew Hnu Hb2 Hk2 Hv.
  pose proof (getIP_absent params returnObject m ip u b k
                Hip Hnet Hu Hb Hk Hrow) as Hget.
  pose proof (createIP_put validated m2 self nu b2 k2 v
                Hnew Hnu Hb2 Hk2 Hv) as Hcreate.
  split_and!.
  - intros Hret. rewrite Hret in Hget.
    set (network := get params "network") in *. clearbody network.
    eexists _, _. split; [exact Hget |]. cbn [etag IPCommon.params].
    split_and!; try reflexivity.
    + unfold serialize. cbn [IPCommon.params]. js_props.
      rewrite (is_object_member_of _ _ Hnet), bind_Ok. reflexivity.
    + reflexivity.
    + reflexivity.
  - intros Hret. rewrite Hret in Hget. done.
  - exact Hcreate.
  - intros Htaken. rewrite Hcreate.
    by rewrite (putObject_null_taken m2 b2 k2 v Htaken).
  - intros Hfree. rewrite Hcreate.
    destruct (putObject_null_free m2 b2 k2 v Hfree) as (m' & -> & Hrow').
    by eexists _, _.
Qed.

Lemma absent_ip_get_create_witness :
  (toIPAddr (Externals := Fixture.externals) (get Fixture.request57 "ip")
   = Some Fixture.addr57
   ∧ is_object (get Fixture.request57 "network") = true
   ∧ get Fixture.request57 "network_uuid" = VStr Fixture.net1_uuid
   ∧ bucketName (VStr Fixture.net1_uuid) = Ok Fixture.net1_bucket
   ∧ getIPKey (member (get Fixture.request57 "network") "ip_use_strings")
       (VAddr Fixture.addr57) = Ok "167772217"
   ∧ objects Fixture.empty_store !! (Fixture.net1_bucket, "167772217") = None
   ∧ new_IP (H := Fixture.externals) Fixture.request57
     = Ok Fixture.requested_ip
   ∧ member (get Fixture.request57 "network") "uuid"
     = VStr Fixture.net1_uuid
   ∧ IPCommon.key Fixture.requested_ip = Ok "167772217"
   ∧ raw Fixture.requested_ip = Ok Fixture.requested_raw)
  ∧ (∃ absent,
       getIP (H := Fixture.externals) Fixture.request57 (VBool true)
         Fixture.empty_store = Ok absent
       ∧ etag absent = VNull
       ∧ get (IPCommon.params absent) "reserved" = VBool false)
  ∧ getIP (H := Fixture.externals) Fixture.request57 (VBool false)
      Fixture.empty_store
    = Err (ResourceNotFoundError "IP not found")
  ∧ createIP (H := Fixture.externals) (Ok Fixture.request57)
      Fixture.store_assigned
    = (Err EtagConflictError, Fixture.store_assigned)
  ∧ (∃ res_etag m',
       createIP (H := Fixture.externals) (Ok Fixture.request57)
         Fixture.empty_store
       = (Ok (MkIP (IPCommon.params Fixture.requested_ip) res_etag
                (use_strings Fixture.requested_ip)), m')
       ∧ objects m' !! (Fixture.net1_bucket, "167772217")
         = Some (Row Fixture.requested_raw res_etag)).
Proof.
  split; [split_and!; reflexivity |].
  pose proof (absent_ip_get_create (H := Fixture.externals)
                Fixture.request57 Fixture.request57 (VBool true)
                Fixture.empty_store Fixture.store_assigned Fixture.addr57
                Fixture.net1_uuid Fixture.net1_bucket "167772217"
                Fixture.requested_ip Fixture.net1_uuid Fixture.net1_bucket
                "167772217" Fixture.requested_raw
                eq_refl eq_refl eq_refl eq_refl eq_refl eq_refl
                eq_refl eq_refl eq_refl eq_refl eq_refl)
    as (Hget & _ & _ & Htaken & _).
  pose proof (absent_ip_get_create (H := Fixture.externals)
                Fixture.request57 Fixture.request57 (VBool false)
                Fixture.empty_store Fixture.empty_store Fixture.addr57
                Fixture.net1_uuid Fixture.net1_bucket "167772217"
                Fixture.requested_ip Fixture.net1_uuid Fixture.net1_bucket
                "167772217" Fixture.requested_raw
                eq_refl eq_refl eq_refl eq_refl eq_refl eq_refl
                eq_refl eq_refl eq_refl eq_refl eq_refl)
    as (_ & Hmissing & _ & _ & Hfree).
  split_and!.
  - destruct (Hget eq_refl) as (absent & ser & Habsent & Hetag & Hres & _).
    exists absent. split_and!; [exact Habsent | exact Hetag | exact Hres].
  - exact (proj1 (Hmissing eq_refl)).
  - apply Htaken. eexists. reflexivity.
  - exact (Hfree eq_refl).
Defined.

(** ** [deleteIP] *)

(** [deleteIP] is one put of the cleared record, expecting the etag of the
    existing IP object. *)
Lemma deleteIP_put `{Externals} (params : props) (existingIP : IP)
    (m : moray) (ip : ipaddr) (nu b k : string) :
  toIPAddr (get params "ip") = Some ip →
  is_object (get params "network") = true →
  member (get params "network") "uuid" = VStr nu →
  bucketName (VStr nu) = Ok b →
  getIPKey (member (get params "network") "ip_use_strings") (VAddr ip)
    = Ok k →
  (deleteIP params existingIP m).2
  = (putObject m b k
       (deleted_val (member (get params "network") "ip_use_strings") ip)
       (Some (etag existingIP))).2
  ∧ (etag_ok (Some (etag existingIP)) (objects m !! (b, k)) = false →
       deleteIP params existingIP m = (Err EtagConflictError, m)).
Proof.
  intros Hip Hnet Hnu Hb Hk. unfold deleteIP. rewrite Hip. cbv beta iota.
  rewrite !(is_object_member_of _ _ Hnet), !bind_Ok, Hnu, Hb, bind_Ok, Hk,
    bind_Ok.
  cbv beta iota. unfold putObject.
  destruct (etag_ok _ _); [| done]. split; [reflexivity | done].
Qed.

Lemma putObject_keeps_rows (m : moray) (b k : string) (v : props)
    (expected : option jsval) (bk : string * string) :
  is_Some (objects m !! bk) →
  is_Some (objects (putObject m b k v expected).2 !! bk).
Proof.
  intros Hbk. unfold putObject. destruct (etag_ok _ _); simpl; [| done].
  destruct (decide ((b, k) = bk)) as [<- | Hne].
  - rewrite lookup_insert_eq. eauto.
  - by rewrite lookup_insert_ne.
Qed.

(** Whatever it is given, [deleteIP] removes no row. *)
Lemma deleteIP_keeps_rows `{Externals} (params : props) (existingIP : IP)
    (m : moray) (bk : string * string) :
  is_Some (objects m !! bk) →
  is_Some (objects (deleteIP params existingIP m).2 !! bk).
Proof.
  intros Hbk. unfold deleteIP.
  destruct (toIPAddr (get params "ip")) as [ip |]; [| done].
  destruct (_ ≫= _) as [[[[use_strings network_uuid] b] k] | |];
    [| done | done].
  pose proof (putObject_keeps_rows m b k (deleted_val use_strings ip)
                (Some (etag existingIP)) bk Hbk) as Hput.
  by destruct (putObject m b k _ _) as [[res_etag | err | w] m'].
Qed.

(** C6: [deleteIP] writes a cleared record over the row, expecting the
    etag of the existing record.  The record is [reserved: false] and the
    address of the request and nothing else: the address as a string
    under [ipaddr] when the network uses strings, as a number under [ip]
    when it does not; there is no belongs-to or owner field.  [deleteIP]
    never removes a row from the store. *)
Theorem deleteIP_overwrites `{Externals} (params : props) (existingIP : IP)
    (m : moray) (ip : ipaddr) (nu b k : string) :
  toIPAddr (get params "ip") = Some ip →
  is_object (get params "network") = true →
  member (get params "network") "uuid" = VStr nu →
  bucketName (VStr nu) = Ok b →
  getIPKey (member (get params "network") "ip_use_strings") (VAddr ip)
    = Ok k →
  ∃ val address,
    val = (if truthy (member (get params "network") "ip_use_strings")
           then [("reserved", VBool false);
                 ("ipaddr", VStr (toString ip))]
           else [("reserved", VBool false); ("ip", VNum (toLong ip))])
    ∧ address = (if truthy (member (get params "network") "ip_use_strings")
                 then "ipaddr" else "ip")
    ∧ keys val = ["reserved"; address]
    ∧ own val address
      = Some (if truthy (member (get params "network") "ip_use_strings")
              then VStr (toString ip) else VNum (toLong ip))
    ∧ own val "reserved" = Some (VBool false)
    ∧ own val "belongs_to_type" = None
    ∧ own val "belongs_to_uuid" = None
    ∧ own val "owner_uuid" = None
    ∧ k = (if truthy (member (get params "network") "ip_use_strings")
           then toString ip else to_str (VNum (toLong ip)))
    ∧ (deleteIP params existingIP m).2
      = (putObject m b k val (Some (etag existingIP))).2
    ∧ (etag_ok (Some (etag existingIP)) (objects m !! (b, k)) = true →
         objects (deleteIP params existingIP m).2 !! (b, k)
         = Some (Row val (next_etag m)))
    ∧ (etag_ok (Some (etag existingIP)) (objects m !! (b, k)) = false →
         deleteIP params existingIP m = (Err EtagConflictError, m))
    ∧ (∀ bk, is_Some (objects m !! bk) →
             is_Some (objects (deleteIP params existingIP m).2 !! bk)).
Proof.
  intros Hip Hnet Hnu Hb Hk.
  destruct (deleteIP_put params existingIP m ip nu b k Hip Hnet Hnu Hb Hk)
    as [Hput Hconflict].
  exists (deleted_val (member (get params "network") "ip_use_strings") ip),
    (if truthy (member (get params "network") "ip_use_strings")
     then "ipaddr" else "ip").
  split_and!.
  - unfold deleted_val. by destruct (truthy _).
  - reflexivity.
  - unfold deleted_val. by destruct (truthy _).
  - unfold deleted_val. by destruct (truthy _).
  - unfold deleted_val. by destruct (truthy _).
  - unfold deleted_val. by destruct (truthy _).
  - unfold deleted_val. by destruct (truthy _).
  - unfold deleted_val. by destruct (truthy _).
  - unfold getIPKey in Hk. by destruct (truthy _); simpl in Hk; injection Hk as <-.
  - exact Hput.
  - intros Hok. rewrite Hput. unfold putObject. rewrite Hok. simpl.
    apply lookup_insert_eq.
  - exact Hconflict.
  - intros bk. apply deleteIP_keeps_rows.
Qed.

Lemma deleteIP_overwrites_witness :
  (toIPAddr (Externals := Fixture.externals) (get Fixture.request57 "ip")
   = Some Fixture.addr57
   ∧ is_object (get Fixture.request57 "network") = true
   ∧ member (get Fixture.request57 "network") "uuid"
     = VStr Fixture.net1_uuid
   ∧ bucketName (VStr Fixture.net1_uuid) = Ok Fixture.net1_bucket
   ∧ getIPKey (member (get Fixture.request57 "network") "ip_use_strings")
       (VAddr Fixture.addr57) = Ok "167772217")
  ∧ objects (deleteIP (H := Fixture.externals) Fixture.request57
               Fixture.assigned_ip Fixture.store_assigned).2
      !! (Fixture.net1_bucket, "167772217")
    = Some (Row [("reserved", VBool false); ("ip", VNum 167772217)]
              (VStr "1")).
Proof.
  split; [split_and!; reflexivity |].
  destruct (deleteIP_overwrites (H := Fixture.externals) Fixture.request57
              Fixture.assigned_ip Fixture.store_assigned Fixture.addr57
              Fixture.net1_uuid Fixture.net1_bucket "167772217"
              eq_refl eq_refl eq_refl eq_refl eq_refl)
    as (val & address & -> & _ & _ & _ & _ & _ & _ & _ & _ & _ & Hrow & _).
  exact (Hrow eq_refl).
Defined.

(** ** [batchCreateIPs] *)

Lemma apply_request_plain_put (r : request) (m : moray) :
  plain_put r →
  apply_request r m
  = (Ok [EtagEntry (bucket r) (Moray.key r) (next_etag m)],
     Store (<[(bucket r, Moray.key r) := Row (value r) (next_etag m)]>
              (objects m))
           (writes m + 1)%N).
Proof.
  intros [Hop Hopt]. unfold apply_request, putObject. by rewrite Hop, Hopt.
Qed.

(** A batch of plain puts goes through on every store; it leaves the rows
    it does not name as they were, and every row it names holds the value
    of a put of the batch on that row. *)
Lemma apply_requests_plain_puts (rs : list request) (m : moray) :
  Forall plain_put rs →
  ∃ es m',
    apply_requests rs m = (Ok es, m')
    ∧ (∀ bk, (∀ r, r ∈ rs → (bucket r, Moray.key r) ≠ bk) →
             objects m' !! bk = objects m !! bk)
    ∧ (∀ r, r ∈ rs →
         ∃ r' e, r' ∈ rs
                 ∧ (bucket r', Moray.key r') = (bucket r, Moray.key r)
                 ∧ objects m' !! (bucket r, Moray.key r)
                   = Some (Row (value r') e)).
Proof.
  intros Hputs. revert m.
  induction Hputs as [| r rs Hr Hrs IH]; intros m.
  - exists [], m. split_and!; [done | done |]. intros r Hr. by inversion Hr.
  - set (m1 := Store (<[(bucket r, Moray.key r)
                        := Row (value r) (next_etag m)]> (objects m))
                     (writes m + 1)%N).
    destruct (IH m1) as (es & m' & Happly & Hframe & Hrows).
    exists ([EtagEntry (bucket r) (Moray.key r) (next_etag m)] ++ es), m'.
    split_and!.
    + simpl. rewrite (apply_request_plain_put r m Hr). fold m1.
      by rewrite Happly.
    + intros bk Hbk. rewrite Hframe.
      * subst m1. simpl. apply lookup_insert_ne. apply Hbk. by left.
      * intros r0 Hr0. apply Hbk. by right.
    + intros r0 Hr0. apply elem_of_cons in Hr0 as [-> | Hin].
      * destruct (decide (Exists (λ r1, (bucket r1, Moray.key r1)
                                        = (bucket r, Moray.key r)) rs))
          as [Hex | Hnex].
        -- apply Exists_exists in Hex as (r1 & Hr1 & Hkey).
           destruct (Hrows r1 Hr1) as (r' & e & Hr' & Hkey' & Hrow).
           rewrite Hkey in Hrow, Hkey'.
           exists r', e. split_and!; [by right | done | done].
        -- exists r, (next_etag m). split_and!; [by left | done |].
           rewrite Hframe; [subst m1; simpl; apply lookup_insert_eq |].
           intros r1 Hr1 Hkey. apply Hnex, Exists_exists. eauto.
      * destruct (Hrows r0 Hin) as (r' & e & Hr' & Hkey' & Hrow).
        exists r', e. split_and!; [by right | done | done].
Qed.

(** Every request [batchCreateIPs] builds is a put into the given bucket
    with no [options]. *)
Lemma batchData_puts `{Externals} (bucket : bucket_obj) (batch : list props)
    (data : list (IP * request)) :
  batchData bucket batch = Ok data →
  Forall (λ r, operation r = "put"
               ∧ Moray.bucket r = name bucket
               ∧ options r = None) data.*2.
Proof.
  revert data. induction batch as [| ipParams batch IH]; intros data.
  - intros [= <-]. constructor.
  - unfold batchData in *. simpl.
    destruct (new_IP ipParams) as [ip | |]; simpl; try done.
    destruct (IPCommon.key ip) as [k | |]; simpl; try done.
    destruct (raw ip) as [v | |]; simpl; try done.
    destruct (mapM _ batch) as [data' | |]; simpl; try done.
    intros [= <-]. simpl. constructor; [done |]. by apply IH.
Qed.

Lemma getBucketObj_name (networkUUID : jsval) (bucket : bucket_obj) :
  getBucketObj networkUUID = Ok bucket →
  ∃ u, networkUUID = VStr u
       ∧ name bucket = "napi_ips_" +:+ replace_all "-" "_" u.
Proof.
  unfold getBucketObj, bucketName. destruct networkUUID; simpl; try done.
  intros [= <-]. eauto.
Qed.

(** The requests [batchCreateIPs] builds, from the IP objects the
    constructor makes of the elements of [params.batch]: one request per
    element and in the same order, with the key and the stored form of
    that IP. *)
Lemma batchData_from_ips `{Externals} (bucket : bucket_obj)
    (batch : list props) (ips : list IP) :
  Forall2 (λ ipParams ip, new_IP ipParams = Ok ip) batch ips →
  ∃ requests,
    Forall2 (λ ip r, operation r = "put"
                     ∧ Moray.bucket r = name bucket
                     ∧ options r = None
                     ∧ IPCommon.key ip = Ok (Moray.key r)
                     ∧ raw ip = Ok (value r)) ips requests
    ∧ batchData bucket batch = Ok (zip ips requests).
Proof.
  induction 1 as [| ipParams ip batch ips Hnew _ (requests & Hreqs & Hdata)].
  { exists []. split; [constructor | done]. }
  pose proof (new_IP_wf _ _ Hnew) as Hwf.
  destruct (raw_wf ip Hwf) as [v Hv].
  destruct Hwf as ([a Ha] & _ & _).
  assert (∃ k, IPCommon.key ip = Ok k) as [k Hk].
  { unfold IPCommon.key, getIPKey. rewrite Ha.
    destruct (negb (truthy (use_strings ip))); by eexists. }
  exists (Request (name bucket) k "put" v None :: requests). split.
  - constructor; [by split_and! | done].
  - unfold batchData in *. cbn [mapM].
    rewrite Hnew, bind_Ok, Hk, bind_Ok, Hv, bind_Ok, Hdata. reflexivity.
Qed.

(** C10: for every element of [params.batch], [batchCreateIPs] sends one
    request, in the order of the list: a put into the IP bucket of the
    network, under the key of that address, of the stored form of that
    address, with no expected etag.  On every store the batch goes
    through, and each row it names then holds the stored form of an
    address of the batch with that key, whatever was there before. *)
Theorem batchCreateIPs_plain_puts `{Externals} (network_uuid : jsval)
    (batch : list props) (m : moray) (bucket : bucket_obj)
    (ips : list IP) :
  getBucketObj network_uuid = Ok bucket →
  Forall2 (λ ipParams ip, new_IP ipParams = Ok ip) batch ips →
  (∃ u, network_uuid = VStr u
        ∧ name bucket = "napi_ips_" +:+ replace_all "-" "_" u)
  ∧ ∃ requests m',
      Forall2 (λ ip r, operation r = "put"
                       ∧ Moray.bucket r = name bucket
                       ∧ options r = None
                       ∧ IPCommon.key ip = Ok (Moray.key r)
                       ∧ raw ip = Ok (value r)) ips requests
      ∧ length requests = length batch
      ∧ batchData bucket batch = Ok (zip ips requests)
      ∧ batchCreateIPs network_uuid batch m = (Ok ips, m')
      ∧ (∀ ip, ip ∈ ips →
           ∃ k ip' v' e,
             IPCommon.key ip = Ok k
             ∧ ip' ∈ ips
             ∧ IPCommon.key ip' = Ok k
             ∧ raw ip' = Ok v'
             ∧ objects m' !! (name bucket, k) = Some (Row v' e))
      ∧ (∀ b k, (b = name bucket →
                 ∀ ip, ip ∈ ips → IPCommon.key ip ≠ Ok k) →
                objects m' !! (b, k) = objects m !! (b, k)).
Proof.
  intros Hbucket Hips.
  split; [by apply getBucketObj_name |].
  destruct (batchData_from_ips bucket batch ips Hips)
    as (requests & Hreqs & Hdata).
  pose proof (Forall2_length _ _ _ Hips) as Hlen1.
  pose proof (Forall2_length _ _ _ Hreqs) as Hlen2.
  assert ((zip ips requests).*1 = ips) as Hfst by (apply fst_zip; lia).
  assert ((zip ips requests).*2 = requests) as Hsnd by (apply snd_zip; lia).
  assert (∀ r, r ∈ requests →
               ∃ ip, ip ∈ ips
                     ∧ operation r = "put"
                     ∧ Moray.bucket r = name bucket
                     ∧ options r = None
                     ∧ IPCommon.key ip = Ok (Moray.key r)
                     ∧ raw ip = Ok (value r)) as Hof.
  { intros r [i Hi]%list_elem_of_lookup.
    destruct (Forall2_lookup_r _ _ _ _ _ Hreqs Hi) as (ip & Hip & Hr).
    exists ip. split; [| exact Hr]. apply list_elem_of_lookup. eauto. }
  destruct (apply_requests_plain_puts requests m)
    as (es & m' & Happly & Hframe & Hrows).
  { apply Forall_forall. intros r Hr.
    destruct (Hof r Hr) as (_ & _ & ? & _ & ? & _). by split. }
  exists requests, m'. split_and!.
  - exact Hreqs.
  - lia.
  - exact Hdata.
  - unfold batchCreateIPs, Moray.batch.
    by rewrite Hbucket, bind_Ok, Hdata, Hsnd, Happly, Hfst.
  - intros ip [i Hi]%list_elem_of_lookup.
    destruct (Forall2_lookup_l _ _ _ _ _ Hreqs Hi)
      as (r & Hr & _ & Hb & _ & Hk & _).
    assert (r ∈ requests) as Hin by (apply list_elem_of_lookup; eauto).
    destruct (Hrows r Hin) as (r' & e & Hr' & Hkey & Hrow).
    destruct (Hof r' Hr') as (ip' & Hip' & _ & _ & _ & Hk' & Hv').
    injection Hkey as _ Hkey. rewrite Hb in Hrow. rewrite Hkey in Hk'.
    exists (Moray.key r), ip', (value r'), e. by split_and!.
  - intros b k Hbk. apply Hframe. intros r Hr [= Hb Hk].
    destruct (Hof r Hr) as (ip & Hip & _ & Hb' & _ & Hkey & _).
    apply (Hbk ltac:(congruence) ip Hip). by rewrite Hkey, Hk.
Qed.

Lemma batchCreateIPs_plain_puts_witness :
  (getBucketObj (VStr Fixture.net1_uuid)
   = Ok (Bucket BUCKET_desc Fixture.net1_bucket BUCKET_index)
   ∧ Forall2 (λ ipParams ip, new_IP (H := Fixture.externals) ipParams = Ok ip)
       [Fixture.request57] [Fixture.requested_ip])
  ∧ objects Fixture.store_assigned !! (Fixture.net1_bucket, "167772217")
    = Some (Row Fixture.assigned_value (VStr "0"))
  ∧ ∃ m' e,
      batchData (H := Fixture.externals)
        (Bucket BUCKET_desc Fixture.net1_bucket BUCKET_index)
        [Fixture.request57]
      = Ok [(Fixture.requested_ip,
             Request Fixture.net1_bucket "167772217" "put"
               Fixture.requested_raw None)]
      ∧ batchCreateIPs (H := Fixture.externals) (VStr Fixture.net1_uuid)
          [Fixture.request57] Fixture.store_assigned
        = (Ok [Fixture.requested_ip], m')
      ∧ objects m' !! (Fixture.net1_bucket, "167772217")
        = Some (Row Fixture.requested_raw e).
Proof.
  assert (Forall2 (λ ipParams ip,
                     new_IP (H := Fixture.externals) ipParams = Ok ip)
            [Fixture.request57] [Fixture.requested_ip]) as Hips.
  { repeat constructor. }
  split; [split; [reflexivity | exact Hips] |]. split; [reflexivity |].
  destruct (batchCreateIPs_plain_puts (H := Fixture.externals)
              (VStr Fixture.net1_uuid) [Fixture.request57]
              Fixture.store_assigned
              (Bucket BUCKET_desc Fixture.net1_bucket BUCKET_index)
              [Fixture.requested_ip] eq_refl Hips)
    as (_ & requests & m' & _ & _ & _ & Hbatch & Hrows & _).
  destruct (Hrows Fixture.requested_ip)
    as (k & ip' & v' & e & Hk & Hip' & _ & Hv' & Hrow); [by left |].
  apply list_elem_of_singleton in Hip'. subst ip'.
  injection Hk as <-. injection Hv' as <-.
  exists m', e. split_and!; [reflexivity | exact Hbatch | exact Hrow].
Defined.

(** * More properties *)

(** ** The order of a batch *)

(** X1: [compareRequests] is a consistent comparator: swapping the
    arguments negates the result, and the result is 0 exactly for two
    requests on the same bucket and key. *)
Theorem compareRequests_consistent (a b : request) :
  compareRequests b a = - compareRequests a b
  ∧ (compareRequests a b = 0 ↔
       bucket a = bucket b ∧ Moray.key a = Moray.key b).
Proof.
  unfold compareRequests.
  destruct (str_lt_trichotomy (bucket a) (bucket b))
    as [[Ha Hb] | [(Heq & Ha & Hb) | [Hb Ha]]]; rewrite Ha, Hb.
  - split; [done |]. split; [done |]. intros [Hbk _].
    rewrite Hbk, str_lt_irrefl in Ha. done.
  - destruct (str_lt_trichotomy (Moray.key a) (Moray.key b))
      as [[Ka Kb] | [(Keq & Ka & Kb) | [Kb Ka]]]; rewrite Ka, Kb.
    + split; [done |]. split; [done |]. intros [_ Hk].
      rewrite Hk, str_lt_irrefl in Ka. done.
    + done.
    + split; [done |]. split; [done |]. intros [_ Hk].
      rewrite Hk, str_lt_irrefl in Kb. done.
  - split; [done |]. split; [done |]. intros [Hbk _].
    rewrite Hbk, str_lt_irrefl in Hb. done.
Qed.

(** X2: the batch [commitBatch] sends holds exactly the requests it was
    given: none is lost, none is added, none is sent twice. *)
Theorem ordered_batch_permutation (batch : list request) :
  ordered_batch batch ≡ₚ batch.
Proof.
  unfold ordered_batch. rewrite split_batch_filter.
  unfold Array_sort. rewrite merge_sort_Permutation.
  induction batch as [| r batch IH]; [done |].
  destruct (decide (on_portolan r)) as [Hr | Hr].
  - rewrite (filter_cons_False _ r) by (intros H; by apply H).
    rewrite (filter_cons_True on_portolan r) by done.
    rewrite <- Permutation_middle. by constructor.
  - rewrite (filter_cons_True _ r) by done.
    rewrite (filter_cons_False on_portolan r) by done.
    simpl. by constructor.
Qed.

(** X3: the lock order does not depend on the order of submission.  Two
    batches with the same requests, in which no two topology requests
    share a bucket and key, are sent with their topology requests in the
    same order; each keeps its own order of event-sink requests. *)
Theorem ordered_batch_deterministic (batch1 batch2 : list request) :
  batch1 ≡ₚ batch2 →
  (∀ r1 r2, r1 ∈ batch1 → r2 ∈ batch1 →
            ¬ on_portolan r1 → ¬ on_portolan r2 →
            bucket r1 = bucket r2 → Moray.key r1 = Moray.key r2 → r1 = r2) →
  ∃ topology,
    ordered_batch batch1 = topology ++ filter on_portolan batch1
    ∧ ordered_batch batch2 = topology ++ filter on_portolan batch2.
Proof.
  intros Hperm Hdistinct.
  exists (Array_sort compareRequests (filter (λ r, ¬ on_portolan r) batch1)).
  unfold ordered_batch. rewrite !split_batch_filter. split; [done |].
  f_equal. symmetry. unfold Array_sort.
  apply (StronglySorted_unique_strong (sorts_before compareRequests)).
  - intros r1 r2 Hr1 Hr2 H12 H21.
    rewrite merge_sort_Permutation in Hr1, Hr2.
    apply list_elem_of_filter in Hr1 as [Hn1 Hr1].
    apply list_elem_of_filter in Hr2 as [Hn2 Hr2].
    apply compareRequests_before in H12, H21.
    destruct H12 as [H12 | [Hb Hk12]], H21 as [H21 | [Hb' Hk21]].
    + pose proof (str_lt_trans _ _ _ H12 H21) as Habs.
      by rewrite str_lt_irrefl in Habs.
    + rewrite Hb', str_lt_irrefl in H12. done.
    + rewrite Hb, str_lt_irrefl in H21. done.
    + rewrite <- Hperm in Hr2.
      apply (Hdistinct r1 r2 Hr1 Hr2 Hn1 Hn2 Hb).
      by apply (anti_symm String.le).
  - apply (StronglySorted_merge_sort _).
  - apply (StronglySorted_merge_sort _).
  - rewrite !merge_sort_Permutation. by rewrite Hperm.
Qed.

(** ** [ldapFilter]: what becomes of the fields of a query *)

Lemma set_cons (o : props) (k : string) (v : jsval) :
  ∃ k0 v0 o0, JS.set o k v = (k0, v0) :: o0.
Proof.
  destruct o as [| [k' v'] o]; simpl; [eauto |].
  destruct (String.eqb k' k); eauto.
Qed.

Lemma keys_set_value (o : props) (k : string) (v v' : jsval) :
  keys (JS.set o k v) = keys (JS.set o k v').
Proof.
  unfold keys. induction o as [| [k0 v0] o IH]; simpl; [done |].
  destruct (String.eqb k0 k); simpl; [done | f_equal; apply IH].
Qed.

Lemma foldl_ext_result {A B} (f g : A → B → A) (l : list B) (a : A) :
  (∀ a b, b ∈ l → f a b = g a b) → foldl f a l = foldl g a l.
Proof.
  revert a. induction l as [| b l IH]; intros a Hfg; simpl; [done |].
  rewrite Hfg by by left. apply IH. intros a' b' Hb'. apply Hfg. by right.
Qed.

(** X4: fields that are not indexed are dropped without an error.  A query
    without a [filter] property, none of whose fields is indexed in the
    bucket, gives the empty filter. *)
Theorem ldapFilter_unindexed `{Externals} (inObj : props)
    (bucket : bucket_obj) :
  hasOwnProperty inObj "filter" = false →
  (∀ k, k ∈ keys inObj → k ∉ index bucket) →
  ldapFilter (VObj inObj) (Some bucket) = Ok (VStr EmptyString).
Proof.
  intros Hfilter Hkeys. unfold ldapFilter. simpl.
  destruct inObj as [| [k v] inObj]; [by rewrite hashEmpty_empty |].
  rewrite hashEmpty_property, Hfilter. simpl andb. cbv iota.
  assert (∀ ks arr,
            (∀ k', k' ∈ ks → k' ∉ index bucket) →
            foldl (λ acc i, arr0 ← acc;
                            filterBy_step ((k, v) :: inObj) (Some bucket) arr0 i)
                  (Ok arr) ks = Ok arr) as Hfold.
  { induction ks as [| k' ks IH]; intros arr Hks; simpl; [done |].
    unfold filterBy_step at 2. unfold not_indexed.
    rewrite bool_decide_eq_false_2 by (apply Hks; by left). simpl.
    apply IH. intros k'' Hk''. apply Hks. by right. }
  rewrite Hfold by exact Hkeys. reflexivity.
Qed.

(** A string with a comma is split before it is used. *)
Lemma ldapFilter_split_commas `{Externals} (inObj : props)
    (bucket : option bucket_obj) (k s : string) :
  k ≠ "filter" →
  indexOf s "," ≠ -1 →
  ldapFilter (VObj (JS.set inObj k (VStr s))) bucket
  = ldapFilter (VObj (JS.set inObj k (VArr (VStr <$> split_commas s)))) bucket.
Proof.
  intros Hk Hcomma. unfold ldapFilter. simpl.
  destruct (set_cons inObj k (VStr s)) as (k1 & v1 & o1 & E1).
  destruct (set_cons inObj k (VArr (VStr <$> split_commas s)))
    as (k2 & v2 & o2 & E2).
  rewrite E1, E2, !hashEmpty_property. rewrite <- E1, <- E2.
  unfold hasOwnProperty, get. rewrite !own_set_ne by done.
  destruct (own inObj "filter"); simpl; [done |].
  rewrite (keys_set_value inObj k (VStr s) (VArr (VStr <$> split_commas s))).
  erewrite foldl_ext_result; [reflexivity |].
  intros acc i _. destruct acc as [arr | |]; simpl; try done.
  unfold filterBy_step. destruct (not_indexed bucket i); [done |].
  unfold get. destruct (decide (k = i)) as [<- | Hne].
  - rewrite !own_set_eq.
    destruct (Z.eqb_spec (indexOf s ",") (-1)); [done |]. reflexivity.
  - by rewrite !own_set_ne.
Qed.

(** Strings, one character at a time. *)
Lemma str_app_nil (s : string) : EmptyString +:+ s = s.
Proof. reflexivity. Qed.

Lemma str_app_cons (c : Ascii.ascii) (a b : string) :
  String c a +:+ b = String c (a +:+ b).
Proof. reflexivity. Qed.

Lemma str_app_nil_r (s : string) : s +:+ EmptyString = s.
Proof.
  induction s as [| c s IH]; [done |]. by rewrite str_app_cons, IH.
Qed.

Lemma str_app_assoc (a b c : string) : (a +:+ b) +:+ c = a +:+ (b +:+ c).
Proof.
  induction a as [| x a IH]; [done |]. by rewrite !str_app_cons, IH.
Qed.

Lemma rev_app_rev (s1 s2 : string) :
  String.rev_app s1 s2 = String.rev s1 +:+ s2.
Proof.
  revert s2. induction s1 as [| c s1 IH]; intros s2; [done |].
  unfold String.rev. simpl. rewrite !IH, str_app_assoc. done.
Qed.

Lemma rev_cons (c : Ascii.ascii) (s : string) :
  String.rev (String c s) = String.rev s +:+ String c EmptyString.
Proof. unfold String.rev at 1. simpl. apply rev_app_rev. Qed.

Lemma rev_app (a b : string) :
  String.rev (a +:+ b) = String.rev b +:+ String.rev a.
Proof.
  induction a as [| c a IH].
  - by rewrite str_app_nil, str_app_nil_r.
  - by rewrite str_app_cons, !rev_cons, IH, str_app_assoc.
Qed.

Lemma rev_rev (s : string) : String.rev (String.rev s) = s.
Proof.
  induction s as [| c s IH]; [done |]. by rewrite rev_cons, rev_app, IH.
Qed.

Lemma every_app (P : Ascii.ascii → bool) (a b : string) :
  every P (a +:+ b) = every P a && every P b.
Proof.
  induction a as [| c a IH]; [done |].
  rewrite str_app_cons. simpl. by rewrite IH, andb_assoc.
Qed.

Lemma every_rev (P : Ascii.ascii → bool) (s : string) :
  every P (String.rev s) = every P s.
Proof.
  induction s as [| c s IH]; [done |].
  rewrite rev_cons, every_app, IH. simpl.
  by rewrite andb_true_r, andb_comm.
Qed.

Lemma every_impl (P Q : Ascii.ascii → bool) (s : string) :
  (∀ c, P c = true → Q c = true) → every P s = true → every Q s = true.
Proof.
  intros HPQ. induction s as [| c s IH]; simpl; [done |].
  intros [Hc Hs]%andb_true_iff. by rewrite (HPQ c Hc), IH.
Qed.

(** The white space the model strips is the white space of ASCII. *)
Lemma is_space_white (c : Ascii.ascii) : Ascii.is_space c = is_white c.
Proof. by destruct c as [[] [] [] [] [] [] [] []]. Qed.

Lemma white_no_comma (s : string) : white s = true → no_comma s = true.
Proof.
  apply every_impl. intros c.
  by destruct c as [[] [] [] [] [] [] [] []].
Qed.

Lemma no_comma_app (a b : string) :
  no_comma (a +:+ b) = no_comma a && no_comma b.
Proof. apply every_app. Qed.

Lemma lstrip_white (w s : string) :
  white w = true → lstrip (w +:+ s) = lstrip s.
Proof.
  induction w as [| c w IH]; [done |]. unfold white in *. cbn [every].
  intros [Hc Hw]%andb_true_iff.
  rewrite str_app_cons. cbn [lstrip]. rewrite is_space_white, Hc. by apply IH.
Qed.

Lemma lstrip_bare (s : string) : starts_bare s = true → lstrip s = s.
Proof.
  destruct s as [| c s]; [done |]. simpl.
  rewrite is_space_white. by intros ->%negb_true_iff.
Qed.

Lemma lstrip_all_white (w : string) :
  white w = true → lstrip w = EmptyString.
Proof.
  intros Hw. rewrite <- (str_app_nil_r w). by rewrite lstrip_white.
Qed.

Lemma rstrip_white (s w : string) :
  ends_bare s = true → white w = true → rstrip (s +:+ w) = s.
Proof.
  intros Hs Hw. unfold rstrip.
  rewrite rev_app, lstrip_white by (unfold white; by rewrite every_rev).
  by rewrite lstrip_bare, rev_rev.
Qed.

(** A piece between two commas, with the white space around it. *)
Lemma strip_piece (after piece before : string) :
  white after = true → white before = true →
  starts_bare piece = true → ends_bare piece = true →
  rstrip (lstrip ((after +:+ piece) +:+ before)) = piece.
Proof.
  intros Hafter Hbefore Hstart Hend.
  rewrite str_app_assoc, lstrip_white by done.
  destruct piece as [| c piece].
  - rewrite str_app_nil, lstrip_all_white by done. reflexivity.
  - rewrite lstrip_bare; [by apply rstrip_white |].
    by rewrite str_app_cons.
Qed.

Lemma split_on_cons (c : Ascii.ascii) (s : string) :
  ∃ h t, split_on c s = h :: t.
Proof.
  induction s as [| x s (h & t & IH)]; simpl; [eauto |].
  destruct (Ascii.eqb x c); [eauto |]. rewrite IH. eauto.
Qed.

Lemma split_on_no_comma (s : string) :
  no_comma s = true → split_on "," s = [s].
Proof.
  induction s as [| x s IH]; [done |]. unfold no_comma in *. cbn [every].
  intros [Hx Hs]%andb_true_iff. apply negb_true_iff in Hx.
  cbn [split_on]. by rewrite Hx, IH.
Qed.

Lemma split_on_comma (a b : string) :
  no_comma a = true →
  split_on "," (a +:+ "," +:+ b) = a :: split_on "," b.
Proof.
  induction a as [| x a IH]; [done |]. unfold no_comma in *. cbn [every].
  intros [Hx Ha]%andb_true_iff. apply negb_true_iff in Hx.
  rewrite str_app_cons. cbn [split_on]. by rewrite Hx, IH.
Qed.

Lemma comma_join_app (w first : string)
    (rest : list (string * string * string)) :
  w +:+ comma_join first rest = comma_join (w +:+ first) rest.
Proof.
  destruct rest as [| [[before after] piece] rest]; [done |].
  simpl. by rewrite str_app_assoc.
Qed.

(** The pieces between the commas of a joined string, as they are before
    the white space is taken off. *)
Fixpoint raw_pieces (first : string) (rest : list (string * string * string))
    : list string :=
  match rest with
  | [] => [first]
  | (before, after, piece) :: rest' =>
      (first +:+ before) :: raw_pieces (after +:+ piece) rest'
  end.

Lemma split_on_comma_join (w first : string)
    (rest : list (string * string * string)) :
  white w = true → comma_separated first rest = true →
  split_on "," (comma_join (w +:+ first) rest) = raw_pieces (w +:+ first) rest.
Proof.
  revert w first.
  induction rest as [| [[before after] piece] rest IH]; intros w first Hw.
  - simpl. rewrite andb_true_r. intros Hfirst.
    apply split_on_no_comma.
    by rewrite no_comma_app, (white_no_comma w Hw).
  - cbn [comma_separated comma_join raw_pieces].
    rewrite !andb_true_iff.
    intros (Hfirst & (((_ & Hbefore) & Hafter) & _) & Hrest).
    rewrite <- str_app_assoc, comma_join_app.
    rewrite split_on_comma.
    + f_equal. by apply IH.
    + by rewrite !no_comma_app, (white_no_comma w Hw), Hfirst,
        (white_no_comma _ Hbefore).
Qed.

Lemma raw_pieces_length (first : string)
    (rest : list (string * string * string)) :
  length (raw_pieces first rest) = S (length rest).
Proof.
  revert first. induction rest as [| [[before after] piece] rest IH];
    intros first; [done |].
  simpl. by rewrite IH.
Qed.

(** Taking the white space off the pieces after the first. *)
Lemma strip_raw_pieces (total k : nat) (after piece : string)
    (rest : list (string * string * string)) :
  white after = true → starts_bare piece = true →
  comma_separated piece rest = true →
  total = (S k + S (length rest))%nat →
  imap (λ i p,
          let p := if decide ((S k + i)%nat = 0%nat) then p else lstrip p in
          if decide (S (S k + i) = total) then p else rstrip p)
       (raw_pieces (after +:+ piece) rest)
  = piece :: rest.*2.
Proof.
  revert k after piece.
  induction rest as [| [[before after'] piece'] rest IH];
    intros k after piece Hafter Hstart Hsep Htotal.
  - cbn [raw_pieces imap fmap list_fmap length] in *.
    repeat case_decide; try lia.
    by rewrite lstrip_white, lstrip_bare.
  - cbn [comma_separated] in Hsep. rewrite !andb_true_iff in Hsep.
    destruct Hsep as (_ & ((((Hend & Hbefore) & Hafter') & Hstart') & Hrest)).
    cbn [raw_pieces imap fmap list_fmap length] in *. f_equal.
    + repeat case_decide; try lia. by apply strip_piece.
    + etrans; [| apply (IH (S k) after' piece' Hafter' Hstart' Hrest); lia].
      apply imap_ext. intros i p _. unfold compose. cbv zeta.
      repeat case_decide; try lia; reflexivity.
Qed.

(** What [split(/\s*,\s*/)] makes of a joined string: its pieces. *)
Lemma split_commas_join (first : string)
    (rest : list (string * string * string)) :
  comma_separated first rest = true →
  split_commas (comma_join first rest) = first :: rest.*2.
Proof.
  intros Hsep. unfold split_commas.
  pose proof (split_on_comma_join EmptyString first rest eq_refl Hsep)
    as Hsplit.
  rewrite !str_app_nil in Hsplit. rewrite Hsplit. clear Hsplit.
  rewrite raw_pieces_length.
  destruct rest as [| [[before after] piece] rest]; [done |].
  cbn [comma_separated] in Hsep. rewrite !andb_true_iff in Hsep.
  destruct Hsep as (_ & ((((Hend & Hbefore) & Hafter) & Hstart) & Hrest)).
  cbn [raw_pieces imap fmap list_fmap length]. f_equal.
  - repeat case_decide; try lia. by apply rstrip_white.
  - etrans; [| apply (strip_raw_pieces (S (S (length rest))) 0 after piece
                         rest Hafter Hstart Hrest eq_refl)].
    apply imap_ext. intros i p _. unfold compose. cbv zeta.
    repeat case_decide; try lia; reflexivity.
Qed.

Lemma comma_join_contains (first : string)
    (rest : list (string * string * string)) :
  rest ≠ [] → contains (comma_join first rest) ",".
Proof.
  destruct rest as [| [[before after] piece] rest]; [done |]. intros _.
  exists (first +:+ before), (after +:+ comma_join piece rest).
  simpl. by rewrite str_app_assoc.
Qed.

(** X5: a string of comma-separated values stands for the list of its
    pieces.  For a text of ASCII characters made of two or more pieces
    without a comma, with a comma and any white space between two
    pieces, the filter is the same as for the list of the pieces, for
    every field but [filter].  White space at the start of the first
    piece and at the end of the last belongs to the piece. *)
Theorem ldapFilter_comma_list `{Externals} (inObj : props)
    (bucket : option bucket_obj) (k first : string)
    (rest : list (string * string * string)) :
  k ≠ "filter" →
  rest ≠ [] →
  comma_separated first rest = true →
  ascii_text (comma_join first rest) = true →
  ldapFilter (VObj (JS.set inObj k (VStr (comma_join first rest)))) bucket
  = ldapFilter (VObj (JS.set inObj k (VArr (VStr <$> first :: rest.*2))))
      bucket.
Proof.
  intros Hk Hrest Hsep _.
  rewrite <- (split_commas_join first rest Hsep).
  apply ldapFilter_split_commas; [done |].
  apply indexOf_contains; [done |]. by apply comma_join_contains.
Qed.

Lemma alternative_Ok_or_Throw (i : string) (e : jsval) :
  (∃ s, alternative i e = Ok s)
  ∨ alternative i e = Throw "TypeError: substr is not a function".
Proof.
  destruct e; simpl; auto. left.
  destruct s as [| c s]; [eauto |].
  destruct (Ascii.ascii_dec c "!") as [-> | Hc]; [eauto |].
  destruct c as [[] [] [] [] [] [] [] []]; eauto; done.
Qed.

Lemma mapM_alternative_throw (i : string) (l : list jsval) (e : jsval) :
  e ∈ l → (∀ s, e ≠ VStr s) →
  mapM (alternative i) l = Throw "TypeError: substr is not a function".
Proof.
  intros He Hstr. induction l as [| x l IH]; [by inversion He |].
  simpl. apply elem_of_cons in He as [<- | He].
  - destruct e; simpl; try done. by destruct (Hstr s).
  - rewrite (IH He).
    by destruct (alternative_Ok_or_Throw i x) as [[s ->] | ->].
Qed.

Lemma mapM_alternative_Ok_or_Throw (i : string) (l : list jsval) :
  (∃ alts, mapM (alternative i) l = Ok alts)
  ∨ mapM (alternative i) l = Throw "TypeError: substr is not a function".
Proof.
  induction l as [| x l IH]; simpl; [left; by eexists |].
  destruct (alternative_Ok_or_Throw i x) as [[s ->] | ->]; [| by right].
  destruct IH as [[alts ->] | ->]; [left; by eexists | by right].
Qed.

Lemma imap_values {A} (g : nat → string) (l : list A) :
  (imap (λ i x, (g i, x)) l).*2 = l.
Proof.
  revert g. induction l as [| x l IH]; intros g; [done |].
  simpl. f_equal. apply (IH (g ∘ S)).
Qed.

Lemma filterBy_step_Ok_or_Throw (inObj : props) (bucket : option bucket_obj)
    (arr : list string) (i : string) :
  (∃ arr', filterBy_step inObj bucket arr i = Ok arr')
  ∨ filterBy_step inObj bucket arr i
    = Throw "TypeError: substr is not a function".
Proof.
  unfold filterBy_step. destruct (not_indexed bucket i); [left; by eexists |].
  destruct (String.eqb (typeof _) "object"); [| left; by eexists].
  match goal with |- context [mapM (alternative i) ?l] =>
    destruct (mapM_alternative_Ok_or_Throw i l) as [[alts ->] | ->] end;
    [left; by eexists | by right].
Qed.

(** X6: a list of alternatives may only hold strings.  When an indexed
    field of the query holds a list with an element that is not a string,
    [ldapFilter] throws a [TypeError] instead of returning a filter. *)
Theorem ldapFilter_list_type_error `{Externals} (inObj : props)
    (bucket : option bucket_obj) (k : string) (l : list jsval) (e : jsval) :
  hasOwnProperty inObj "filter" = false →
  own inObj k = Some (VArr l) →
  not_indexed bucket k = false →
  e ∈ l →
  (∀ s, e ≠ VStr s) →
  ldapFilter (VObj inObj) bucket
  = Throw "TypeError: substr is not a function".
Proof.
  intros Hfilter Hk Hindexed He Hstr. unfold ldapFilter. simpl.
  destruct inObj as [| [k0 v0] inObj]; [done |].
  rewrite hashEmpty_property, Hfilter. simpl andb. cbv iota.
  set (o := (k0, v0) :: inObj) in *.
  assert (k ∈ keys o) as Hin.
  { clear -Hk. unfold keys. induction o as [| [k1 v1] o IH]; [done |].
    simpl in *. destruct (String.eqb_spec k1 k) as [-> | Hne];
      [by left | right; by apply IH]. }
  assert (∀ ks acc,
            acc = Throw "TypeError: substr is not a function"
            ∨ ((∃ arr, acc = Ok arr) ∧ k ∈ ks) →
            foldl (λ acc i, arr0 ← acc; filterBy_step o bucket arr0 i) acc ks
            = Throw "TypeError: substr is not a function") as Hfold.
  { induction ks as [| i ks IH]; intros acc Hacc; simpl.
    - destruct Hacc as [-> | [_ Hnil]]; [done | by inversion Hnil].
    - apply IH. destruct Hacc as [-> | [[arr ->] Hi]]; [by left |]. simpl.
      destruct (decide (i = k)) as [-> | Hne].
      + left. unfold filterBy_step. rewrite Hindexed. unfold get.
        rewrite Hk. simpl. rewrite imap_values.
        by rewrite (mapM_alternative_throw k l e He Hstr).
      + apply elem_of_cons in Hi as [-> | Hi]; [done |].
        destruct (filterBy_step_Ok_or_Throw o bucket arr i) as [[arr' ->] | ->];
          [right; split; [by eexists | done] | by left]. }
  rewrite Hfold; [done |]. right. split; [by eexists | done].
Qed.

(** ** The store wrappers *)

(** X7: deleting through [delObj].  A missing row gives a 404
    [ResourceNotFoundError] named after the bucket and leaves the store as
    it is; an existing row is removed, after which [getObj] gives that
    same not-found error, and no other row is touched. *)
Theorem delObj_then_getObj (m : moray) (bucket : bucket_obj) (key : string) :
  match objects m !! (name bucket, key) with
  | None =>
      delObj m bucket key
      = (Err (ResourceNotFoundError (desc bucket +:+ " not found")), m)
  | Some _ =>
      ∃ m',
        delObj m bucket key = (Ok (), m')
        ∧ getObj m' bucket key
          = Err (ResourceNotFoundError (desc bucket +:+ " not found"))
        ∧ statusCode (ResourceNotFoundError (desc bucket +:+ " not found"))
          = Some 404
        ∧ ∀ bk, bk ≠ (name bucket, key) → objects m' !! bk = objects m !! bk
  end.
Proof.
  unfold delObj, delObject.
  destruct (objects m !! (name bucket, key)) as [r |] eqn:Hrow; [| done].
  eexists. split; [reflexivity |]. unfold getObj, getObject. simpl.
  rewrite lookup_delete_eq. split_and!; [done | done |].
  intros bk Hbk. by rewrite lookup_delete_ne.
Qed.

Lemma merge_val_own (remove : jsval) (val stored : props) (k : string) :
  own (merge_val remove val stored) k
  = if bool_decide (k ∈ keys val)
    then (if truthy remove then None else Some (get val k))
    else own stored k.
Proof.
  unfold merge_val. generalize (keys val) as ks. intros ks. revert stored.
  induction ks as [| k0 ks IH]; intros stored; simpl; [done |].
  rewrite IH. destruct (decide (k ∈ ks)) as [Hin | Hnin].
  - rewrite !bool_decide_eq_true_2; [done | by right | done].
  - rewrite (bool_decide_eq_false_2 (k ∈ ks)) by done.
    destruct (decide (k = k0)) as [-> | Hne].
    + rewrite bool_decide_eq_true_2 by by left.
      destruct (truthy remove); [apply own_del_eq | apply own_set_eq].
    + rewrite bool_decide_eq_false_2.
      * destruct (truthy remove);
          [by apply own_del_ne | by apply own_set_ne].
      * intros Hk. apply elem_of_cons in Hk as [? | ?]; done.
Qed.

(** X8: [updateObj] without [replace] works on the stored row.  When there
    is no row it fails with the 404 error of the bucket and writes
    nothing.  Otherwise the row is rewritten: with [remove] every key of
    [val] is deleted from it, without [remove] every key of [val] takes
    the value [val] gives it, and every other key keeps its value.  This
    is for a [val] without a property named [__proto__]: an assignment
    to that name sets the prototype and adds no property. *)
Theorem updateObj_merge (opts : update_opts) (m : moray) :
  truthy (u_replace opts) = false →
  "__proto__" ∉ keys (u_val opts) →
  match objects m !! (name (u_bucket opts), u_key opts) with
  | None =>
      updateObj opts m
      = (Err (ResourceNotFoundError
                (desc (u_bucket opts) +:+ " not found")), m)
  | Some r =>
      ∃ value' m',
        updateObj opts m = (Ok (Row value' (_etag r)), m')
        ∧ objects m' !! (name (u_bucket opts), u_key opts)
          = Some (Row value' (next_etag m))
        ∧ ∀ k, own value' k
               = if bool_decide (k ∈ keys (u_val opts))
                 then (if truthy (u_remove opts) then None
                       else Some (get (u_val opts) k))
                 else own (row_value r) k
  end.
Proof.
  intros Hreplace _. unfold updateObj. rewrite Hreplace.
  unfold getObj, getObject.
  destruct (objects m !! (name (u_bucket opts), u_key opts)) as [r |] eqn:Hrow;
    [| done].
  unfold putObject, etag_ok. simpl.
  eexists _, _. split; [reflexivity |]. simpl.
  split; [apply lookup_insert_eq |]. apply merge_val_own.
Qed.

(** X9: [updateObj] with [replace] does not read the row: it writes [val]
    as the whole row, creating the row when there is none, and hands back
    a record without etag. *)
Theorem updateObj_replace (opts : update_opts) (m : moray) :
  truthy (u_replace opts) = true →
  ∃ m',
    updateObj opts m = (Ok (Row (u_val opts) VUndefined), m')
    ∧ objects m' !! (name (u_bucket opts), u_key opts)
      = Some (Row (u_val opts) (next_etag m))
    ∧ ∀ bk, bk ≠ (name (u_bucket opts), u_key opts) →
            objects m' !! bk = objects m !! bk.
Proof.
  intros Hreplace. unfold updateObj, putObject, etag_ok. rewrite Hreplace.
  eexists. split; [reflexivity |]. simpl.
  split; [apply lookup_insert_eq |]. intros bk Hbk. by apply lookup_insert_ne.
Qed.

(** ** The IP object and its stored form *)

(** X10: the stored form of an address.  [raw] never holds the network
    object, the network UUID, the etag or [free]; it holds the address
    under exactly one of [ipaddr] (with the version [v = 2]) and [ip],
    as [use_strings] says, and the key of the row is that address written
    as a string. *)
Theorem raw_shape (self : IP) :
  IP_wf self →
  ∃ v a,
    raw self = Ok v
    ∧ get (IPCommon.params self) "ip" = VAddr a
    ∧ own v "network" = None
    ∧ own v "network_uuid" = None
    ∧ own v "etag" = None
    ∧ own v "free" = None
    ∧ own v "reserved"
      = Some (VBool (truthy (get (IPCommon.params self) "reserved")))
    ∧ (if truthy (use_strings self)
       then own v "ipaddr" = Some (VStr (toString a))
            ∧ own v "ip" = None
            ∧ own v "v" = Some (VNum 2)
            ∧ IPCommon.key self = Ok (toString a)
       else own v "ip" = Some (VNum (toLong a))
            ∧ own v "ipaddr" = None
            ∧ own v "v" = None
            ∧ IPCommon.key self = Ok (to_str (VNum (toLong a)))).
Proof.
  intros ([a Ha] & _). unfold raw, IPCommon.key, getIPKey. rewrite Ha.
  eexists _, a. split; [reflexivity |]. split; [done |].
  unfold copy_optional, OPTIONAL_PARAMS. simpl.
  destruct (hasOwnProperty (IPCommon.params self) "belongs_to_type"),
           (hasOwnProperty (IPCommon.params self) "belongs_to_uuid"),
           (hasOwnProperty (IPCommon.params self) "owner_uuid"),
           (truthy (use_strings self));
    simpl; split_and!; reflexivity.
Qed.

Lemma contains_tail (c : Ascii.ascii) (s sub : string) :
  contains s sub → contains (String c s) sub.
Proof. intros (pre & post & ->). by exists (String c pre), post. Qed.

Lemma contains_head (c : Ascii.ascii) (s : string) :
  contains (String c s) (String c EmptyString).
Proof. by exists EmptyString, s. Qed.

Lemma replace_dash_injective (u1 u2 : string) :
  ¬ contains u1 "_" → ¬ contains u2 "_" →
  replace_all "-" "_" u1 = replace_all "-" "_" u2 → u1 = u2.
Proof.
  revert u2. induction u1 as [| c1 u1 IH]; intros [| c2 u2] H1 H2 Heq;
    simpl in Heq; try done.
  injection Heq as Hc Hu.
  assert (c1 ≠ "_"%char) as Hc1.
  { intros ->. apply H1, contains_head. }
  assert (c2 ≠ "_"%char) as Hc2.
  { intros ->. apply H2, contains_head. }
  f_equal.
  - destruct (Ascii.eqb_spec c1 "-"), (Ascii.eqb_spec c2 "-"); congruence.
  - apply IH; [| | done].
    + intros H. by apply H1, contains_tail.
    + intros H. by apply H2, contains_tail.
Qed.

Lemma replace_dash_no_dash (u : string) :
  ¬ contains (replace_all "-" "_" u) "-".
Proof.
  induction u as [| c u IH]; intros (pre & post & Heq).
  - by destruct pre.
  - simpl in Heq. destruct pre as [| p pre].
    + injection Heq as Hc _.
      destruct (Ascii.eqb_spec c "-"); [done | congruence].
    + injection Heq as _ Hu. apply IH. by exists pre, post.
Qed.

(** X11: networks do not share a bucket.  The bucket names of two network
    UUIDs written without underscore are equal only if the UUIDs are
    equal; the part of a bucket name after [napi_ips_] has no dash. *)
Theorem bucketName_injective (u1 u2 : string) :
  ¬ contains u1 "_" → ¬ contains u2 "_" →
  (bucketName (VStr u1) = bucketName (VStr u2) → u1 = u2)
  ∧ ∃ rest, bucketName (VStr u1) = Ok ("napi_ips_" +:+ rest)
            ∧ ¬ contains rest "-"
            ∧ String.length rest = String.length u1.
Proof.
  intros H1 H2. split.
  - unfold bucketName. intros [= Heq].
    apply (replace_dash_injective u1 u2 H1 H2).
    exact Heq.
  - exists (replace_all "-" "_" u1). split_and!; [done | |].
    + apply replace_dash_no_dash.
    + clear. induction u1 as [| c u IH]; simpl; [done | by rewrite IH].
Qed.

(** X12: what the constructor makes of its parameters.  [reserved], when
    given, becomes a boolean: a boolean stays, the string ['true'] becomes
    [true], anything else becomes [false].  The etag is the one given, or
    [null].  The address is parsed from [ipaddr] when that is set and from
    [ip] otherwise, and every other parameter is kept as it is. *)
Theorem new_IP_normalises `{Externals} (ps : props) (self : IP) :
  new_IP ps = Ok self →
  own (IPCommon.params self) "reserved"
  = (λ v, VBool match v with
                | VBool b => b
                | VStr s => String.eqb s "true"
                | _ => false
                end) <$> own ps "reserved"
  ∧ etag self = match own ps "etag" with Some e => e | None => VNull end
  ∧ (∃ a, get (IPCommon.params self) "ip" = VAddr a
          ∧ toIPAddr (if truthy (get ps "ipaddr")
                      then get ps "ipaddr" else get ps "ip") = Some a)
  ∧ ∀ k, k ≠ "ip" → k ≠ "reserved" →
         own (IPCommon.params self) k = own ps k.
Proof.
  unfold new_IP.
  destruct (negb (is_object (get ps "network"))); [done |].
  destruct (negb (String.eqb (typeof (get ps "network_uuid")) "string"));
    [done |].
  set (ip := if truthy (get ps "ipaddr") then _ else _).
  destruct (truthy ip) eqn:Hip; simpl; [| done].
  assert (∃ a, ip = VAddr a
               ∧ toIPAddr (if truthy (get ps "ipaddr")
                           then get ps "ipaddr" else get ps "ip") = Some a)
    as (a & Ha & Hparse).
  { subst ip. destruct (truthy (get ps "ipaddr"));
      match goal with |- context [toIPAddr ?v] =>
        destruct (toIPAddr v); simpl in *; [by eexists | done] end. }
  assert (own (JS.set ps "ip" ip) "reserved" = own ps "reserved") as Hres
    by by apply own_set_ne.
  assert (own (JS.set ps "ip" ip) "etag" = own ps "etag") as Hetag
    by by apply own_set_ne.
  assert (∀ o, own o "etag" = own ps "etag" →
            (if hasOwnProperty o "etag" then get o "etag" else VNull)
            = match own ps "etag" with Some e => e | None => VNull end)
    as Hetag'.
  { intros o Ho. unfold hasOwnProperty, get. rewrite Ho.
    by destruct (own ps "etag"). }
  intros [= <-]. cbn [IPCommon.params etag].
  match goal with |- own ?p "reserved" = _ ∧ _ => set (params2 := p) end.
  assert (∀ k, k ≠ "reserved" → own params2 k = own (JS.set ps "ip" ip) k)
    as Hother.
  { intros k Hk. subst params2. destruct (_ && _); [| done].
    by rewrite own_set_ne. }
  split_and!.
  - subst params2. unfold hasOwnProperty, get. rewrite Hres.
    destruct (own ps "reserved") as [r |] eqn:Hr; simpl; [| by rewrite Hres].
    destruct (String.eqb (typeof r) "boolean") eqn:Hbool; simpl.
    + rewrite Hres. by destruct r.
    + rewrite own_set_eq. by destruct r.
  - apply Hetag'. by rewrite Hother.
  - exists a. unfold get. by rewrite Hother, own_set_eq, Ha.
  - intros k Hk Hk'. by rewrite Hother, own_set_ne.
Qed.

(** X13: a free address can be provisioned.  When the serialized form of
    an IP says [free: true], [provisionable()] is true. *)
Theorem free_provisionable `{Externals} (self : IP) (ser : props) :
  serialize self = Ok ser →
  own ser "free" = Some (VBool true) →
  provisionable self = true.
Proof.
  unfold serialize, provisionable.
  destruct (get (IPCommon.params self) "ip"); try done.
  destruct (member_of _ "uuid") as [network_uuid | |]; try done.
  rewrite bind_Ok. intros [= <-].
  unfold serialize_optional, OPTIONAL_PARAMS, hasOwnProperty, get. simpl.
  destruct (own (IPCommon.params self) "belongs_to_type"); simpl.
  - destruct (own (IPCommon.params self) "belongs_to_uuid"),
             (own (IPCommon.params self) "owner_uuid"); simpl; done.
  - intros _. by rewrite orb_true_r.
Qed.

(** ** Creating, reading and deleting addresses *)

(** X14: an address is created once.  When the row is not there,
    [createIP] writes it and hands back the IP with the etag of the row;
    the same create, tried again, fails with an etag conflict and leaves
    the row of the first. *)
Theorem createIP_once `{Externals} (validated : props) (m : moray)
    (self : IP) (nu b k : string) (v : props) :
  new_IP validated = Ok self →
  member (get validated "network") "uuid" = VStr nu →
  bucketName (VStr nu) = Ok b →
  IPCommon.key self = Ok k →
  raw self = Ok v →
  objects m !! (b, k) = None →
  ∃ res_etag m',
    createIP (Ok validated) m
    = (Ok (MkIP (IPCommon.params self) res_etag (use_strings self)), m')
    ∧ objects m' !! (b, k) = Some (Row v res_etag)
    ∧ createIP (Ok validated) m' = (Err EtagConflictError, m').
Proof.
  intros Hnew Hnu Hb Hk Hv Hfree.
  rewrite (createIP_put validated m self nu b k v Hnew Hnu Hb Hk Hv).
  destruct (putObject_null_free m b k v Hfree) as (m' & -> & Hrow).
  exists (next_etag m), m'. split_and!; [done | done |].
  rewrite (createIP_put validated m' self nu b k v Hnew Hnu Hb Hk Hv).
  by rewrite putObject_null_taken by (by eexists).
Qed.

(** The parameters the constructor keeps as they are. *)
Lemma new_IP_keeps `{Externals} (ps : props) (self : IP) (k : string) :
  new_IP ps = Ok self → k ≠ "ip" → k ≠ "reserved" →
  own (IPCommon.params self) k = own ps k.
Proof.
  unfold new_IP.
  destruct (negb (is_object (get ps "network"))); [done |].
  destruct (negb (String.eqb (typeof (get ps "network_uuid")) "string"));
    [done |].
  destruct (negb (truthy _)); [done |].
  intros [= <-] Hip Hres. cbn [IPCommon.params].
  destruct (_ && _); by rewrite ?own_set_ne.
Qed.

Lemma new_IP_network `{Externals} (ps : props) (self : IP) :
  new_IP ps = Ok self → is_object (get ps "network") = true.
Proof.
  unfold new_IP. by destruct (is_object (get ps "network")).
Qed.

(** Reading the stored form of a well-formed IP. *)
Lemma raw_own (self : IP) (v : props) (a : ipaddr) :
  raw self = Ok v →
  get (IPCommon.params self) "ip" = VAddr a →
  own v "reserved"
  = Some (VBool (truthy (get (IPCommon.params self) "reserved")))
  ∧ own v "ipaddr"
    = (if truthy (use_strings self) then Some (VStr (toString a)) else None)
  ∧ own v "ip"
    = (if truthy (use_strings self) then None else Some (VNum (toLong a)))
  ∧ own v "belongs_to_type" = own (IPCommon.params self) "belongs_to_type"
  ∧ own v "belongs_to_uuid" = own (IPCommon.params self) "belongs_to_uuid"
  ∧ own v "owner_uuid" = own (IPCommon.params self) "owner_uuid".
Proof.
  intros Hv Ha. unfold raw in Hv. rewrite Ha in Hv. injection Hv as <-.
  unfold copy_optional, OPTIONAL_PARAMS, hasOwnProperty, get. simpl.
  destruct (own (IPCommon.params self) "belongs_to_type"),
           (own (IPCommon.params self) "belongs_to_uuid"),
           (own (IPCommon.params self) "owner_uuid"),
           (truthy (use_strings self));
    simpl; split_and!; reflexivity.
Qed.

(** [serialize] looks at the address, the UUID of the network object,
    [reserved] and the three optional parameters, and at nothing else. *)
Lemma serialize_ext (self1 self2 : IP) (a1 a2 : ipaddr) :
  get (IPCommon.params self1) "ip" = VAddr a1 →
  get (IPCommon.params self2) "ip" = VAddr a2 →
  toString a1 = toString a2 →
  get (IPCommon.params self1) "network" = get (IPCommon.params self2) "network" →
  truthy (get (IPCommon.params self1) "reserved")
  = truthy (get (IPCommon.params self2) "reserved") →
  (∀ p, p ∈ OPTIONAL_PARAMS →
        own (IPCommon.params self1) p = own (IPCommon.params self2) p) →
  serialize self1 = serialize self2.
Proof.
  intros H1 H2 Hstr Hnet Hres Hopt. unfold serialize.
  rewrite H1, H2, Hstr, Hnet, Hres.
  destruct (member_of _ "uuid") as [network_uuid | |]; try done.
  rewrite !bind_Ok. f_equal.
  unfold serialize_optional, OPTIONAL_PARAMS, hasOwnProperty, get. simpl.
  rewrite !(Hopt "belongs_to_type"), !(Hopt "belongs_to_uuid"),
    !(Hopt "owner_uuid") by (unfold OPTIONAL_PARAMS; set_solver).
  reflexivity.
Qed.

(** The constructor on parameters read from a row: [reserved] is a
    boolean and the address parses. *)
Lemma new_IP_stored `{Externals} (ps : props) (nu : string) (e : jsval)
    (rb : bool) (a' : ipaddr) :
  is_object (get ps "network") = true →
  get ps "network_uuid" = VStr nu →
  own ps "etag" = Some e →
  own ps "reserved" = Some (VBool rb) →
  toIPAddr (if truthy (get ps "ipaddr") then get ps "ipaddr" else get ps "ip")
  = Some a' →
  new_IP ps
  = Ok (MkIP (JS.set ps "ip" (VAddr a')) e
          (or_else (get ps "use_strings")
             (and_then (get ps "network")
                (member (get ps "network") "ip_use_strings")))).
Proof.
  intros Hnet Hnu Hetag Hres Haddr. unfold new_IP.
  rewrite Hnet, Hnu. simpl.
  assert ((if truthy (get ps "ipaddr")
           then addr_val (toIPAddr (get ps "ipaddr"))
           else addr_val (toIPAddr (get ps "ip"))) = VAddr a') as ->.
  { destruct (truthy (get ps "ipaddr")); by rewrite Haddr. }
  simpl. unfold hasOwnProperty, get.
  rewrite !(own_set_ne ps "ip" "reserved") by done. rewrite Hres. simpl.
  rewrite !(own_set_ne ps "ip") by done. rewrite Hetag. reflexivity.
Qed.

(** X15: a deleted address is free.  When the etag of the existing IP is
    still the one of the row (or there is nothing to compare), and the
    address as it is stored parses back to an address, [deleteIP]
    hands back an IP with the new etag of the row, which serializes as
    free and not reserved and can be provisioned; deleting again with the
    IP handed back succeeds and leaves the same cleared record. *)
Theorem deleteIP_frees `{Externals} (params : props) (existingIP : IP)
    (m : moray) (ip a' : ipaddr) (nu b k : string) :
  toIPAddr (get params "ip") = Some ip →
  is_object (get params "network") = true →
  member (get params "network") "uuid" = VStr nu →
  bucketName (VStr nu) = Ok b →
  getIPKey (member (get params "network") "ip_use_strings") (VAddr ip)
    = Ok k →
  etag_ok (Some (etag existingIP)) (objects m !! (b, k)) = true →
  toIPAddr (if truthy (member (get params "network") "ip_use_strings")
            then VStr (toString ip) else VNum (toLong ip)) = Some a' →
  (truthy (member (get params "network") "ip_use_strings") = true →
   toString ip ≠ EmptyString) →
  ∃ deleted m' ser,
    deleteIP params existingIP m = (Ok deleted, m')
    ∧ etag deleted = next_etag m
    ∧ objects m' !! (b, k)
      = Some (Row (deleted_val
                     (member (get params "network") "ip_use_strings") ip)
                (next_etag m))
    ∧ serialize deleted = Ok ser
    ∧ own ser "free" = Some (VBool true)
    ∧ own ser "reserved" = Some (VBool false)
    ∧ own ser "ip" = Some (VStr (toString a'))
    ∧ provisionable deleted = true
    ∧ ∃ again m'',
        deleteIP params deleted m' = (Ok again, m'')
        ∧ objects m'' !! (b, k)
          = Some (Row (deleted_val
                         (member (get params "network") "ip_use_strings") ip)
                    (next_etag m'))
        ∧ serialize again = Ok ser.
Proof.
  intros Hip Hnet Hnu Hb Hk Hok Hparse Hnonempty.
  set (network := get params "network") in *.
  set (us := member network "ip_use_strings") in *.
  assert (∀ existing m0,
            etag_ok (Some (etag existing)) (objects m0 !! (b, k)) = true →
            ∃ deleted m1,
              deleteIP params existing m0 = (Ok deleted, m1)
              ∧ deleted
                = MkIP (JS.set
                          (JS.set (JS.set (JS.set (deleted_val us ip)
                                             "etag" (next_etag m0))
                                     "network" network)
                             "network_uuid" (VStr nu))
                          "ip" (VAddr a'))
                       (next_etag m0) (and_then network us)
              ∧ objects m1 !! (b, k)
                = Some (Row (deleted_val us ip) (next_etag m0))) as Hdelete.
  { intros existing m0 Hok0. unfold deleteIP. rewrite Hip. cbv beta iota.
    fold network.
    rewrite !(is_object_member_of _ _ Hnet), !bind_Ok.
    fold us. rewrite Hnu, Hb, bind_Ok, Hk, bind_Ok. cbv beta iota.
    unfold putObject. rewrite Hok0.
    eexists _, (Store (<[(b, k) := Row (deleted_val us ip) (next_etag m0)]>
                         (objects m0)) (writes m0 + 1)%N).
    split; [| split; [reflexivity | apply lookup_insert_eq]].
    f_equal. rewrite (new_IP_stored _ nu (next_etag m0) false a').
    - f_equal. unfold deleted_val. by destruct (truthy us).
    - unfold deleted_val. by destruct (truthy us).
    - unfold deleted_val. by destruct (truthy us).
    - unfold deleted_val. by destruct (truthy us).
    - unfold deleted_val. by destruct (truthy us).
    - unfold deleted_val. destruct (truthy us) eqn:Hus; simpl.
      + specialize (Hnonempty eq_refl).
        destruct (String.eqb_spec (toString ip) EmptyString); done.
      + done. }
  destruct (Hdelete existingIP m Hok) as (deleted & m' & Hdel & Hdeleted & Hrow).
  assert (∀ e, serialize
                 (MkIP (JS.set
                          (JS.set (JS.set (JS.set (deleted_val us ip)
                                             "etag" e)
                                     "network" network)
                             "network_uuid" (VStr nu))
                          "ip" (VAddr a'))
                    e (and_then network us))
               = Ok [("ip", VStr (toString a'));
                     ("network_uuid", VStr nu);
                     ("reserved", VBool false);
                     ("free", VBool true)]) as Hser.
  { intros e. unfold serialize, deleted_val. cbn [IPCommon.params].
    destruct (truthy us); js_props;
      rewrite (is_object_member_of _ _ Hnet), bind_Ok;
      fold network; rewrite Hnu; reflexivity. }
  exists deleted, m', [("ip", VStr (toString a'));
                       ("network_uuid", VStr nu);
                       ("reserved", VBool false);
                       ("free", VBool true)].
  split_and!; try done.
  - by subst deleted.
  - subst deleted. apply Hser.
  - subst deleted. unfold provisionable, deleted_val. cbn [IPCommon.params].
    by destruct (truthy us).
  - destruct (Hdelete deleted m') as (again & m'' & Hdel2 & Hagain & Hrow2).
    { rewrite Hrow. subst deleted. unfold etag_ok, next_etag. simpl.
      apply String.eqb_refl. }
    exists again, m''. split_and!; [done | done |].
    subst again. apply Hser.
Qed.

Lemma is_object_truthy (v : jsval) : is_object v = true → truthy v = true.
Proof. by destruct v. Qed.

(** Without a [use_strings] parameter, the constructor takes the flag of
    the network. *)
Lemma new_IP_use_strings `{Externals} (ps : props) (self : IP) :
  new_IP ps = Ok self →
  truthy (get ps "use_strings") = false →
  use_strings self = member (get ps "network") "ip_use_strings".
Proof.
  intros Hnew Hus.
  pose proof (new_IP_network _ _ Hnew) as Hnet.
  pose proof (new_IP_keeps _ _ "use_strings" Hnew) as Hkus.
  pose proof (new_IP_keeps _ _ "network" Hnew) as Hknet.
  unfold new_IP in Hnew. rewrite Hnet in Hnew. simpl in Hnew.
  destruct (negb (String.eqb (typeof (get ps "network_uuid")) "string"));
    [done |].
  destruct (negb (truthy _)); [done |].
  injection Hnew as <-. cbn [IPCommon.params] in *. cbn [use_strings].
  match goal with |- or_else (get ?p _) (and_then (get ?p _) _) = _ =>
    set (params2 := p) in * end.
  unfold get in *. rewrite Hkus, Hknet by done.
  unfold or_else, and_then. rewrite Hus.
  by rewrite (is_object_truthy _ Hnet).
Qed.

(** X16: an address that was created is the one read back.  [getIP] on
    the network and address of a successful [createIP] gives an IP with
    the etag of the create and the same serialized form, given that the
    stored form of the address parses back to it. *)
Theorem createIP_then_getIP `{Externals} (validated params : props)
    (returnObject : jsval) (m : moray) (self : IP) (a a' : ipaddr)
    (nu b k : string) :
  new_IP validated = Ok self →
  get (IPCommon.params self) "ip" = VAddr a →
  truthy (get validated "use_strings") = false →
  member (get validated "network") "uuid" = VStr nu →
  bucketName (VStr nu) = Ok b →
  IPCommon.key self = Ok k →
  objects m !! (b, k) = None →
  get params "network" = get validated "network" →
  get params "network_uuid" = VStr nu →
  toIPAddr (get params "ip") = Some a →
  toIPAddr (if truthy (use_strings self) then VStr (toString a)
            else VNum (toLong a)) = Some a' →
  toString a' = toString a →
  (truthy (use_strings self) = true → toString a ≠ EmptyString) →
  ∃ created m' got,
    createIP (Ok validated) m = (Ok created, m')
    ∧ getIP params returnObject m' = Ok got
    ∧ etag created = next_etag m
    ∧ etag got = etag created
    ∧ serialize got = serialize created.
Proof.
  intros Hnew Ha Hus Hnu Hb Hk Hfree Hpnet Hpnu Hpip Hparse Hstr Hnonempty.
  pose proof (new_IP_network _ _ Hnew) as Hnet.
  pose proof (new_IP_use_strings _ _ Hnew Hus) as Huse.
  destruct (raw_wf self (new_IP_wf _ _ Hnew)) as [v Hv].
  destruct (raw_own self v a Hv Ha)
    as (Hvres & Hvaddr & Hvip & Hvt & Hvu & Hvo).
  rewrite (createIP_put validated m self nu b k v Hnew Hnu Hb Hk Hv).
  destruct (putObject_null_free m b k v Hfree) as (m' & -> & Hrow).
  set (ps := JS.set (JS.set (JS.set v "network" (get validated "network"))
                       "network_uuid" (VStr nu)) "etag" (next_etag m)).
  assert (∀ p, p ≠ "network" → p ≠ "network_uuid" → p ≠ "etag" →
               own ps p = own v p) as Hps.
  { intros p ? ? ?. unfold ps. by rewrite !own_set_ne. }
  assert (getIP params returnObject m'
          = Ok (MkIP (JS.set ps "ip" (VAddr a')) (next_etag m)
                  (or_else (get ps "use_strings")
                     (and_then (get ps "network")
                        (member (get ps "network") "ip_use_strings")))))
    as Hget.
  { unfold getIP. rewrite Hpip, Hpnu, Hpnet. unfold getBucketObj.
    rewrite Hb, !bind_Ok, (is_object_member_of _ _ Hnet), bind_Ok.
    rewrite <- Huse. unfold IPCommon.key in Hk. rewrite Ha in Hk.
    rewrite Hk, bind_Ok. unfold getObj, getObject. cbn [name].
    rewrite Hrow. cbn [row_value _etag]. fold ps.
    apply (new_IP_stored ps nu (next_etag m)
             (truthy (get (IPCommon.params self) "reserved")) a').
    - unfold ps. by rewrite get_set_ne, get_set_ne, get_set_eq.
    - unfold ps. by rewrite get_set_ne, get_set_eq.
    - unfold ps. by rewrite own_set_eq.
    - by rewrite Hps.
    - unfold get. rewrite !Hps, Hvaddr, Hvip by done.
      destruct (truthy (use_strings self)) eqn:Hu; [| done].
      simpl. specialize (Hnonempty eq_refl).
      destruct (String.eqb_spec (toString a) EmptyString); done. }
  eexists _, m', _. split_and!; [reflexivity | exact Hget | done | done |].
  apply (serialize_ext _ _ a' a); cbn [IPCommon.params].
  - by rewrite get_set_eq.
  - done.
  - done.
  - rewrite get_set_ne by done. unfold ps.
    rewrite get_set_ne, get_set_ne, get_set_eq by done.
    unfold get. by rewrite (new_IP_keeps _ _ "network" Hnew).
  - rewrite get_set_ne by done. unfold get at 1. rewrite Hps, Hvres by done.
    simpl. by destruct (truthy _).
  - intros p Hp. unfold OPTIONAL_PARAMS in Hp.
    rewrite !elem_of_cons, elem_of_nil in Hp.
    destruct Hp as [-> | [-> | [-> | []]]];
      rewrite own_set_ne by done; by rewrite Hps.
Qed.

(** ** The parameters of an IP *)

Lemma keys_set_new (o : props) (k : string) (v : jsval) :
  own o k = None → keys (JS.set o k v) = keys o ++ [k].
Proof.
  unfold keys. induction o as [| [k0 v0] o IH]; simpl; [done |].
  destruct (String.eqb k0 k); simpl; [done |].
  intros Hk. f_equal. by apply IH.
Qed.

Lemma keys_set_old (o : props) (k : string) (v : jsval) :
  is_Some (own o k) → keys (JS.set o k v) = keys o.
Proof.
  unfold keys. induction o as [| [k0 v0] o IH]; simpl.
  - by intros [? ?].
  - destruct (String.eqb k0 k); simpl; [done |].
    intros Hk. f_equal. by apply IH.
Qed.

(** Copying the properties a source has, for a list of names. *)
Lemma own_foldl_copy (src init : props) (l : list string) (k : string) :
  own (foldl (λ acc p, if hasOwnProperty src p
                       then JS.set acc p (get src p) else acc) init l) k
  = if bool_decide (k ∈ l)
    then match own src k with Some v => Some v | None => own init k end
    else own init k.
Proof.
  revert init. induction l as [| x l IH]; intros init; simpl; [done |].
  rewrite IH. destruct (decide (x = k)) as [-> | Hne].
  - rewrite (bool_decide_eq_true_2 (k ∈ k :: l)) by by left.
    unfold hasOwnProperty, get.
    destruct (own src k) eqn:Hk; rewrite ?own_set_eq;
      by destruct (bool_decide _).
  - assert (own (if hasOwnProperty src x then JS.set init x (get src x)
                 else init) k = own init k) as ->.
    { destruct (hasOwnProperty src x); by rewrite ?own_set_ne. }
    destruct (decide (k ∈ l)) as [Hin | Hnin].
    + by rewrite !bool_decide_eq_true_2 by (by try right).
    + rewrite !bool_decide_eq_false_2; [done | | done].
      apply not_elem_of_cons. by split.
Qed.

(** The loop of [extractParams], on any list of names. *)
Lemma own_foldl_extract (params override init : props) (l : list string)
    (k : string) :
  own (foldl (λ newParams s,
                let newParams1 :=
                  if hasOwnProperty params s
                  then JS.set newParams s (get params s) else newParams in
                if hasOwnProperty override s
                then JS.set newParams1 s (get override s) else newParams1)
         init l) k
  = if bool_decide (k ∈ l)
    then match own override k with
         | Some v => Some v
         | None => match own params k with
                   | Some v => Some v
                   | None => own init k
                   end
         end
    else own init k.
Proof.
  revert init. induction l as [| x l IH]; intros init; simpl; [done |].
  rewrite IH. destruct (decide (x = k)) as [-> | Hne].
  - rewrite (bool_decide_eq_true_2 (k ∈ k :: l)) by by left.
    unfold hasOwnProperty, get.
    destruct (own override k) eqn:Ho, (own params k) eqn:Hp;
      rewrite ?own_set_eq; by destruct (bool_decide _).
  - match goal with |- context [own ?o k] =>
      match o with
      | context [hasOwnProperty override x] =>
          assert (own o k = own init k) as ->
      end
    end.
    { destruct (hasOwnProperty override x), (hasOwnProperty params x);
        by rewrite ?own_set_ne. }
    destruct (decide (k ∈ l)) as [Hin | Hnin].
    + by rewrite !bool_decide_eq_true_2 by (by try right).
    + rewrite !bool_decide_eq_false_2; [done | | done].
      apply not_elem_of_cons. by split.
Qed.

Lemma keys_foldl_extract (params override init : props) (l : list string) :
  NoDup l →
  (∀ s, s ∈ l → own init s = None) →
  keys (foldl (λ newParams s,
                 let newParams1 :=
                   if hasOwnProperty params s
                   then JS.set newParams s (get params s) else newParams in
                 if hasOwnProperty override s
                 then JS.set newParams1 s (get override s) else newParams1)
          init l)
  = keys init
    ++ filter (λ s, hasOwnProperty params s || hasOwnProperty override s) l.
Proof.
  revert init. induction l as [| x l IH]; intros init Hnd Hinit; simpl.
  - by rewrite app_nil_r.
  - apply NoDup_cons in Hnd as [Hx Hnd].
    pose proof (Hinit x ltac:(by left)) as Hix.
    rewrite IH; [| done |].
    + destruct (hasOwnProperty params x) eqn:Hp,
               (hasOwnProperty override x) eqn:Ho; simpl.
      * rewrite filter_cons_True by (cbn beta; by rewrite Hp).
        rewrite keys_set_old by (rewrite own_set_eq; by eexists).
        rewrite keys_set_new by done. by rewrite <- app_assoc.
      * rewrite filter_cons_True by (cbn beta; by rewrite Hp).
        rewrite keys_set_new by done. by rewrite <- app_assoc.
      * rewrite filter_cons_True by (cbn beta; by rewrite Hp, Ho).
        rewrite keys_set_new by done. by rewrite <- app_assoc.
      * rewrite filter_cons_False by (cbn beta; rewrite Hp, Ho; by intros []).
        done.
    + intros s Hs. assert (x ≠ s) by (intros ->; done).
      destruct (hasOwnProperty params x), (hasOwnProperty override x);
        rewrite ?own_set_ne by done; apply Hinit; by right.
Qed.

(** X17: [extractParams] keeps the creation parameters and nothing else.
    The object it returns has a property exactly for the names of
    [CREATE_PARAMS] that [params] or [override] has, in the order of
    [CREATE_PARAMS], and the value is the one of [override] when it has
    the property. *)
Theorem extractParams_own (params : props) (override : option props) :
  (∀ k, own (IPParams.extractParams params override) k
        = if bool_decide (k ∈ IPParams.CREATE_PARAMS)
          then match own (default [] override) k with
               | Some v => Some v
               | None => own params k
               end
          else None)
  ∧ keys (IPParams.extractParams params override)
    = filter (λ s, hasOwnProperty params s
                   || hasOwnProperty (default [] override) s)
        IPParams.CREATE_PARAMS.
Proof.
  unfold IPParams.extractParams.
  assert (match override with Some o => o | None => [] end
          = default [] override) as -> by by destruct override.
  set (ov := default [] override).
  split.
  - intros k. rewrite own_foldl_extract. simpl.
    destruct (bool_decide _); [| done].
    by destruct (own ov k), (own params k).
  - rewrite keys_foldl_extract; [done | | done].
    by apply (bool_decide_unpack _).
Qed.

(** The errors of [_requireOwningInfo], field by field. *)
Lemma _requireOwningInfo_fields (validated : props) :
  IPParams._requireOwningInfo validated
  = if hasOwnProperty validated "belongs_to_uuid"
       || hasOwnProperty validated "belongs_to_type"
    then (if hasOwnProperty validated "belongs_to_uuid" then []
          else [IPParams.missingParam "belongs_to_uuid"])
         ++ (if hasOwnProperty validated "belongs_to_type" then []
             else [IPParams.missingParam "belongs_to_type"])
         ++ (if hasOwnProperty validated "owner_uuid" then []
             else [IPParams.missingParam "owner_uuid"])
    else [].
Proof.
  unfold IPParams._requireOwningInfo, IPParams.OWNING_FIELDS. simpl.
  by destruct (hasOwnProperty validated "belongs_to_uuid"),
              (hasOwnProperty validated "belongs_to_type"),
              (hasOwnProperty validated "owner_uuid").
Qed.

(** X18: owning information comes all together or not at all.
    [_requireOwningInfo] passes exactly when the validated parameters have
    neither [belongs_to_uuid] nor [belongs_to_type], or have all three
    owning fields; otherwise it reports a missing parameter for each
    owning field that is absent, and for nothing else. *)
Theorem _requireOwningInfo_complete (validated : props) :
  (IPParams._requireOwningInfo validated = []
   ↔ (hasOwnProperty validated "belongs_to_uuid" = false
      ∧ hasOwnProperty validated "belongs_to_type" = false)
     ∨ (∀ field, field ∈ IPParams.OWNING_FIELDS →
                 hasOwnProperty validated field = true))
  ∧ (∀ field,
       IPParams.missingParam field ∈ IPParams._requireOwningInfo validated
       ↔ (hasOwnProperty validated "belongs_to_uuid" = true
          ∨ hasOwnProperty validated "belongs_to_type" = true)
         ∧ field ∈ IPParams.OWNING_FIELDS
         ∧ hasOwnProperty validated field = false).
Proof.
  rewrite _requireOwningInfo_fields. unfold IPParams.OWNING_FIELDS.
  assert (∀ field,
            field ∈ ["belongs_to_uuid"; "belongs_to_type"; "owner_uuid"]
            ↔ field = "belongs_to_uuid" ∨ field = "belongs_to_type"
              ∨ field = "owner_uuid") as Hfields.
  { intros field. rewrite !elem_of_cons, elem_of_nil. tauto. }
  destruct (hasOwnProperty validated "belongs_to_uuid") eqn:Hu,
           (hasOwnProperty validated "belongs_to_type") eqn:Ht,
           (hasOwnProperty validated "owner_uuid") eqn:Ho;
    simpl;
    (split; [split | intros field; split]).
  all: try (intros Hnil; try discriminate Hnil;
            first [ by left
                  | right; intros field Hf;
                    apply Hfields in Hf as [-> | [-> | ->]]; done ]).
  all: try (intros [[Hu' Ht'] | Hall];
            [ done
            | pose proof (Hall "belongs_to_uuid"
                            ltac:(apply Hfields; auto)) as H1;
              pose proof (Hall "belongs_to_type"
                            ltac:(apply Hfields; auto)) as H2;
              pose proof (Hall "owner_uuid"
                            ltac:(apply Hfields; auto)) as H3;
              try reflexivity; congruence ]).
  all: try (intros Hin; apply list_elem_of_In in Hin; simpl in Hin;
            repeat (destruct Hin as [Hin | Hin];
                    [injection Hin as <-;
                     split_and!; [auto | apply Hfields; auto | done] |]);
            destruct Hin).
  all: intros (Hany & Hf & Hmiss);
    apply Hfields in Hf as [-> | [-> | ->]]; try congruence;
    try (destruct Hany; discriminate);
    repeat rewrite elem_of_cons; auto.
Qed.

(** What [serialize] gives for the names the engine reads afterwards. *)
Lemma serialize_own (self : IP) (a : ipaddr) :
  get (IPCommon.params self) "ip" = VAddr a →
  is_object (get (IPCommon.params self) "network") = true →
  ∃ ser,
    serialize self = Ok ser
    ∧ own ser "ip" = Some (VStr (toString a))
    ∧ own ser "network_uuid"
      = Some (member (get (IPCommon.params self) "network") "uuid")
    ∧ own ser "reserved"
      = Some (VBool (truthy (get (IPCommon.params self) "reserved")))
    ∧ (∀ p, p ∈ OPTIONAL_PARAMS → own ser p = own (IPCommon.params self) p)
    ∧ (∀ k, k ∈ ["check_owner"; "etag"; "network"; "ipaddr"; "use_strings"]
            → own ser k = None).
Proof.
  intros Ha Hnet. unfold serialize.
  rewrite Ha, (is_object_member_of _ _ Hnet), bind_Ok.
  eexists. split; [reflexivity |].
  unfold serialize_optional, OPTIONAL_PARAMS, hasOwnProperty, get. simpl.
  destruct (own (IPCommon.params self) "belongs_to_type") eqn:Ht,
           (own (IPCommon.params self) "belongs_to_uuid") eqn:Hu,
           (own (IPCommon.params self) "owner_uuid") eqn:Ho,
           (truthy match own (IPCommon.params self) "reserved" with
                   | Some v => v
                   | None => VUndefined
                   end);
    simpl; split_and!; try reflexivity;
    intros p Hp; apply list_elem_of_In in Hp; simpl in Hp;
    repeat (destruct Hp as [<- | Hp]; [done |]); destruct Hp.
Qed.

(** When the constructor succeeds, and what it makes of the address, the
    etag and [reserved]. *)
Lemma new_IP_Ok `{Externals} (ps : props) (nu : string) (a' : ipaddr) :
  is_object (get ps "network") = true →
  get ps "network_uuid" = VStr nu →
  toIPAddr (if truthy (get ps "ipaddr") then get ps "ipaddr" else get ps "ip")
  = Some a' →
  ∃ self,
    new_IP ps = Ok self
    ∧ get (IPCommon.params self) "ip" = VAddr a'
    ∧ etag self = match own ps "etag" with Some e => e | None => VNull end
    ∧ own (IPCommon.params self) "reserved"
      = match own ps "reserved" with
        | Some v =>
            Some (if String.eqb (typeof v) "boolean" then v
                  else VBool (strict_eq v (VStr "true")))
        | None => None
        end.
Proof.
  intros Hnet Hnu Haddr. unfold new_IP.
  rewrite Hnet, Hnu. simpl.
  assert ((if truthy (get ps "ipaddr")
           then addr_val (toIPAddr (get ps "ipaddr"))
           else addr_val (toIPAddr (get ps "ip"))) = VAddr a') as ->.
  { destruct (truthy (get ps "ipaddr")); by rewrite Haddr. }
  simpl. eexists. split; [reflexivity |]. cbn [IPCommon.params etag].
  unfold hasOwnProperty, get.
  rewrite !(own_set_ne ps "ip" "reserved") by done.
  destruct (own ps "reserved") as [r |] eqn:Hr; simpl.
  - destruct (String.eqb (typeof r) "boolean") eqn:Hb; simpl.
    + rewrite own_set_eq, !own_set_ne, Hr by done.
      by destruct (own ps "etag").
    + rewrite own_set_eq, !own_set_ne, own_set_eq, !own_set_ne by done.
      by destruct (own ps "etag").
  - rewrite own_set_eq, !own_set_ne, Hr by done.
    by destruct (own ps "etag").
Qed.

(** X19: an updated IP object is the old one with the shared parameters
    laid over it.  [createUpdatedObject] keeps the etag, the network and
    the address of the old IP; [belongs_to_type], [belongs_to_uuid],
    [owner_uuid] and [reserved] are taken from [params] when they are
    there and from the old IP otherwise.  [check_owner] is taken from
    [params] only: the one of the old IP is dropped.  The string flag is
    taken from the network again. *)
Theorem createUpdatedObject_keeps `{Externals} (oldIP : IP) (params : props)
    (a a' : ipaddr) (nu : string) :
  get (IPCommon.params oldIP) "ip" = VAddr a →
  is_object (get (IPCommon.params oldIP) "network") = true →
  member (get (IPCommon.params oldIP) "network") "uuid" = VStr nu →
  toIPAddr (VStr (toString a)) = Some a' →
  ∃ updated,
    IPParams.createUpdatedObject oldIP params = Ok updated
    ∧ etag updated = etag oldIP
    ∧ get (IPCommon.params updated) "ip" = VAddr a'
    ∧ get (IPCommon.params updated) "network"
      = get (IPCommon.params oldIP) "network"
    ∧ get (IPCommon.params updated) "network_uuid" = VStr nu
    ∧ use_strings updated
      = member (get (IPCommon.params oldIP) "network") "ip_use_strings"
    ∧ (∀ p, p ∈ OPTIONAL_PARAMS →
            own (IPCommon.params updated) p
            = match own params p with
              | Some v => Some v
              | None => own (IPCommon.params oldIP) p
              end)
    ∧ own (IPCommon.params updated) "check_owner" = own params "check_owner"
    ∧ own (IPCommon.params updated) "reserved"
      = Some match own params "reserved" with
             | Some v => if String.eqb (typeof v) "boolean" then v
                         else VBool (strict_eq v (VStr "true"))
             | None =>
                 VBool (truthy (get (IPCommon.params oldIP) "reserved"))
             end.
Proof.
  intros Ha Hnet Hnu Hparse.
  destruct (serialize_own oldIP a Ha Hnet)
    as (ser & Hser & Hsip & Hsnu & Hsres & Hsopt & Hsnone).
  unfold IPParams.createUpdatedObject. rewrite Hser, bind_Ok.
  set (p1 := foldl _ ser IPParams.NIC_SHARED_PARAMS).
  assert (∀ k, own p1 k
               = if bool_decide (k ∈ IPParams.NIC_SHARED_PARAMS)
                 then match own params k with
                      | Some v => Some v
                      | None => own ser k
                      end
                 else own ser k) as Hp1.
  { intros k. unfold p1. apply own_foldl_copy. }
  set (p3 := JS.set (JS.set p1 "etag" (etag oldIP)) "network"
               (get (IPCommon.params oldIP) "network")).
  assert (∀ k, k ≠ "etag" → k ≠ "network" → own p3 k = own p1 k) as Hp3.
  { intros k ? ?. unfold p3. by rewrite !own_set_ne. }
  assert (get p3 "network" = get (IPCommon.params oldIP) "network") as Hp3net.
  { unfold p3. by rewrite get_set_eq. }
  assert (own p3 "etag" = Some (etag oldIP)) as Hp3etag.
  { unfold p3. by rewrite own_set_ne, own_set_eq. }
  assert (get p3 "network_uuid" = VStr nu) as Hp3nu.
  { unfold get. rewrite Hp3, Hp1 by done. simpl. by rewrite Hsnu, Hnu. }
  assert (own p3 "ipaddr" = None) as Hp3ipaddr.
  { rewrite Hp3, Hp1 by done. simpl. apply Hsnone.
    rewrite !elem_of_cons. auto. }
  assert (own p3 "use_strings" = None) as Hp3us.
  { rewrite Hp3, Hp1 by done. simpl. apply Hsnone.
    rewrite !elem_of_cons. auto 6. }
  assert (own p3 "ip" = Some (VStr (toString a))) as Hp3ip.
  { rewrite Hp3, Hp1 by done. simpl. exact Hsip. }
  destruct (new_IP_Ok p3 nu a') as (updated & Hnew & Huip & Huetag & Hures).
  { by rewrite Hp3net. }
  { done. }
  { unfold get. rewrite Hp3ipaddr, Hp3ip. simpl. exact Hparse. }
  exists updated. split_and!.
  - exact Hnew.
  - by rewrite Huetag, Hp3etag.
  - exact Huip.
  - unfold get. rewrite (new_IP_keeps _ _ "network" Hnew) by done.
    exact Hp3net.
  - unfold get. rewrite (new_IP_keeps _ _ "network_uuid" Hnew) by done.
    exact Hp3nu.
  - rewrite (new_IP_use_strings _ _ Hnew), Hp3net; [done |].
    unfold get. by rewrite Hp3us.
  - intros p Hp. pose proof (Hsopt p Hp) as Hsp.
    unfold OPTIONAL_PARAMS in Hp. apply list_elem_of_In in Hp. simpl in Hp.
    destruct Hp as [<- | [<- | [<- | []]]];
      rewrite (new_IP_keeps _ _ _ Hnew), Hp3, Hp1 by done; simpl;
      by rewrite Hsp.
  - rewrite (new_IP_keeps _ _ _ Hnew), Hp3, Hp1 by done. simpl.
    rewrite Hsnone; [by destruct (own params "check_owner") |].
    rewrite !elem_of_cons. auto.
  - rewrite Hures, Hp3, Hp1 by done. simpl. rewrite Hsres.
    destruct (own params "reserved"); simpl; [done |].
    by destruct (truthy _).
Qed.

(** ** A NIC against its network *)

Lemma strict_eq_true (a b : jsval) : strict_eq a b = true → a = b.
Proof.
  destruct a, b; simpl; try done.
  - intros Hb. f_equal. by apply Bool.eqb_prop.
  - intros Hn. f_equal. by apply Z.eqb_eq.
  - intros Hs. f_equal. by apply String.eqb_eq.
Qed.

Lemma badOwnerUUID_ext `{Constants} (ps1 ps2 : props) (network : jsval) :
  own ps1 "check_owner" = own ps2 "check_owner" →
  own ps1 "owner_uuid" = own ps2 "owner_uuid" →
  NicValidate.badOwnerUUID ps1 network = NicValidate.badOwnerUUID ps2 network.
Proof.
  intros Hc Ho. unfold NicValidate.badOwnerUUID, hasOwnProperty, get.
  by rewrite Hc, Ho.
Qed.

(** X20: a NIC that passes the check agrees with its network.  When
    [checkNetwork] returns [null], the parameters it leaves have the NIC
    tag of the network and the VLAN ID of the network, and are otherwise
    as before; checking them again returns [null] and changes nothing. *)
Theorem checkNetwork_agrees `{Constants} (parsedParams : props)
    (name : string) (network : jsval) (checked : props) :
  NicValidate.checkNetwork parsedParams name network = Ok (None, checked) →
  get checked "nic_tag" = member network "nic_tag"
  ∧ get checked "vlan_id" = member (member network "params") "vlan_id"
  ∧ (∀ k, k ≠ "nic_tag" → k ≠ "vlan_id" →
          own checked k = own parsedParams k)
  ∧ NicValidate.checkNetwork checked name network = Ok (None, checked).
Proof.
  intros Hcheck.
  assert (∃ vlan_id,
            is_object network = true
            ∧ NicValidate.badOwnerUUID parsedParams network = false
            ∧ member_of (member network "params") "vlan_id" = Ok vlan_id
            ∧ get checked "nic_tag" = member network "nic_tag"
            ∧ strict_eq (member network "nic_tag") VUndefined = false
            ∧ strict_eq (member network "nic_tag") (member network "nic_tag")
              = true
            ∧ get checked "vlan_id" = vlan_id
            ∧ strict_eq vlan_id VUndefined = false
            ∧ strict_eq vlan_id vlan_id = true
            ∧ (∀ k, k ≠ "nic_tag" → k ≠ "vlan_id" →
                    own checked k = own parsedParams k))
    as (vlan_id & Hobj & Hbad & Hvlan & Htag & Htagdef & Htagrefl & Hid
        & Hiddef & Hidrefl & Hother).
  { unfold NicValidate.checkNetwork in Hcheck.
    destruct (is_object network); simpl in Hcheck; [| done].
    destruct (NicValidate.badOwnerUUID parsedParams network); [done |].
    destruct (strict_eq (get parsedParams "nic_tag") VUndefined) eqn:Hundef.
    - destruct (String.eqb (typeof (member network "nic_tag")) "string")
        eqn:Hstr; simpl in Hcheck; [| done].
      apply typeof_string in Hstr as [t Ht].
      rewrite ?bind_Ok in Hcheck.
      destruct (member_of (member network "params") "vlan_id")
        as [vlan_id | |]; simpl in Hcheck; try done.
      exists vlan_id.
      destruct (strict_eq (get (JS.set parsedParams "nic_tag"
                                  (member network "nic_tag")) "vlan_id")
                  VUndefined) eqn:Hundef2.
      + destruct (String.eqb (typeof vlan_id) "number") eqn:Hnum;
          simpl in Hcheck; [| done].
        injection Hcheck as <-.
        rewrite get_set_ne, get_set_eq, get_set_eq by done.
        split_and!; try done.
        * by rewrite Ht.
        * rewrite Ht. apply String.eqb_refl.
        * by destruct vlan_id.
        * destruct vlan_id; try done. apply Z.eqb_refl.
        * intros k ? ?. by rewrite !own_set_ne.
      + destruct (strict_eq _ vlan_id) eqn:Heq; simpl in Hcheck; [| done].
        injection Hcheck as <-. pose proof (strict_eq_true _ _ Heq) as Heq'.
        rewrite get_set_eq.
        split_and!; try done.
        * by rewrite Ht.
        * rewrite Ht. apply String.eqb_refl.
        * by rewrite <- Heq'.
        * by rewrite <- Heq' at 1.
        * intros k ? ?. by rewrite !own_set_ne.
    - destruct (strict_eq (get parsedParams "nic_tag")
                  (member network "nic_tag")) eqn:Heqt;
        simpl in Hcheck; [| done].
      pose proof (strict_eq_true _ _ Heqt) as Heqt'.
      rewrite ?bind_Ok in Hcheck.
      destruct (member_of (member network "params") "vlan_id")
        as [vlan_id | |]; simpl in Hcheck; try done.
      exists vlan_id.
      destruct (strict_eq (get parsedParams "vlan_id") VUndefined)
        eqn:Hundef2.
      + destruct (String.eqb (typeof vlan_id) "number") eqn:Hnum;
          simpl in Hcheck; [| done].
        injection Hcheck as <-.
        rewrite get_set_ne, get_set_eq by done.
        split_and!; try done.
        * by rewrite <- Heqt'.
        * by rewrite <- Heqt' at 1.
        * by destruct vlan_id.
        * destruct vlan_id; try done. apply Z.eqb_refl.
        * intros k ? ?. by rewrite !own_set_ne.
      + destruct (strict_eq _ vlan_id) eqn:Heq; simpl in Hcheck; [| done].
        injection Hcheck as <-. pose proof (strict_eq_true _ _ Heq) as Heq'.
        split_and!; try done.
        * by rewrite <- Heqt'.
        * by rewrite <- Heqt' at 1.
        * by rewrite <- Heq'.
        * by rewrite <- Heq' at 1. }
  assert (member_of (member network "params") "vlan_id"
          = Ok (member (member network "params") "vlan_id")) as Hvlan'.
  { by destruct (member network "params"). }
  assert (vlan_id = member (member network "params") "vlan_id") as Hv
    by congruence.
  split_and!; [done | congruence | done |].
  unfold NicValidate.checkNetwork. rewrite Hobj. simpl.
  rewrite (badOwnerUUID_ext checked parsedParams), Hbad by (by apply Hother).
  rewrite Htag, Htagdef, Htagrefl. simpl. rewrite ?bind_Ok, Hvlan.
  simpl. by rewrite Hid, Hiddef, Hidrefl.
Qed.

Lemma own_None_keys (o : props) (k : string) :
  own o k = None ↔ k ∉ keys o.
Proof.
  unfold keys. induction o as [| [k0 v0] o IH]; simpl.
  - split; [intros _; apply not_elem_of_nil | done].
  - rewrite not_elem_of_cons, <- IH.
    destruct (String.eqb_spec k0 k) as [-> | Hne].
    + split; [done | by intros [? _]].
    + split; [intros ?; split; [congruence | done] | by intros [_ ?]].
Qed.

Lemma keys_set_elem (o : props) (k s : string) (v : jsval) :
  s ∈ keys (JS.set o k v) ↔ s = k ∨ s ∈ keys o.
Proof.
  destruct (own o k) eqn:Hk.
  - rewrite keys_set_old by by eexists.
    split; [by right | intros [-> | ?]; [| done]].
    destruct (decide (k ∈ keys o)) as [? | Hnin]; [done |].
    apply own_None_keys in Hnin. congruence.
  - rewrite keys_set_new, elem_of_app, elem_of_cons, elem_of_nil by done.
    tauto.
Qed.

Lemma keys_set_NoDup (o : props) (k : string) (v : jsval) :
  NoDup (keys o) → NoDup (keys (JS.set o k v)).
Proof.
  intros Hnd. destruct (own o k) eqn:Hk.
  - by rewrite keys_set_old by by eexists.
  - rewrite keys_set_new by done. apply NoDup_app. split_and!; [done | |].
    + intros s Hs [-> | []%elem_of_nil]%elem_of_cons.
      by apply own_None_keys in Hk.
    + apply NoDup_singleton.
Qed.

(** The [reduce] of [listVnetCns] on records that are objects. *)
Lemma mark_cns_from (cns : list jsval) (acc : props) :
  Forall (λ cn, is_object cn = true) cns →
  foldl (λ acc cn,
           acc ← acc;
           cn_uuid ← member_of cn "cn_uuid";
           Ok (NicValidate.mark acc (to_str cn_uuid)))
        (Ok acc) cns
  = Ok (foldl (λ acc cn,
                 NicValidate.mark acc (to_str (member cn "cn_uuid")))
              acc cns).
Proof.
  intros Hobj. revert acc.
  induction Hobj as [| cn cns Hcn _ IH]; intros acc; [done |].
  cbn [foldl]. rewrite bind_Ok, (is_object_member_of _ _ Hcn), bind_Ok.
  apply IH.
Qed.

Lemma keys_mark_elem (o : props) (name s : string) :
  s ∈ keys (NicValidate.mark o name)
  ↔ (s = name ∧ name ≠ "__proto__") ∨ s ∈ keys o.
Proof.
  unfold NicValidate.mark.
  destruct (String.eqb_spec name "__proto__") as [-> | Hne].
  - split; [by right | by intros [[_ ?] | ?]].
  - rewrite keys_set_elem. split.
    + intros [-> | ?]; [by left | by right].
    + intros [[-> _] | ?]; [by left | by right].
Qed.

Lemma keys_mark_NoDup (o : props) (name : string) :
  NoDup (keys o) → NoDup (keys (NicValidate.mark o name)).
Proof.
  unfold NicValidate.mark. destruct (String.eqb name "__proto__"); [done |].
  apply keys_set_NoDup.
Qed.

(** The names [listVnetCns] marks, for records that are objects. *)
Lemma listVnetCns_marks (cns : list jsval) :
  Forall (λ cn, is_object cn = true) cns →
  ∃ l,
    NicValidate.listVnetCns (Ok cns) = Ok l
    ∧ NoDup l
    ∧ ∀ s, s ∈ l
           ↔ s ≠ "__proto__"
             ∧ ∃ cn, cn ∈ cns ∧ to_str (member cn "cn_uuid") = s.
Proof.
  intros Hobj. unfold NicValidate.listVnetCns, NicValidate.mark_cns.
  rewrite (mark_cns_from cns [] Hobj), bind_Ok.
  eexists. split; [reflexivity |].
  assert (∀ acc,
            NoDup (keys acc) →
            NoDup (keys (foldl (λ acc cn,
                                  NicValidate.mark acc
                                    (to_str (member cn "cn_uuid")))
                           acc cns))
            ∧ ∀ s, s ∈ keys (foldl (λ acc cn,
                                     NicValidate.mark acc
                                       (to_str (member cn "cn_uuid")))
                               acc cns)
                   ↔ s ∈ keys acc
                     ∨ (s ≠ "__proto__"
                        ∧ ∃ cn, cn ∈ cns
                                ∧ to_str (member cn "cn_uuid") = s))
    as Hfold.
  { clear Hobj. induction cns as [| cn cns IH]; intros acc Hnd; simpl.
    - split; [done |]. intros s. split; [by left |].
      intros [? | (_ & cn & []%elem_of_nil & _)]. done.
    - destruct (IH (NicValidate.mark acc (to_str (member cn "cn_uuid"))))
        as [Hnd' Hin]; [by apply keys_mark_NoDup |].
      split; [done |]. intros s. rewrite Hin, keys_mark_elem. split.
      + intros [[[-> Hne] | ?] | (Hne & cn' & ? & ?)].
        * right. split; [done |]. exists cn. split; [by left | done].
        * by left.
        * right. split; [done |]. exists cn'. split; [by right | done].
      + intros [? | (Hne & cn' & [-> | ?]%elem_of_cons & Hs)].
        * left. by right.
        * left. left. split; [done |]. by rewrite Hs.
        * right. split; [done |]. by exists cn'. }
  destruct (Hfold []) as [Hnd Hin]; [apply NoDup_nil_2 |].
  split; [done |]. intros s. rewrite Hin. split.
  - by intros [[]%elem_of_nil | ?].
  - by right.
Qed.

(** X21: the servers on a virtual network are listed once each.  For
    records that are objects with a string as [cn_uuid], [listVnetCns]
    gives the [cn_uuid] of every record and gives each one once; only a
    [cn_uuid] that reads [__proto__] is not listed, as that name never
    becomes a property. *)
Theorem listVnetCns_once (cns : list jsval) :
  Forall (λ cn, is_object cn = true
                ∧ String.eqb (typeof (member cn "cn_uuid")) "string" = true)
         cns →
  ∃ l,
    NicValidate.listVnetCns (Ok cns) = Ok l
    ∧ NoDup l
    ∧ ∀ s, s ∈ l
           ↔ s ≠ "__proto__"
             ∧ ∃ cn, cn ∈ cns ∧ member cn "cn_uuid" = VStr s.
Proof.
  intros Hcns.
  destruct (listVnetCns_marks cns) as (l & Hlist & Hnd & Hin).
  { eapply Forall_impl; [exact Hcns |]. by intros cn [? _]. }
  exists l. split_and!; [done | done |].
  intros s. rewrite Hin. rewrite Forall_forall in Hcns.
  split; intros (Hne & cn & Hcn & Hs); (split; [done |]); exists cn;
    (split; [done |]);
    destruct (Hcns cn Hcn) as [_ [s' Hs']%typeof_string];
    rewrite Hs' in *; simpl in *; congruence.
Qed.

(** ** Network pools *)

Lemma del_set_eq (o : props) (k : string) (v : jsval) :
  del (JS.set o k v) k = del o k.
Proof.
  induction o as [| [k0 v0] o IH]; simpl.
  - by rewrite String.eqb_refl.
  - destruct (String.eqb k0 k) eqn:Hk; simpl; rewrite Hk; [done |].
    by rewrite IH.
Qed.

(** X22: a pool never takes its NIC tag from the caller.  The constructor
    gives the same pool whatever [nic_tag] the parameters come with. *)
Theorem new_NetworkPool_drops_nic_tag `{Externals} (fresh : string)
    (params : props) (nic_tag : jsval) :
  PoolModel.new_NetworkPool fresh (JS.set params "nic_tag" nic_tag)
  = PoolModel.new_NetworkPool fresh params.
Proof.
  unfold PoolModel.new_NetworkPool. by rewrite del_set_eq.
Qed.

(** The constructor, by what [_networks] holds. *)
Lemma new_NetworkPool_cases `{Externals} (fresh : string)
    (params : props) :
  match get params "_networks" with
  | VArr (first :: _) =>
      is_object first = true →
      is_object (member first "params") = true →
      ∃ pool,
        PoolModel.new_NetworkPool fresh params = Ok pool
        ∧ own (PoolModel.params pool) "nic_tag"
          = Some (member (member first "params") "nic_tag")
        ∧ own (PoolModel.params pool) "_networks" = None
        ∧ get (PoolModel.params pool) "uuid"
          = (if truthy (get params "uuid") then get params "uuid"
             else VStr fresh)
  | _ =>
      ∃ pool,
        PoolModel.new_NetworkPool fresh params = Ok pool
        ∧ own (PoolModel.params pool) "nic_tag" = None
        ∧ own (PoolModel.params pool) "_networks"
          = own params "_networks"
        ∧ get (PoolModel.params pool) "uuid"
          = (if truthy (get params "uuid") then get params "uuid"
             else VStr fresh)
  end.
Proof.
  assert (∀ params2 : props,
            get params2 "uuid" = get params "uuid" →
            let params3 :=
              if negb (truthy (get params2 "uuid"))
              then JS.set params2 "uuid" (VStr fresh) else params2 in
            let params4 :=
              if hasOwnProperty params3 "networks"
              then JS.set params3 "networks"
                     (VArr (arrayify (get params3 "networks")))
              else params3 in
            own params4 "nic_tag" = own params2 "nic_tag"
            ∧ own params4 "_networks" = own params2 "_networks"
            ∧ get params4 "uuid"
              = (if truthy (get params "uuid") then get params "uuid"
                 else VStr fresh)) as Hrest.
  { intros params2 Huuid. simpl. rewrite Huuid.
    destruct (truthy (get params "uuid")) eqn:Ht; simpl.
    - destruct (hasOwnProperty params2 "networks");
        rewrite ?own_set_ne, ?get_set_ne by done; done.
    - destruct (hasOwnProperty (JS.set params2 "uuid" (VStr fresh))
                  "networks");
        rewrite ?get_set_ne, ?own_set_ne, ?get_set_eq by done; done. }
  assert (get (del params "nic_tag") "_networks" = get params "_networks")
    as Hnets by (unfold get; by rewrite own_del_ne).
  assert (get (del params "nic_tag") "uuid" = get params "uuid")
    as Huuid by (unfold get; by rewrite own_del_ne).
  unfold PoolModel.new_NetworkPool. rewrite Hnets.
  destruct (get params "_networks") as [| | | | | | nets |] eqn:Hn;
    try (rewrite bind_Ok; eexists; split; [reflexivity |];
         cbn [PoolModel.params];
         destruct (Hrest (del params "nic_tag") Huuid) as (-> & -> & ->);
         rewrite own_del_eq, own_del_ne by done; done).
  destruct nets as [| first rest].
  - rewrite bind_Ok. eexists. split; [reflexivity |].
    cbn [PoolModel.params].
    destruct (Hrest (del params "nic_tag") Huuid) as (-> & -> & ->).
    rewrite own_del_eq, own_del_ne by done. done.
  - intros Hfirst Hfp.
    rewrite (is_object_member_of _ _ Hfirst), bind_Ok,
      (is_object_member_of _ _ Hfp), !bind_Ok.
    eexists. split; [reflexivity |]. cbn [PoolModel.params].
    match goal with |- context [del ?o "_networks"] =>
      destruct (Hrest (del o "_networks")) as (-> & -> & ->)
    end.
    + unfold get. by rewrite own_del_ne, own_set_ne, own_del_ne.
    + by rewrite own_del_ne, own_set_eq, own_del_eq.
Qed.

(** X23: the NIC tag of a pool is the one of its first network.  With
    network objects to look at, the constructor takes the NIC tag of the
    first and drops the objects.  The UUID is the one given, or else a
    new one. *)
Theorem new_NetworkPool_nic_tag `{Externals} (fresh : string)
    (params : props) (first : jsval) (rest : list jsval) :
  get params "_networks" = VArr (first :: rest) →
  is_object first = true →
  is_object (member first "params") = true →
  ∃ pool,
    PoolModel.new_NetworkPool fresh params = Ok pool
    ∧ own (PoolModel.params pool) "nic_tag"
      = Some (member (member first "params") "nic_tag")
    ∧ own (PoolModel.params pool) "_networks" = None
    ∧ get (PoolModel.params pool) "uuid"
      = (if truthy (get params "uuid") then get params "uuid"
         else VStr fresh).
Proof.
  intros Hn Hfirst Hfp.
  pose proof (new_NetworkPool_cases fresh params) as Hcases.
  rewrite Hn in Hcases. by apply Hcases.
Qed.

(** X24: a pool without network objects has no NIC tag.  When
    [_networks] is not a list with a first element, the constructor
    gives a pool without [nic_tag], whether the parameters had one or
    not. *)
Theorem new_NetworkPool_no_nic_tag `{Externals} (fresh : string)
    (params : props) :
  (∀ first rest, get params "_networks" ≠ VArr (first :: rest)) →
  ∃ pool,
    PoolModel.new_NetworkPool fresh params = Ok pool
    ∧ own (PoolModel.params pool) "nic_tag" = None
    ∧ get (PoolModel.params pool) "uuid"
      = (if truthy (get params "uuid") then get params "uuid"
         else VStr fresh).
Proof.
  intros Hn.
  pose proof (new_NetworkPool_cases fresh params) as Hcases.
  destruct (get params "_networks") as [| | | | | | [| first rest] |];
    try (destruct Hcases as (pool & ? & ? & ? & ?); by exists pool).
  by destruct (Hn first rest).
Qed.

Lemma undefined_or_not (v : jsval) : v = VUndefined ∨ v ≠ VUndefined.
Proof. destruct v; by (left + right). Qed.

(** The order [sort()] puts values in: [undefined] last, the others by
    their string form. *)
Lemma default_compare_before (a b : jsval) :
  sorts_before PoolModel.default_compare a b
  ↔ b = VUndefined
    ∨ (a ≠ VUndefined ∧ b ≠ VUndefined
       ∧ String.le (to_str a) (to_str b)).
Proof.
  unfold sorts_before.
  destruct (undefined_or_not b) as [-> | Hb].
  { split; [by left |]. intros _. by destruct a. }
  destruct (undefined_or_not a) as [-> | Ha].
  { assert (PoolModel.default_compare VUndefined b = 1) as ->
      by by destruct b.
    split; [lia | intros [? | (? & _)]; done]. }
  assert (PoolModel.default_compare a b
          = if str_lt (to_str a) (to_str b) then -1
            else if str_lt (to_str b) (to_str a) then 1
            else 0) as -> by by destruct a, b.
  destruct (str_lt_trichotomy (to_str a) (to_str b))
    as [[Hab Hba] | [(Heq & Hab & Hba) | [Hba Hab]]]; rewrite Hab, ?Hba.
  - split; [| lia]. intros _. right. split_and!; [done | done |].
    apply str_le_lt. by right.
  - split; [| lia]. intros _. right. split_and!; [done | done |].
    by rewrite Heq.
  - split; [lia |]. intros [? | (_ & _ & Hle)]; [done |].
    apply str_le_lt in Hle as [Heq | Hlt].
    + rewrite Heq, str_lt_irrefl in Hba. done.
    + congruence.
Qed.

#[global] Instance sorts_before_default_compare_trans :
  Transitive (sorts_before PoolModel.default_compare).
Proof.
  intros a b c. rewrite !default_compare_before.
  intros [-> | (Ha & Hb & Hab)] [-> | (Hb' & Hc & Hbc)];
    [by left | done | by left |].
  right. split_and!; [done | done |]. by transitivity (to_str b).
Qed.

#[global] Instance sorts_before_default_compare_total :
  Total (sorts_before PoolModel.default_compare).
Proof.
  intros a b. rewrite !default_compare_before.
  destruct (undefined_or_not b); [by left; left |].
  destruct (undefined_or_not a); [by right; left |].
  destruct (total String.le (to_str a) (to_str b));
    [left | right]; right; done.
Qed.


(** X26: the stored form of a pool does not depend on the order its
    networks were given in.  Two pools with the same UUID, name and
    owner, whose networks are the same UUID strings in any order, have
    the same stored form. *)
Theorem pool_raw_order (self1 self2 : PoolModel.pool)
    (networks1 networks2 : list jsval) :
  get (PoolModel.params self1) "networks" = VArr networks1 →
  get (PoolModel.params self2) "networks" = VArr networks2 →
  networks1 ≡ₚ networks2 →
  Forall (λ v, String.eqb (typeof v) "string" = true) networks1 →
  get (PoolModel.params self1) "uuid" = get (PoolModel.params self2) "uuid" →
  get (PoolModel.params self1) "name" = get (PoolModel.params self2) "name" →
  own (PoolModel.params self1) "owner_uuid"
  = own (PoolModel.params self2) "owner_uuid" →
  ∃ ser self1' self2',
    PoolModel.raw self1 = Ok (ser, self1')
    ∧ PoolModel.raw self2 = Ok (ser, self2').
Proof.
  intros Hn1 Hn2 Hperm Hstr Huuid Hname Howner.
  unfold PoolModel.raw. rewrite Hn1, Hn2, Huuid, Hname.
  unfold hasOwnProperty, get. rewrite Howner.
  assert (Array_sort PoolModel.default_compare networks1
          = Array_sort PoolModel.default_compare networks2) as ->.
  { unfold Array_sort.
    apply (StronglySorted_unique_strong
             (sorts_before PoolModel.default_compare)).
    - intros v1 v2 Hv1 Hv2 H12 H21.
      rewrite merge_sort_Permutation in Hv1, Hv2.
      rewrite Forall_forall in Hstr.
      apply Hstr, typeof_string in Hv1 as [s1 ->].
      rewrite <- Hperm in Hv2.
      apply Hstr, typeof_string in Hv2 as [s2 ->].
      apply default_compare_before in H12 as [? | (_ & _ & H12)]; [done |].
      apply default_compare_before in H21 as [? | (_ & _ & H21)]; [done |].
      simpl in H12, H21. f_equal. by apply (anti_symm String.le).
    - apply (StronglySorted_merge_sort _).
    - apply (StronglySorted_merge_sort _).
    - rewrite !merge_sort_Permutation. done. }
  eexists _, _, _. split; reflexivity.
Qed.

(** The [forEach] of [validateNetworkOwners] on network objects. *)
Lemma owner_steps `{Externals} (parsed : props) (nets notMatching : list jsval) :
  Forall (λ net, is_object net = true
                 ∧ is_object (member net "params") = true) nets →
  foldl (λ acc net, acc ← acc; PoolModel.owner_step parsed acc net)
        (Ok notMatching) nets
  = Ok (notMatching
        ++ ((λ net, member net "uuid")
              <$> filter (λ net, other_owner (get parsed "owner_uuid") net)
                    nets)).
Proof.
  intros Hobj. revert notMatching.
  induction Hobj as [| net nets [Hnet Hparams] _ IH]; intros notMatching.
  { simpl. by rewrite app_nil_r. }
  cbn [foldl]. rewrite bind_Ok. unfold PoolModel.owner_step at 2.
  rewrite (is_object_member_of _ _ Hnet), bind_Ok.
  assert (PoolModel.own_props (member net "params")
          = Ok (enumerable (member net "params"))) as ->
    by by destruct (member net "params").
  rewrite bind_Ok.
  assert ((hasOwnProperty (enumerable (member net "params")) "owner_uuid"
           && negb (strict_eq
                      (get (enumerable (member net "params")) "owner_uuid")
                      (get parsed "owner_uuid"))
           && negb (strict_eq
                      (get (enumerable (member net "params")) "owner_uuid")
                      (VStr UFDS_ADMIN_UUID)))
          = other_owner (get parsed "owner_uuid") net) as ->.
  { unfold other_owner, hasOwnProperty, get.
    by destruct (own (enumerable (member net "params")) "owner_uuid"). }
  destruct (other_owner (get parsed "owner_uuid") net) eqn:Hother.
  - rewrite IH, filter_cons_True by (cbn beta; by rewrite Hother).
    by rewrite fmap_cons, <- app_assoc.
  - rewrite IH, filter_cons_False
      by (cbn beta; rewrite Hother; by intros []).
    done.
Qed.

(** X27: a pool with an owner takes only networks that owner may use.
    For a pool with an owner, [validateNetworkOwners] passes when no
    network object has an owner other than the owner of the pool and the
    administrator; otherwise its error lists the UUIDs of exactly the
    networks that have, in the order of the list. *)
Theorem validateNetworkOwners_other_owner `{Externals} `{Constants}
    (parsed : props) (nets : list jsval) :
  truthy (get parsed "owner_uuid") = true →
  get parsed "_networks" = VArr nets →
  Forall (λ net, is_object net = true
                 ∧ is_object (member net "params") = true) nets →
  PoolModel.validateNetworkOwners parsed
  = match filter (λ net, other_owner (get parsed "owner_uuid") net) nets with
    | [] => Ok ()
    | offending =>
        Err (InvalidParam "networks" POOL_OWNER_MATCH_MSG
               (Some ((λ net, member net "uuid") <$> offending)))
    end.
Proof.
  intros Howner Hnets Hobj. unfold PoolModel.validateNetworkOwners.
  rewrite Howner, Hnets. simpl.
  destruct nets as [| net nets]; [done |].
  rewrite (owner_steps parsed (net :: nets) [] Hobj), bind_Ok.
  destruct (filter _ (net :: nets)) as [| o offending]; done.
Qed.



(** The lookups of [validateNetworks]: the UUIDs not found are the ones
    for which the lookup answered with an error or with nothing. *)
Lemma answers_not_found `{Externals} (m : moray) (answered : list jsval)
    (st : progress) :
  Forall (λ uuid,
            match net_get m uuid with
            | Ok res =>
                truthy res = true → is_object (member res "params") = true
            | Err _ => True
            | Throw _ => False
            end) answered →
  ∃ st',
    foldl (λ acc uuid,
             st ← acc; _validateNetworkUUID uuid (net_get m uuid) st)
          (Ok st) answered
    = Ok st'
    ∧ notFound st'
      = notFound st ++ filter (λ uuid, unknown_network m uuid) answered.
Proof.
  intros Hall. revert st.
  induction Hall as [| uuid answered Huuid _ IH]; intros st.
  { exists st. simpl. by rewrite app_nil_r. }
  cbn [foldl]. rewrite bind_Ok.
  assert (∃ st1,
            _validateNetworkUUID uuid (net_get m uuid) st = Ok st1
            ∧ notFound st1
              = notFound st
                ++ (if unknown_network m uuid then [uuid] else []))
    as (st1 & -> & Hst1).
  { unfold _validateNetworkUUID, unknown_network.
    destruct (net_get m uuid) as [res | err | w]; [| | done].
    - destruct (truthy res) eqn:Hres; simpl.
      + rewrite (is_object_member_of _ _ (Huuid eq_refl)), bind_Ok.
        destruct (negb _); eexists; (split; [reflexivity |]);
          simpl; by rewrite app_nil_r.
      + by eexists.
    - by eexists. }
  destruct (IH st1) as (st' & -> & Hst').
  exists st'. split; [done |]. rewrite Hst', Hst1.
  destruct (unknown_network m uuid) eqn:Hunknown.
  - rewrite filter_cons_True by (cbn beta; by rewrite Hunknown).
    by rewrite <- app_assoc.
  - rewrite filter_cons_False
      by (cbn beta; rewrite Hunknown; by intros []).
    by rewrite app_nil_r.
Qed.

(** X29: unknown networks are reported first and by name.  When the
    lookup of some UUID answers with an error or with nothing,
    [validateNetworks] calls back with an error that lists exactly those
    UUIDs, in the order in which the lookups answered, whether or not the
    NIC tags of the others match. *)
Theorem validateNetworks_unknown `{Externals} (m : moray) (name : string)
    (list : jsval) (answered : Datatypes.list jsval) :
  Z.of_nat (length (arrayify list)) ≤ MAX_NETS →
  Forall (λ uuid,
            match net_get m uuid with
            | Ok res =>
                truthy res = true → is_object (member res "params") = true
            | Err _ => True
            | Throw _ => False
            end) answered →
  filter (λ uuid, unknown_network m uuid) answered ≠ [] →
  validateNetworks m name list answered
  = (Err (InvalidParam name
            ("unknown network"
             +:+ (if bool_decide
                       (length (filter (λ uuid, unknown_network m uuid)
                                  answered) = 1%nat)
                  then EmptyString else "s"))
            (Some (filter (λ uuid, unknown_network m uuid) answered))),
     arrayify list).
Proof.
  intros Hmax Hall Hsome. unfold validateNetworks.
  destruct (Z.ltb_spec MAX_NETS (Z.of_nat (length (arrayify list))));
    [lia |].
  destruct (answers_not_found m answered start Hall) as (st' & -> & Hnf).
  rewrite bind_Ok. unfold finish. simpl in Hnf. rewrite Hnf.
  rewrite bool_decide_eq_false_2; [done |].
  intros Hlen. by apply nil_length_inv in Hlen.
Qed.

(** X30: a pool is stored under its UUID until it is deleted.
    [createNetworkPool] writes the stored form of the pool under its
    UUID, whatever the store holds there, and calls back with the pool;
    [deleteNetworkPool] then removes the row.  After that
    [getNetworkPool] answers that the pool is not found, and deleting
    again fails with the error of the store as it is. *)
Theorem createNetworkPool_then_delete `{Externals} (fresh key : string)
    (validated : props) (m : moray) (pool : PoolModel.pool)
    (networks : list jsval) :
  PoolModel.new_NetworkPool fresh validated = Ok pool →
  get (PoolModel.params pool) "uuid" = VStr key →
  get (PoolModel.params pool) "networks" = VArr networks →
  ∃ ser created m1 m2,
    PoolModel.raw pool = Ok (ser, created)
    ∧ PoolModel.createNetworkPool fresh (Ok validated) m = (Ok created, m1)
    ∧ objects m1 !! ("napi_network_pools", key)
      = Some (Row ser (next_etag m))
    ∧ PoolModel.deleteNetworkPool [("uuid", VStr key)] None m1 = (Ok (), m2)
    ∧ objects m2 !! ("napi_network_pools", key) = None
    ∧ PoolModel.getNetworkPool fresh [("uuid", VStr key)] None m2
      = Err (ResourceNotFoundError "network pool not found")
    ∧ PoolModel.deleteNetworkPool [("uuid", VStr key)] None m2
      = (Err ObjectNotFoundError, m2).
Proof.
  intros Hnew Huuid Hnets.
  assert (∃ ser created, PoolModel.raw pool = Ok (ser, created))
    as (ser & created & Hraw).
  { unfold PoolModel.raw. rewrite Hnets. by eexists _, _. }
  exists ser, created.
  eexists (Store (<[("napi_network_pools", key) := Row ser (next_etag m)]>
                    (objects m)) (writes m + 1)%N).
  eexists (Store (delete ("napi_network_pools", key)
                    (<[("napi_network_pools", key)
                       := Row ser (next_etag m)]> (objects m)))
             (writes m + 1)%N).
  split_and!.
  - done.
  - unfold PoolModel.createNetworkPool.
    rewrite Hnew, bind_Ok, Huuid. simpl PoolModel.store_key.
    by rewrite bind_Ok, Hraw.
  - apply lookup_insert_eq.
  - unfold PoolModel.deleteNetworkPool, delObject. simpl.
    by rewrite lookup_insert_eq.
  - apply lookup_delete_eq.
  - unfold PoolModel.getNetworkPool, getObj, getObject. simpl.
    by rewrite lookup_delete_eq.
  - unfold PoolModel.deleteNetworkPool, delObject. simpl.
    by rewrite lookup_delete_eq.
Qed.

(** * The properties on the small deployment *)

Lemma ordered_batch_deterministic_witness :
  ([Samples.put_nic; Samples.put_ip] ≡ₚ [Samples.put_ip; Samples.put_nic]
   ∧ ∀ r1 r2,
       r1 ∈ [Samples.put_nic; Samples.put_ip] →
       r2 ∈ [Samples.put_nic; Samples.put_ip] →
       ¬ on_portolan r1 → ¬ on_portolan r2 →
       bucket r1 = bucket r2 → Moray.key r1 = Moray.key r2 → r1 = r2)
  ∧ ∃ topology,
      ordered_batch [Samples.put_nic; Samples.put_ip]
      = topology ++ filter on_portolan [Samples.put_nic; Samples.put_ip]
      ∧ ordered_batch [Samples.put_ip; Samples.put_nic]
        = topology ++ filter on_portolan [Samples.put_ip; Samples.put_nic].
Proof.
  assert (∀ r1 r2,
            r1 ∈ [Samples.put_nic; Samples.put_ip] →
            r2 ∈ [Samples.put_nic; Samples.put_ip] →
            ¬ on_portolan r1 → ¬ on_portolan r2 →
            bucket r1 = bucket r2 → Moray.key r1 = Moray.key r2 → r1 = r2)
    as Hdistinct.
  { intros r1 r2 H1 H2 _ _ Hb Hk.
    apply list_elem_of_In in H1, H2. simpl in H1, H2.
    destruct H1 as [<- | [<- | []]], H2 as [<- | [<- | []]];
      first [reflexivity | discriminate Hb]. }
  split; [split; [apply perm_swap | exact Hdistinct] |].
  exact (ordered_batch_deterministic [Samples.put_nic; Samples.put_ip]
           [Samples.put_ip; Samples.put_nic] (perm_swap _ _ _) Hdistinct).
Defined.

Lemma ldapFilter_unindexed_witness :
  (hasOwnProperty [("limit", VNum 10); ("offset", VNum 20)] "filter" = false
   ∧ ∀ k, k ∈ keys [("limit", VNum 10); ("offset", VNum 20)] →
          k ∉ index (Bucket BUCKET_desc Fixture.net1_bucket BUCKET_index))
  ∧ ldapFilter (H := Fixture.externals)
      (VObj [("limit", VNum 10); ("offset", VNum 20)])
      (Some (Bucket BUCKET_desc Fixture.net1_bucket BUCKET_index))
    = Ok (VStr EmptyString).
Proof.
  assert (∀ k, k ∈ keys [("limit", VNum 10); ("offset", VNum 20)] →
               k ∉ index (Bucket BUCKET_desc Fixture.net1_bucket
                            BUCKET_index)) as Hnone.
  { intros k Hk Hin. apply list_elem_of_In in Hk, Hin.
    simpl in Hk, Hin.
    destruct Hk as [<- | [<- | []]];
      repeat (destruct Hin as [Hin | Hin]; [discriminate Hin |]);
      exact Hin. }
  split; [split; [reflexivity | exact Hnone] |].
  exact (ldapFilter_unindexed (H := Fixture.externals)
           [("limit", VNum 10); ("offset", VNum 20)]
           (Bucket BUCKET_desc Fixture.net1_bucket BUCKET_index)
           eq_refl Hnone).
Defined.

Lemma ldapFilter_comma_list_witness :
  ("belongs_to_type" ≠ "filter"
   ∧ [(" ", "  ", "server ")] ≠ ([] : list (string * string * string))
   ∧ comma_separated " zone" [(" ", "  ", "server ")] = true
   ∧ ascii_text (comma_join " zone" [(" ", "  ", "server ")]) = true)
  ∧ comma_join " zone" [(" ", "  ", "server ")] = " zone ,  server "
  ∧ ldapFilter (H := Fixture.externals)
      (VObj (JS.set [("owner_uuid", VStr Fixture.owner)] "belongs_to_type"
               (VStr " zone ,  server ")))
      (Some (Bucket BUCKET_desc Fixture.net1_bucket BUCKET_index))
    = ldapFilter (H := Fixture.externals)
        (VObj (JS.set [("owner_uuid", VStr Fixture.owner)] "belongs_to_type"
                 (VArr [VStr " zone"; VStr "server "])))
        (Some (Bucket BUCKET_desc Fixture.net1_bucket BUCKET_index)).
Proof.
  assert ("belongs_to_type" ≠ "filter") as Hk by discriminate.
  assert ([(" ", "  ", "server ")] ≠ ([] : list (string * string * string)))
    as Hrest by discriminate.
  split; [split_and!; done |]. split; [reflexivity |].
  exact (ldapFilter_comma_list (H := Fixture.externals)
           [("owner_uuid", VStr Fixture.owner)]
           (Some (Bucket BUCKET_desc Fixture.net1_bucket BUCKET_index))
           "belongs_to_type" " zone" [(" ", "  ", "server ")]
           Hk Hrest eq_refl eq_refl).
Defined.

Lemma ldapFilter_list_type_error_witness :
  (hasOwnProperty [("belongs_to_type", VArr [VStr "zone"; VNum 7])]
     "filter" = false
   ∧ own [("belongs_to_type", VArr [VStr "zone"; VNum 7])] "belongs_to_type"
     = Some (VArr [VStr "zone"; VNum 7])
   ∧ not_indexed (Some (Bucket BUCKET_desc Fixture.net1_bucket BUCKET_index))
       "belongs_to_type" = false
   ∧ VNum 7 ∈ [VStr "zone"; VNum 7]
   ∧ ∀ s, VNum 7 ≠ VStr s)
  ∧ ldapFilter (H := Fixture.externals)
      (VObj [("belongs_to_type", VArr [VStr "zone"; VNum 7])])
      (Some (Bucket BUCKET_desc Fixture.net1_bucket BUCKET_index))
    = Throw "TypeError: substr is not a function".
Proof.
  assert (VNum 7 ∈ [VStr "zone"; VNum 7]) as Hin
    by (apply list_elem_of_In; simpl; auto).
  assert (∀ s, VNum 7 ≠ VStr s) as Hnum by discriminate.
  split; [split_and!; try reflexivity; assumption |].
  exact (ldapFilter_list_type_error (H := Fixture.externals)
           [("belongs_to_type", VArr [VStr "zone"; VNum 7])]
           (Some (Bucket BUCKET_desc Fixture.net1_bucket BUCKET_index))
           "belongs_to_type" [VStr "zone"; VNum 7] (VNum 7)
           eq_refl eq_refl eq_refl Hin Hnum).
Defined.

Lemma updateObj_merge_witness :
  (truthy (u_replace
             (UpdateOpts (Bucket BUCKET_desc Fixture.net1_bucket BUCKET_index)
                "167772217" VUndefined VUndefined
                [("reserved", VBool true)])) = false
   ∧ "__proto__"
     ∉ keys (u_val
               (UpdateOpts
                  (Bucket BUCKET_desc Fixture.net1_bucket BUCKET_index)
                  "167772217" VUndefined VUndefined
                  [("reserved", VBool true)])))
  ∧ ∃ value' m',
      updateObj
        (UpdateOpts (Bucket BUCKET_desc Fixture.net1_bucket BUCKET_index)
           "167772217" VUndefined VUndefined [("reserved", VBool true)])
        Fixture.store_assigned
      = (Ok (Row value' (VStr "0")), m')
      ∧ own value' "reserved" = Some (VBool true)
      ∧ own value' "owner_uuid" = Some (VStr Fixture.owner).
Proof.
  assert ("__proto__"
          ∉ keys (u_val
                    (UpdateOpts
                       (Bucket BUCKET_desc Fixture.net1_bucket BUCKET_index)
                       "167772217" VUndefined VUndefined
                       [("reserved", VBool true)]))) as Hplain.
  { intros Hin. apply list_elem_of_In in Hin. simpl in Hin.
    destruct Hin as [Hin | []]. discriminate Hin. }
  split; [split; [reflexivity | exact Hplain] |].
  pose proof (updateObj_merge
                (UpdateOpts
                   (Bucket BUCKET_desc Fixture.net1_bucket BUCKET_index)
                   "167772217" VUndefined VUndefined
                   [("reserved", VBool true)])
                Fixture.store_assigned eq_refl Hplain) as Hmerge.
  destruct Hmerge as (value' & m' & Hupdate & _ & Hown).
  exists value', m'. split; [exact Hupdate |].
  split; [exact (Hown "reserved") | exact (Hown "owner_uuid")].
Defined.

Lemma updateObj_replace_witness :
  truthy (u_replace
            (UpdateOpts PoolModel.BUCKET Samples.pool_uuid VUndefined
               (VBool true) [("name", VStr "pool1")])) = true
  ∧ ∃ m',
      updateObj
        (UpdateOpts PoolModel.BUCKET Samples.pool_uuid VUndefined
           (VBool true) [("name", VStr "pool1")])
        Fixture.empty_store
      = (Ok (Row [("name", VStr "pool1")] VUndefined), m')
      ∧ objects m' !! ("napi_network_pools", Samples.pool_uuid)
        = Some (Row [("name", VStr "pool1")] (VStr "0")).
Proof.
  split; [reflexivity |].
  destruct (updateObj_replace
              (UpdateOpts PoolModel.BUCKET Samples.pool_uuid VUndefined
                 (VBool true) [("name", VStr "pool1")])
              Fixture.empty_store eq_refl) as (m' & Hupdate & Hrow & _).
  exists m'. split; [exact Hupdate | exact Hrow].
Defined.

Lemma raw_shape_witness :
  IP_wf Fixture.assigned_ip
  ∧ ∃ v,
      raw Fixture.assigned_ip = Ok v
      ∧ own v "network" = None
      ∧ own v "etag" = None
      ∧ own v "ip" = Some (VNum 167772217)
      ∧ own v "ipaddr" = None
      ∧ IPCommon.key Fixture.assigned_ip = Ok "167772217".
Proof.
  assert (IP_wf Fixture.assigned_ip) as Hwf.
  { split_and!; [by eexists | done | by eexists]. }
  split; [exact Hwf |].
  destruct (raw_shape Fixture.assigned_ip Hwf)
    as (v & a & Hraw & Ha & Hnet & _ & Hetag & _ & _ & Hstored).
  injection Ha as <-. simpl in Hstored.
  destruct Hstored as (Hip & Hipaddr & _ & Hkey).
  exists v. by split_and!.
Defined.

Lemma bucketName_injective_witness :
  (¬ contains Fixture.netA_uuid "_" ∧ ¬ contains Fixture.netB_uuid "_")
  ∧ (bucketName (VStr Fixture.netA_uuid) = bucketName (VStr Fixture.netB_uuid)
     → Fixture.netA_uuid = Fixture.netB_uuid)
  ∧ ∃ rest,
      bucketName (VStr Fixture.netA_uuid) = Ok ("napi_ips_" +:+ rest)
      ∧ ¬ contains rest "-"
      ∧ String.length rest = String.length Fixture.netA_uuid.
Proof.
  assert (∀ u, indexOf u "_" = -1 → ¬ contains u "_") as Hnone.
  { intros u Hu Hc. apply (indexOf_contains u "_") in Hc; [done | done]. }
  pose proof (Hnone Fixture.netA_uuid eq_refl) as HA.
  pose proof (Hnone Fixture.netB_uuid eq_refl) as HB.
  split; [by split |].
  exact (bucketName_injective Fixture.netA_uuid Fixture.netB_uuid HA HB).
Defined.

Lemma new_IP_normalises_witness :
  new_IP (H := Fixture.externals)
    (Fixture.request57 ++ [("reserved", VStr "true")])
  = Ok (MkIP (Fixture.request57 ++ [("reserved", VBool true)]) VNull
          (VBool false))
  ∧ own (Fixture.request57 ++ [("reserved", VBool true)]) "reserved"
    = Some (VBool true)
  ∧ etag (MkIP (Fixture.request57 ++ [("reserved", VBool true)]) VNull
            (VBool false)) = VNull.
Proof.
  split; [reflexivity |].
  destruct (new_IP_normalises (H := Fixture.externals)
              (Fixture.request57 ++ [("reserved", VStr "true")])
              (MkIP (Fixture.request57 ++ [("reserved", VBool true)]) VNull
                 (VBool false)) eq_refl) as (Hres & Hetag & _).
  split; [exact Hres | exact Hetag].
Defined.

Lemma free_provisionable_witness :
  (serialize Fixture.requested_ip = Ok Samples.free_ser
   ∧ own Samples.free_ser "free" = Some (VBool true))
  ∧ provisionable (H := Fixture.externals) Fixture.requested_ip = true.
Proof.
  split; [split; reflexivity |].
  exact (free_provisionable (H := Fixture.externals) Fixture.requested_ip
           Samples.free_ser eq_refl eq_refl).
Defined.

Lemma createIP_once_witness :
  (new_IP (H := Fixture.externals) Fixture.request57
   = Ok Fixture.requested_ip
   ∧ member (get Fixture.request57 "network") "uuid"
     = VStr Fixture.net1_uuid
   ∧ bucketName (VStr Fixture.net1_uuid) = Ok Fixture.net1_bucket
   ∧ IPCommon.key Fixture.requested_ip = Ok "167772217"
   ∧ raw Fixture.requested_ip = Ok Fixture.requested_raw
   ∧ objects Fixture.empty_store !! (Fixture.net1_bucket, "167772217")
     = None)
  ∧ ∃ res_etag m',
      createIP (H := Fixture.externals) (Ok Fixture.request57)
        Fixture.empty_store
      = (Ok (MkIP (IPCommon.params Fixture.requested_ip) res_etag
               (use_strings Fixture.requested_ip)), m')
      ∧ objects m' !! (Fixture.net1_bucket, "167772217")
        = Some (Row Fixture.requested_raw res_etag)
      ∧ createIP (H := Fixture.externals) (Ok Fixture.request57) m'
        = (Err EtagConflictError, m').
Proof.
  split; [split_and!; reflexivity |].
  exact (createIP_once (H := Fixture.externals) Fixture.request57
           Fixture.empty_store Fixture.requested_ip Fixture.net1_uuid
           Fixture.net1_bucket "167772217" Fixture.requested_raw
           eq_refl eq_refl eq_refl eq_refl eq_refl eq_refl).
Defined.

Lemma deleteIP_frees_witness :
  (toIPAddr (Externals := Fixture.externals) (get Fixture.request57 "ip")
   = Some Fixture.addr57
   ∧ is_object (get Fixture.request57 "network") = true
   ∧ member (get Fixture.request57 "network") "uuid"
     = VStr Fixture.net1_uuid
   ∧ bucketName (VStr Fixture.net1_uuid) = Ok Fixture.net1_bucket
   ∧ getIPKey (member (get Fixture.request57 "network") "ip_use_strings")
       (VAddr Fixture.addr57) = Ok "167772217"
   ∧ etag_ok (Some (etag Fixture.assigned_ip))
       (objects Fixture.store_assigned
          !! (Fixture.net1_bucket, "167772217")) = true
   ∧ toIPAddr (Externals := Fixture.externals)
       (if truthy (member (get Fixture.request57 "network")
                     "ip_use_strings")
        then VStr (toString Fixture.addr57)
        else VNum (toLong Fixture.addr57)) = Some Fixture.addr57
   ∧ (truthy (member (get Fixture.request57 "network") "ip_use_strings")
      = true → toString Fixture.addr57 ≠ EmptyString))
  ∧ ∃ deleted m',
      deleteIP (H := Fixture.externals) Fixture.request57
        Fixture.assigned_ip Fixture.store_assigned = (Ok deleted, m')
      ∧ (∃ ser, serialize deleted = Ok ser
                ∧ own ser "free" = Some (VBool true))
      ∧ provisionable (H := Fixture.externals) deleted = true.
Proof.
  assert (truthy (member (get Fixture.request57 "network") "ip_use_strings")
          = true → toString Fixture.addr57 ≠ EmptyString) as Hnonempty
    by discriminate.
  split; [split_and!; try reflexivity; exact Hnonempty |].
  destruct (deleteIP_frees (H := Fixture.externals) Fixture.request57
              Fixture.assigned_ip Fixture.store_assigned Fixture.addr57
              Fixture.addr57 Fixture.net1_uuid Fixture.net1_bucket
              "167772217" eq_refl eq_refl eq_refl eq_refl eq_refl eq_refl
              eq_refl Hnonempty)
    as (deleted & m' & ser & Hdel & _ & _ & Hser & Hfree & Hres & Hip
        & Hprov & _).
  exists deleted, m'. split; [exact Hdel |]. split; [| exact Hprov].
  exists ser. split; [exact Hser | exact Hfree].
Defined.

Lemma createIP_then_getIP_witness :
  (new_IP (H := Fixture.externals) Fixture.request57
   = Ok Fixture.requested_ip
   ∧ get (IPCommon.params Fixture.requested_ip) "ip" = VAddr Fixture.addr57
   ∧ truthy (get Fixture.request57 "use_strings") = false
   ∧ member (get Fixture.request57 "network") "uuid"
     = VStr Fixture.net1_uuid
   ∧ bucketName (VStr Fixture.net1_uuid) = Ok Fixture.net1_bucket
   ∧ IPCommon.key Fixture.requested_ip = Ok "167772217"
   ∧ objects Fixture.empty_store !! (Fixture.net1_bucket, "167772217")
     = None
   ∧ get Fixture.request57 "network_uuid" = VStr Fixture.net1_uuid
   ∧ toIPAddr (Externals := Fixture.externals) (get Fixture.request57 "ip")
     = Some Fixture.addr57
   ∧ toIPAddr (Externals := Fixture.externals)
       (if truthy (use_strings Fixture.requested_ip)
        then VStr (toString Fixture.addr57)
        else VNum (toLong Fixture.addr57)) = Some Fixture.addr57
   ∧ (truthy (use_strings Fixture.requested_ip) = true
      → toString Fixture.addr57 ≠ EmptyString))
  ∧ ∃ created m' got,
      createIP (H := Fixture.externals) (Ok Fixture.request57)
        Fixture.empty_store = (Ok created, m')
      ∧ getIP (H := Fixture.externals) Fixture.request57 (VBool false) m'
        = Ok got
      ∧ etag created = next_etag Fixture.empty_store
      ∧ etag got = etag created
      ∧ serialize got = serialize created.
Proof.
  assert (truthy (use_strings Fixture.requested_ip) = true
          → toString Fixture.addr57 ≠ EmptyString) as Hnonempty
    by discriminate.
  split; [split_and!; try reflexivity; exact Hnonempty |].
  exact (createIP_then_getIP (H := Fixture.externals) Fixture.request57
           Fixture.request57 (VBool false) Fixture.empty_store
           Fixture.requested_ip Fixture.addr57 Fixture.addr57
           Fixture.net1_uuid Fixture.net1_bucket "167772217"
           eq_refl eq_refl eq_refl eq_refl eq_refl eq_refl eq_refl eq_refl
           eq_refl eq_refl eq_refl eq_refl Hnonempty).
Defined.

Lemma createUpdatedObject_keeps_witness :
  (get (IPCommon.params Samples.unchecked_ip) "ip" = VAddr Fixture.addr57
   ∧ is_object (get (IPCommon.params Samples.unchecked_ip) "network") = true
   ∧ member (get (IPCommon.params Samples.unchecked_ip) "network") "uuid"
     = VStr Fixture.net1_uuid
   ∧ toIPAddr (Externals := Samples.externals)
       (VStr (toString Fixture.addr57)) = Some Fixture.addr57)
  ∧ own (IPCommon.params Samples.unchecked_ip) "check_owner"
    = Some (VBool false)
  ∧ ∃ updated,
      IPParams.createUpdatedObject (H := Samples.externals)
        Samples.unchecked_ip [("reserved", VStr "true")] = Ok updated
      ∧ etag updated = etag Samples.unchecked_ip
      ∧ own (IPCommon.params updated) "reserved" = Some (VBool true)
      ∧ own (IPCommon.params updated) "owner_uuid"
        = Some (VStr Fixture.owner)
      ∧ own (IPCommon.params updated) "check_owner" = None.
Proof.
  split; [split_and!; reflexivity |]. split; [reflexivity |].
  destruct (createUpdatedObject_keeps (H := Samples.externals)
              Samples.unchecked_ip [("reserved", VStr "true")]
              Fixture.addr57 Fixture.addr57 Fixture.net1_uuid
              eq_refl eq_refl eq_refl eq_refl)
    as (updated & Hnew & Hetag & _ & _ & _ & _ & Hopt & Hcheck & Hres).
  exists updated.
  split_and!; [exact Hnew | exact Hetag | exact Hres | | exact Hcheck].
  apply (Hopt "owner_uuid"). apply list_elem_of_In. simpl. auto.
Defined.

Lemma checkNetwork_agrees_witness :
  NicValidate.checkNetwork (H := Samples.constants) Samples.nic_params
    "network_uuid" Samples.tagged_net
  = Ok (None, Samples.nic_checked)
  ∧ get Samples.nic_checked "nic_tag" = member Samples.tagged_net "nic_tag"
  ∧ get Samples.nic_checked "vlan_id"
    = member (member Samples.tagged_net "params") "vlan_id"
  ∧ (∀ k, k ≠ "nic_tag" → k ≠ "vlan_id" →
          own Samples.nic_checked k = own Samples.nic_params k)
  ∧ NicValidate.checkNetwork (H := Samples.constants) Samples.nic_checked
      "network_uuid" Samples.tagged_net
    = Ok (None, Samples.nic_checked).
Proof.
  split; [reflexivity |].
  exact (checkNetwork_agrees (H := Samples.constants) Samples.nic_params
           "network_uuid" Samples.tagged_net Samples.nic_checked eq_refl).
Defined.

Lemma listVnetCns_once_witness :
  Forall (λ cn, is_object cn = true
                ∧ String.eqb (typeof (member cn "cn_uuid")) "string" = true)
         Samples.vnet_cns
  ∧ ∃ l,
      NicValidate.listVnetCns (Ok Samples.vnet_cns) = Ok l
      ∧ NoDup l
      ∧ ∀ s, s ∈ l
             ↔ s ≠ "__proto__"
               ∧ ∃ cn, cn ∈ Samples.vnet_cns
                       ∧ member cn "cn_uuid" = VStr s.
Proof.
  assert (Forall (λ cn, is_object cn = true
                        ∧ String.eqb (typeof (member cn "cn_uuid")) "string"
                          = true) Samples.vnet_cns) as Hcns.
  { repeat constructor. }
  split; [exact Hcns |].
  exact (listVnetCns_once Samples.vnet_cns Hcns).
Defined.

Lemma new_NetworkPool_nic_tag_witness :
  (get Samples.pool_params_nets "_networks" = VArr [Samples.netA]
   ∧ is_object Samples.netA = true
   ∧ is_object (member Samples.netA "params") = true)
  ∧ ∃ pool,
      PoolModel.new_NetworkPool (H := Fixture.externals) "fresh"
        Samples.pool_params_nets = Ok pool
      ∧ own (PoolModel.params pool) "nic_tag"
        = Some (member (member Samples.netA "params") "nic_tag")
      ∧ own (PoolModel.params pool) "_networks" = None
      ∧ get (PoolModel.params pool) "uuid"
        = (if truthy (get Samples.pool_params_nets "uuid")
           then get Samples.pool_params_nets "uuid" else VStr "fresh").
Proof.
  split; [split_and!; reflexivity |].
  exact (new_NetworkPool_nic_tag (H := Fixture.externals) "fresh"
           Samples.pool_params_nets Samples.netA [] eq_refl eq_refl eq_refl).
Defined.

Lemma new_NetworkPool_no_nic_tag_witness :
  (∀ first rest, get Samples.pool_params "_networks" ≠ VArr (first :: rest))
  ∧ ∃ pool,
      PoolModel.new_NetworkPool (H := Fixture.externals) "fresh"
        Samples.pool_params = Ok pool
      ∧ own (PoolModel.params pool) "nic_tag" = None
      ∧ get (PoolModel.params pool) "uuid"
        = (if truthy (get Samples.pool_params "uuid")
           then get Samples.pool_params "uuid" else VStr "fresh").
Proof.
  assert (∀ first rest,
            get Samples.pool_params "_networks" ≠ VArr (first :: rest))
    as Hnone by discriminate.
  split; [exact Hnone |].
  exact (new_NetworkPool_no_nic_tag (H := Fixture.externals) "fresh"
           Samples.pool_params Hnone).
Defined.


Lemma pool_raw_order_witness :
  (get (PoolModel.params Samples.pool1) "networks"
   = VArr [VStr Fixture.netB_uuid; VStr Fixture.netA_uuid]
   ∧ get (PoolModel.params Samples.pool1_swapped) "networks"
     = VArr [VStr Fixture.netA_uuid; VStr Fixture.netB_uuid]
   ∧ [VStr Fixture.netB_uuid; VStr Fixture.netA_uuid]
     ≡ₚ [VStr Fixture.netA_uuid; VStr Fixture.netB_uuid]
   ∧ Forall (λ v, String.eqb (typeof v) "string" = true)
       [VStr Fixture.netB_uuid; VStr Fixture.netA_uuid]
   ∧ get (PoolModel.params Samples.pool1) "uuid"
     = get (PoolModel.params Samples.pool1_swapped) "uuid"
   ∧ get (PoolModel.params Samples.pool1) "name"
     = get (PoolModel.params Samples.pool1_swapped) "name"
   ∧ own (PoolModel.params Samples.pool1) "owner_uuid"
     = own (PoolModel.params Samples.pool1_swapped) "owner_uuid")
  ∧ ∃ ser self1' self2',
      PoolModel.raw Samples.pool1 = Ok (ser, self1')
      ∧ PoolModel.raw Samples.pool1_swapped = Ok (ser, self2').
Proof.
  assert (Forall (λ v, String.eqb (typeof v) "string" = true)
            [VStr Fixture.netB_uuid; VStr Fixture.netA_uuid]) as Hstr.
  { repeat constructor. }
  split; [split_and!; try reflexivity; [apply perm_swap | exact Hstr] |].
  exact (pool_raw_order Samples.pool1 Samples.pool1_swapped
           [VStr Fixture.netB_uuid; VStr Fixture.netA_uuid]
           [VStr Fixture.netA_uuid; VStr Fixture.netB_uuid]
           eq_refl eq_refl (perm_swap _ _ _) Hstr eq_refl eq_refl eq_refl).
Defined.

Lemma validateNetworkOwners_other_owner_witness :
  (truthy (get Samples.owned_pool_params "owner_uuid") = true
   ∧ get Samples.owned_pool_params "_networks"
     = VArr [Samples.netA; Samples.netC]
   ∧ Forall (λ net, is_object net = true
                    ∧ is_object (member net "params") = true)
       [Samples.netA; Samples.netC])
  ∧ PoolModel.validateNetworkOwners (H := Fixture.externals)
      (H0 := Samples.constants) Samples.owned_pool_params
    = Err (InvalidParam "networks"
             "networks must be owned by the pool owner"
             (Some [VStr Fixture.netB_uuid])).
Proof.
  assert (Forall (λ net, is_object net = true
                         ∧ is_object (member net "params") = true)
            [Samples.netA; Samples.netC]) as Hobj.
  { repeat constructor. }
  split; [split_and!; try reflexivity; exact Hobj |].
  exact (validateNetworkOwners_other_owner (H := Fixture.externals)
           (H0 := Samples.constants) Samples.owned_pool_params
           [Samples.netA; Samples.netC] eq_refl eq_refl Hobj).
Defined.


Lemma validateNetworks_unknown_witness :
  (Z.of_nat (length (arrayify (Externals := Fixture.externals)
                       (VArr [VStr Fixture.netA_uuid;
                              VStr Fixture.net1_uuid]))) ≤ MAX_NETS
   ∧ Forall (λ uuid,
               match net_get (Externals := Fixture.externals)
                       Fixture.store_two_nets uuid with
               | Ok res =>
                   truthy res = true
                   → is_object (member res "params") = true
               | Err _ => True
               | Throw _ => False
               end) [VStr Fixture.net1_uuid; VStr Fixture.netA_uuid]
   ∧ filter (λ uuid, unknown_network (H := Fixture.externals)
                       Fixture.store_two_nets uuid)
       [VStr Fixture.net1_uuid; VStr Fixture.netA_uuid] ≠ [])
  ∧ validateNetworks (H := Fixture.externals) Fixture.store_two_nets
      "networks" (VArr [VStr Fixture.netA_uuid; VStr Fixture.net1_uuid])
      [VStr Fixture.net1_uuid; VStr Fixture.netA_uuid]
    = (Err (InvalidParam "networks" "unknown network"
              (Some [VStr Fixture.net1_uuid])),
       [VStr Fixture.netA_uuid; VStr Fixture.net1_uuid]).
Proof.
  assert (Z.of_nat (length (arrayify (Externals := Fixture.externals)
                              (VArr [VStr Fixture.netA_uuid;
                                     VStr Fixture.net1_uuid]))) ≤ MAX_NETS)
    as Hmax by discriminate.
  assert (Forall (λ uuid,
                    match net_get (Externals := Fixture.externals)
                            Fixture.store_two_nets uuid with
                    | Ok res =>
                        truthy res = true
                        → is_object (member res "params") = true
                    | Err _ => True
                    | Throw _ => False
                    end) [VStr Fixture.net1_uuid; VStr Fixture.netA_uuid])
    as Hanswers.
  { repeat constructor. vm_compute. intros _. reflexivity. }
  assert (filter (λ uuid, unknown_network (H := Fixture.externals)
                            Fixture.store_two_nets uuid)
            [VStr Fixture.net1_uuid; VStr Fixture.netA_uuid] ≠ [])
    as Hsome by discriminate.
  split; [by split_and! |].
  exact (validateNetworks_unknown (H := Fixture.externals)
           Fixture.store_two_nets "networks"
           (VArr [VStr Fixture.netA_uuid; VStr Fixture.net1_uuid])
           [VStr Fixture.net1_uuid; VStr Fixture.netA_uuid]
           Hmax Hanswers Hsome).
Defined.

Lemma createNetworkPool_then_delete_witness :
  (PoolModel.new_NetworkPool (H := Fixture.externals) "fresh"
     Samples.pool_params = Ok Samples.pool1
   ∧ get (PoolModel.params Samples.pool1) "uuid" = VStr Samples.pool_uuid
   ∧ get (PoolModel.params Samples.pool1) "networks"
     = VArr [VStr Fixture.netB_uuid; VStr Fixture.netA_uuid])
  ∧ ∃ ser created m1 m2,
      PoolModel.raw Samples.pool1 = Ok (ser, created)
      ∧ PoolModel.createNetworkPool (H := Fixture.externals) "fresh"
          (Ok Samples.pool_params) Fixture.empty_store = (Ok created, m1)
      ∧ objects m1 !! ("napi_network_pools", Samples.pool_uuid)
        = Some (Row ser (next_etag Fixture.empty_store))
      ∧ PoolModel.deleteNetworkPool [("uuid", VStr Samples.pool_uuid)] None
          m1 = (Ok (), m2)
      ∧ objects m2 !! ("napi_network_pools", Samples.pool_uuid) = None
      ∧ PoolModel.getNetworkPool (H := Fixture.externals) "fresh"
          [("uuid", VStr Samples.pool_uuid)] None m2
        = Err (ResourceNotFoundError "network pool not found")
      ∧ PoolModel.deleteNetworkPool [("uuid", VStr Samples.pool_uuid)] None
          m2 = (Err ObjectNotFoundError, m2).
Proof.
  split; [split_and!; reflexivity |].
  exact (createNetworkPool_then_delete (H := Fixture.externals) "fresh"
           Samples.pool_uuid Samples.pool_params Fixture.empty_store
           Samples.pool1 [VStr Fixture.netB_uuid; VStr Fixture.netA_uuid]
           eq_refl eq_refl eq_refl).
Defined.
